(** * yleoer/music: cue-sheet parsing, album assembly, stability gating
      and scan scheduling, embedded from the Go sources.

    Go strings are byte sequences, so they are modelled by [string]
    (a list of 8-bit [ascii] bytes); non-ASCII text appears as its UTF-8
    encoding.  Go's [int], [int64] and [time.Duration] are 64-bit two's
    complement integers (the program is built for a 64-bit target), modelled
    in [Z] with the wrap-around written out. *)

From Stdlib Require Import ZArith Lia Bool Ascii String List.
From stdpp Require Import gmap strings list fin_maps.
Import ListNotations.
Local Open Scope Z_scope.

(** ** Results of fallible calls *)

Inductive result (E A : Type) : Type :=
| Ok (a : A)
| Err (e : E).
Arguments Ok {E A} a.
Arguments Err {E A} e.

(** ** 64-bit integers *)

Module Int64.

Definition min : Z := - 2 ^ 63.
Definition max : Z := 2 ^ 63 - 1.

(** Two's complement wrap-around of a mathematical integer. *)
Definition wrap (z : Z) : Z := (z + 2 ^ 63) mod 2 ^ 64 - 2 ^ 63.

Definition add (a b : Z) : Z := wrap (a + b).
Definition sub (a b : Z) : Z := wrap (a - b).
Definition mul (a b : Z) : Z := wrap (a * b).
(** Go's integer division truncates toward zero. *)
Definition div (a b : Z) : Z := wrap (Z.quot a b).

Definition in_range (z : Z) : Prop := min <= z <= max.

End Int64.

(** ** Bytes and strings *)

Definition byte_eqb (a b : ascii) : bool := Ascii.eqb a b.

Definition byte_val (c : ascii) : Z := Z.of_N (N_of_ascii c).

Definition is_digit (c : ascii) : bool :=
  (48 <=? byte_val c) && (byte_val c <=? 57).

Definition digit_val (c : ascii) : Z := byte_val c - 48.

Fixpoint HasPrefix (s p : string) : bool :=
  match p, s with
  | EmptyString, _ => true
  | String a p', String b s' => byte_eqb a b && HasPrefix s' p'
  | String _ _, EmptyString => false
  end.

Fixpoint drop (n : nat) (s : string) : string :=
  match n, s with
  | O, _ => s
  | S n', String _ s' => drop n' s'
  | S _, EmptyString => EmptyString
  end.

Fixpoint take (n : nat) (s : string) : string :=
  match n, s with
  | S n', String c s' => String c (take n' s')
  | _, _ => EmptyString
  end.

(** [strings.Contains]. *)
Fixpoint Contains (s sub : string) : bool :=
  HasPrefix s sub ||
  match s with
  | EmptyString => false
  | String _ s' => Contains s' sub
  end.

(** [strings.Split(s, sep)] for a one-byte separator: the pieces between
    the occurrences of [sep]; one more piece than there are separators. *)
Fixpoint Split (s : string) (sep : ascii) : list string :=
  match s with
  | EmptyString => [EmptyString]
  | String c s' =>
      if byte_eqb c sep then EmptyString :: Split s' sep
      else match Split s' sep with
           | h :: t => String c h :: t
           | [] => [String c EmptyString]
           end
  end.

(** ** strconv.Atoi *)

Inductive NumError : Type := ErrSyntax | ErrRange.

Module strconv.

Definition maxUint64 : Z := 2 ^ 64 - 1.

(** The digit loop of [ParseUint(s, 10, 64)]; [n] is the accumulator. *)
Fixpoint ParseUint_loop (s : string) (n : Z) : Z * option NumError :=
  match s with
  | EmptyString => (n, None)
  | String c s' =>
      if negb (is_digit c) then (0, Some ErrSyntax)
      else if maxUint64 / 10 + 1 <=? n then (maxUint64, Some ErrRange)
      else
        let n1 := n * 10 + digit_val c in
        if maxUint64 <? n1 then (maxUint64, Some ErrRange)
        else ParseUint_loop s' n1
  end.

Definition ParseUint (s : string) : Z * option NumError :=
  match s with
  | EmptyString => (0, Some ErrSyntax)
  | _ => ParseUint_loop s 0
  end.

(** [ParseInt(s, 10, 0)] on a 64-bit target. *)
Definition ParseInt (s : string) : Z * option NumError :=
  match s with
  | EmptyString => (0, Some ErrSyntax)
  | String c0 rest =>
      let neg := byte_eqb c0 "-" in
      let s1 := if byte_eqb c0 "+" || neg then rest else s in
      match ParseUint s1 with
      | (_, Some ErrSyntax) => (0, Some ErrSyntax)
      | (un, _) =>
          let cutoff := 2 ^ 63 in
          if negb neg && (cutoff <=? un) then (cutoff - 1, Some ErrRange)
          else if neg && (cutoff <? un) then (- cutoff, Some ErrRange)
          else (if neg then - un else un, None)
      end
  end.

(** [Atoi]: the fast path for short inputs computes the same value as
    [ParseInt], so one definition covers both. *)
Definition Atoi (s : string) : Z * option NumError := ParseInt s.

End strconv.

(** ** time.Duration *)

(** A duration is a signed 64-bit count of nanoseconds. *)
Definition Duration : Type := Z.
Definition Millisecond : Duration := 1000000.

Definition ms (n : Z) : Duration := n * Millisecond.

(** ** parser.go *)

Inductive error : Type :=
| ErrInvalidTimeFormat (timeStr : string)
| ErrReadCue (cause : string)
| ErrTooLong
| ErrNoTracks (cuePath : string)
| ErrWavNotFound (wavPath : string).

(** [parseCueTime]: the three [Atoi] errors are dropped, the arithmetic is
    done in [int], and the result is scaled to nanoseconds. *)
Definition parseCueTime (timeStr : string) : result error Duration :=
  match Split timeStr ":" with
  | [p0; p1; p2] =>
      let minutes := fst (strconv.Atoi p0) in
      let seconds := fst (strconv.Atoi p1) in
      let frames := fst (strconv.Atoi p2) in
      let totalMilliseconds :=
        Int64.add
          (Int64.add (Int64.mul (Int64.mul minutes 60) 1000)
                     (Int64.mul seconds 1000))
          (Int64.div (Int64.mul frames 1000) 75) in
      Ok (Int64.mul totalMilliseconds Millisecond)
  | _ => Err (ErrInvalidTimeFormat timeStr)
  end.


(** ** strings.TrimSpace *)

Definition bytes (l : list nat) : string :=
  fold_right (fun n s => String (ascii_of_nat n) s) EmptyString l.

(** The UTF-8 encodings of the runes for which [unicode.IsSpace] holds:
    tab, LF, VT, FF, CR, space, U+0085, U+00A0, U+1680, U+2000..U+200A,
    U+2028, U+2029, U+202F, U+205F and U+3000. *)
Definition space_encodings : list string :=
  map bytes
    ([[9]; [10]; [11]; [12]; [13]; [32]; [194; 133]; [194; 160];
      [225; 154; 128]]
     ++ map (fun k => [226; 128; k]) (seq 128 11)
     ++ [[226; 128; 168]; [226; 128; 169]; [226; 128; 175];
         [226; 129; 159]; [227; 128; 128]])%nat.

Fixpoint rev_string (s acc : string) : string :=
  match s with
  | EmptyString => acc
  | String c s' => rev_string s' (String c acc)
  end.

Definition first_prefix (encs : list string) (s : string) : option string :=
  find (fun e => HasPrefix s e) encs.

(** Strip leading runes whose encoding is in [encs]. *)
Fixpoint trim_left (fuel : nat) (encs : list string) (s : string) : string :=
  match fuel with
  | O => s
  | S fuel' =>
      match first_prefix encs s with
      | Some e => trim_left fuel' encs (drop (String.length e) s)
      | None => s
      end
  end.

Definition TrimSpace (s : string) : string :=
  let l := trim_left (String.length s) space_encodings s in
  let r := rev_string l EmptyString in
  let rencs := map (fun e => rev_string e EmptyString) space_encodings in
  rev_string (trim_left (String.length r) rencs r) EmptyString.

(** ** regexp: leftmost-first matching with submatches

    Go's [regexp] returns the match a backtracking search would find
    first.  The matcher below is that search, in continuation-passing
    style, over the operators the program's patterns use.  Patterns are
    matched on the UTF-8 bytes: a rune class with a multi-byte member is the
    alternation of its members' encodings, and the one-byte classes that are
    repeated (the dot, the negated quote class and the digit class) cover the
    bytes of every rune they admit.  In the comments that quote a pattern,
    Q stands for the double-quote character. *)

Module regexp.

Inductive re : Type :=
| Byte (p : ascii -> bool)      (* one byte out of a set *)
| Lit (s : string)              (* a literal byte sequence *)
| Seq (a b : re)
| Alt (a b : re)                (* a|b, a preferred *)
| Plus (p : ascii -> bool)      (* x+ for a one-byte class x, greedy *)
| Group (i : nat) (a : re).     (* capturing group number i *)

Definition caps : Type := list (nat * string).

Fixpoint plus_loop {A} (p : ascii -> bool) (s : string)
    (k : string -> option A) : option A :=
  match s with
  | EmptyString => None
  | String c s' =>
      if p c then
        match plus_loop p s' k with
        | Some r => Some r
        | None => k s'
        end
      else None
  end.

Fixpoint matchk (r : re) (s : string) (cs : caps)
    (k : string -> caps -> option caps) : option caps :=
  match r with
  | Byte p =>
      match s with
      | String c s' => if p c then k s' cs else None
      | EmptyString => None
      end
  | Lit l => if HasPrefix s l then k (drop (String.length l) s) cs else None
  | Seq a b => matchk a s cs (fun s1 c1 => matchk b s1 c1 k)
  | Alt a b =>
      match matchk a s cs k with
      | Some res => Some res
      | None => matchk b s cs k
      end
  | Plus p => plus_loop p s (fun s1 => k s1 cs)
  | Group i a =>
      matchk a s cs
        (fun s1 c1 =>
           k s1 ((i, take (String.length s - String.length s1) s) :: c1))
  end.

(** The leftmost start position at which the pattern matches.  Group 0
    is the whole match. *)
Fixpoint search (r : re) (s : string) : option caps :=
  match matchk (Group 0 r) s [] (fun _ c => Some c) with
  | Some c => Some c
  | None =>
      match s with
      | String _ s' => search r s'
      | EmptyString => None
      end
  end.

Fixpoint cap (i : nat) (cs : caps) : string :=
  match cs with
  | [] => EmptyString
  | (j, v) :: cs' => if Nat.eqb i j then v else cap i cs'
  end.

(** A compiled pattern: the expression and its number of groups. *)
Record Regexp : Type := MustCompile { prog : re; numSubexp : nat }.

(** [FindStringSubmatch]: nil when there is no match, otherwise the whole
    match followed by the text of each group. *)
Definition FindStringSubmatch (rx : Regexp) (s : string) : list string :=
  match search (prog rx) s with
  | Some cs => map (fun i => cap i cs) (seq 0 (S (numSubexp rx)))
  | None => []
  end.

(** Pattern building blocks. *)
Definition any_of (l : list ascii) : ascii -> bool :=
  fun c => existsb (byte_eqb c) l.
Definition none_of (l : list ascii) : ascii -> bool :=
  fun c => negb (existsb (byte_eqb c) l).

Fixpoint seqs (l : list re) : re :=
  match l with
  | [] => Lit EmptyString
  | [r] => r
  | r :: l' => Seq r (seqs l')
  end.

(** A letter under [(?i)]: both cases, and for [k] also the Kelvin sign
    U+212A, which Unicode simple folding puts in the same orbit.  No other
    letter of the patterns below folds with a rune outside ASCII. *)
Definition fold_case (lower upper : ascii) : re :=
  if byte_eqb lower "k"
  then Alt (Byte (any_of [lower; upper])) (Lit (bytes [226; 132; 170]%nat))
  else Byte (any_of [lower; upper]).

(** [.] without the [s] flag: anything but a line feed. *)
Definition dot : ascii -> bool := none_of [ascii_of_nat 10%nat].
Definition digit : ascii -> bool := is_digit.

End regexp.

Import regexp.

Definition dquote : ascii := ascii_of_nat 34%nat.
Definition space : re := Byte (any_of [" "%char]).

(** (?i)FILE Q([^Q]+)Q *)
Definition fileRegex : Regexp :=
  MustCompile
    (seqs [fold_case "f" "F"; fold_case "i" "I"; fold_case "l" "L";
           fold_case "e" "E"; space; Byte (any_of [dquote]);
           Group 1 (Plus (none_of [dquote])); Byte (any_of [dquote])]) 1.

(** (?i)TRACK (\d+) AUDIO *)
Definition trackRegex : Regexp :=
  MustCompile
    (seqs [fold_case "t" "T"; fold_case "r" "R"; fold_case "a" "A";
           fold_case "c" "C"; fold_case "k" "K"; space;
           Group 1 (Plus digit); space;
           fold_case "a" "A"; fold_case "u" "U"; fold_case "d" "D";
           fold_case "i" "I"; fold_case "o" "O"]) 1.

(** (?i)TITLE Q([^Q]+)Q *)
Definition titleRegex : Regexp :=
  MustCompile
    (seqs [fold_case "t" "T"; fold_case "i" "I"; fold_case "t" "T";
           fold_case "l" "L"; fold_case "e" "E"; space;
           Byte (any_of [dquote]);
           Group 1 (Plus (none_of [dquote])); Byte (any_of [dquote])]) 1.

(** (?i)INDEX 01 (\d{2}:\d{2}:\d{2}) *)
Definition indexRegex : Regexp :=
  MustCompile
    (seqs [fold_case "i" "I"; fold_case "n" "N"; fold_case "d" "D";
           fold_case "e" "E"; fold_case "x" "X"; space;
           Lit "01"; space;
           Group 1 (seqs [Byte digit; Byte digit; Lit ":";
                          Byte digit; Byte digit; Lit ":";
                          Byte digit; Byte digit])]) 1.

(** (.+)[ （](?:与|feat\.)(.+)[）)] : the first class holds the space and
    U+FF08, the last class holds U+FF09 and the ASCII closing parenthesis. *)
Definition reFt : Regexp :=
  MustCompile
    (seqs [Group 1 (Plus dot);
           Alt (Lit " ") (Lit "（");
           Alt (Lit "与") (Lit "feat.");
           Group 2 (Plus dot);
           Alt (Lit "）") (Lit ")")]) 2.

(** ** album.go *)

Module Track.
Record t : Type := mk {
  Number : Z;
  Title : string;
  Artist : string;
  StartTime : Duration;
  EndTime : Duration;
  Album : string;
  AlbumArtist : string;
  Year : string;
  OnlineID : Z;
  Lyrics : string
}.

(** The zero value of the struct with the given track number. *)
Definition new (num : Z) : t := mk num "" "" 0 0 "" "" "" 0 "".

Definition set_Title (v : string) (x : t) : t :=
  mk (Number x) v (Artist x) (StartTime x) (EndTime x) (Album x)
     (AlbumArtist x) (Year x) (OnlineID x) (Lyrics x).
Definition set_Artist (v : string) (x : t) : t :=
  mk (Number x) (Title x) v (StartTime x) (EndTime x) (Album x)
     (AlbumArtist x) (Year x) (OnlineID x) (Lyrics x).
Definition set_StartTime (v : Duration) (x : t) : t :=
  mk (Number x) (Title x) (Artist x) v (EndTime x) (Album x)
     (AlbumArtist x) (Year x) (OnlineID x) (Lyrics x).
Definition set_EndTime (v : Duration) (x : t) : t :=
  mk (Number x) (Title x) (Artist x) (StartTime x) v (Album x)
     (AlbumArtist x) (Year x) (OnlineID x) (Lyrics x).
End Track.

Module Disc.
Record t : Type := mk {
  DiscNumber : Z;
  CuePath : string;
  WavPath : string;
  Tracks : list Track.t
}.
End Disc.

Module Album.
Record t : Type := mk {
  Path : string;
  Artist : string;
  Title : string;
  Year : string;
  CoverArt : string;
  Discs : list Disc.t;
  InfoContent : string
}.
End Album.

(** ** bufio.Scanner with the default line splitter *)

Module bufio.

Definition MaxScanTokenSize : N := 65536.

(** [dropCR]: one trailing carriage return is removed. *)
Fixpoint dropCR (s : string) : string :=
  match s with
  | EmptyString => EmptyString
  | String c EmptyString =>
      if byte_eqb c (ascii_of_nat 13%nat) then EmptyString else s
  | String c s' => String c (dropCR s')
  end.

(** The text between line feeds; a final piece that is empty is no line. *)
Definition raw_lines (content : string) : list string :=
  let pieces := Split content (ascii_of_nat 10%nat) in
  match last pieces with
  | Some EmptyString => removelast pieces
  | _ => pieces
  end.

(** The tokens [Scan] delivers and the value of [Err] afterwards.  A line
    is delivered only if it fits the buffer, which grows to
    [MaxScanTokenSize] bytes and has to hold the line and either its line
    feed or one free byte to see the end of input; otherwise scanning stops
    with [ErrTooLong]. *)
Fixpoint scan (raws : list string) : list string * option error :=
  match raws with
  | [] => ([], None)
  | raw :: rest =>
      if (MaxScanTokenSize <=? N.of_nat (String.length raw))%N
      then ([], Some ErrTooLong)
      else let '(toks, e) := scan rest in (dropCR raw :: toks, e)
  end.

Definition Scanner (content : string) : list string * option error :=
  scan (raw_lines content).

End bufio.

(** ** parser.go: the cue sheet *)

Record CueSheet : Type := mkCueSheet {
  WavFile : string;
  Tracks : list Track.t
}.

(** The variables of [parseCueFile] that live across loop iterations. *)
Record parseState : Type := mkParseState {
  cue : CueSheet;
  currentTrack : option Track.t
}.

Definition flush (st : parseState) : list Track.t :=
  match currentTrack st with
  | Some t => (Tracks (cue st) ++ [t])%list
  | None => Tracks (cue st)
  end.

(** One iteration of the scanning loop of [parseCueFile]. *)
Definition parseLine (st : parseState) (text : string) : parseState :=
  let line := TrimSpace text in
  match FindStringSubmatch fileRegex line with
  | _ :: m1 :: _ =>
      mkParseState (mkCueSheet m1 (Tracks (cue st))) (currentTrack st)
  | _ =>
      match FindStringSubmatch trackRegex line with
      | _ :: m1 :: _ =>
          let num := fst (strconv.Atoi m1) in
          mkParseState (mkCueSheet (WavFile (cue st)) (flush st))
                       (Some (Track.new num))
      | _ =>
          match currentTrack st with
          | Some t =>
              match FindStringSubmatch titleRegex line with
              | _ :: m1 :: _ =>
                  mkParseState (cue st) (Some (Track.set_Title m1 t))
              | _ =>
                  match FindStringSubmatch indexRegex line with
                  | _ :: m1 :: _ =>
                      let startTime :=
                        match parseCueTime m1 with
                        | Ok d => d
                        | Err _ => 0
                        end in
                      mkParseState (cue st)
                                   (Some (Track.set_StartTime startTime t))
                  | _ => st
                  end
              end
          | None => st
          end
      end
  end.

Definition parseInit : parseState := mkParseState (mkCueSheet "" []) None.

Section Parser.

(** The environment of the parser: the outcome of [readTextFileContent]
    on each path (the decoded text, or the cause of the failure), the
    script converter, and the file-system calls of [processCueFile]. *)
Variable readTextFileContent : string -> result string string.
Variable TradToSim : string -> string.
Variable statIsNotExist : string -> bool.
Variable filepath_Dir : string -> string.
Variable filepath_Join : string -> string -> string.

Definition parseCueFile (cuePath : string) : result error CueSheet :=
  match readTextFileContent cuePath with
  | Err cause => Err (ErrReadCue cause)
  | Ok content =>
      let '(tokens, scanErr) := bufio.Scanner content in
      let st := fold_left parseLine tokens parseInit in
      let tracks := flush st in
      match scanErr with
      | Some e => Err e
      | None =>
          match tracks with
          | [] => Err (ErrNoTracks cuePath)
          | _ => Ok (mkCueSheet (WavFile (cue st)) tracks)
          end
      end
  end.

(** The guest-performer step of [processCueFile] on a track whose title
    has been converted already. *)
Definition splitGuest (albumArtist : string) (track : Track.t) : Track.t :=
  if Contains (Track.Title track) " （与"
     || Contains (Track.Title track) " (与"
  then
    match FindStringSubmatch reFt (Track.Title track) with
    | _ :: m1 :: m2 :: _ =>
        Track.set_Artist (albumArtist +:+ ", " +:+ TradToSim m2)
          (Track.set_Title (TrimSpace m1) track)
    | _ => track
    end
  else Track.set_Artist albumArtist track.

(** The body of the loop of [processCueFile] at index [i]. *)
Definition buildTrack (album : Album.t) (cueTracks : list Track.t)
    (i : nat) (cueTrack : Track.t) : Track.t :=
  let track :=
    Track.mk (Track.Number cueTrack) (TradToSim (Track.Title cueTrack))
             (Album.Artist album) (Track.StartTime cueTrack) 0
             (Album.Title album) (Album.Artist album) (Album.Year album)
             0 "" in
  let track := splitGuest (Album.Artist album) track in
  match cueTracks !! (i + 1)%nat with
  | Some next => Track.set_EndTime (Track.StartTime next) track
  | None => track
  end.

Definition processCueFile (cuePath : string) (album : Album.t)
    (discNumber : Z) : result error Disc.t :=
  match parseCueFile cuePath with
  | Err e => Err e
  | Ok cueSheet =>
      let sourceWavPath :=
        filepath_Join (filepath_Dir cuePath) (WavFile cueSheet) in
      if statIsNotExist sourceWavPath
      then Err (ErrWavNotFound sourceWavPath)
      else Ok (Disc.mk discNumber cuePath sourceWavPath
                 (imap (buildTrack album (Tracks cueSheet))
                       (Tracks cueSheet)))
  end.

End Parser.

(** ** util: which files the stability check looks at *)

Definition slash : ascii := "/"%char.

(** [filepath.Ext]: the suffix of the last path element from its last dot. *)
Fixpoint Ext (path : string) : string :=
  match path with
  | EmptyString => EmptyString
  | String c rest =>
      let e := Ext rest in
      if Contains rest (String slash EmptyString) then e
      else match e with
           | EmptyString =>
               if byte_eqb c "." then path else EmptyString
           | _ => e
           end
  end.

Fixpoint trim_trailing_slashes (s : string) : string :=
  match s with
  | EmptyString => EmptyString
  | String c rest =>
      match trim_trailing_slashes rest with
      | EmptyString => if byte_eqb c slash then EmptyString else String c EmptyString
      | r => String c r
      end
  end.

Fixpoint last_element (s : string) : string :=
  match s with
  | EmptyString => EmptyString
  | String c rest =>
      if Contains s (String slash EmptyString) then last_element rest else s
  end.

(** [filepath.Base] on a Unix path. *)
Definition Base (path : string) : string :=
  match path with
  | EmptyString => "."
  | _ =>
      match last_element (trim_trailing_slashes path) with
      | EmptyString => String slash EmptyString
      | b => b
      end
  end.

Definition lower_byte (c : ascii) : ascii :=
  if (65 <=? byte_val c) && (byte_val c <=? 90)
  then ascii_of_N (N_of_ascii c + 32) else c.

(** [strings.ToLower], exact on ASCII text.  The two runes outside ASCII
    whose lower case is an ASCII letter, U+0130 (to i) and U+212A (to k),
    are mapped as Go maps them; other bytes above 127 are kept, which can
    differ from Go only in bytes above 127, so that a comparison of the
    result with an ASCII constant, the only use made of it, is not
    affected. *)
Fixpoint ToLower (s : string) : string :=
  match s with
  | EmptyString => EmptyString
  | String c rest =>
      match rest with
      | String c1 rest1 =>
          if byte_eqb c (ascii_of_nat 196%nat) && byte_eqb c1 (ascii_of_nat 176%nat)
          then String "i" (ToLower rest1)
          else
            match rest1 with
            | String c2 rest2 =>
                if byte_eqb c (ascii_of_nat 226%nat)
                   && byte_eqb c1 (ascii_of_nat 132%nat)
                   && byte_eqb c2 (ascii_of_nat 170%nat)
                then String "k" (ToLower rest2)
                else String (lower_byte c) (ToLower rest)
            | EmptyString => String (lower_byte c) (ToLower rest)
            end
      | EmptyString => String (lower_byte c) EmptyString
      end
  end.

Definition str_in (s : string) (l : list string) : bool :=
  existsb (String.eqb s) l.

Fixpoint HasSuffix_aux (s suffix : string) : bool :=
  String.eqb s suffix ||
  match s with
  | EmptyString => false
  | String _ s' => HasSuffix_aux s' suffix
  end.
Definition HasSuffix (s suffix : string) : bool := HasSuffix_aux s suffix.

Definition audio_exts : list string :=
  [".wav"; ".flac"; ".mp3"; ".m4a"; ".aac"; ".ogg"; ".ape"; ".wv"].

(** main.go: [isAudioFile]. *)
Definition isAudioFile (filePath : string) : bool :=
  str_in (ToLower (Ext filePath)) audio_exts.

(** pkg/util: [IsRelevantMusicFile]. *)
Definition IsRelevantMusicFile (filePath : string) : bool :=
  let ext := ToLower (Ext filePath) in
  let name := ToLower (Base filePath) in
  if str_in ext audio_exts then true
  else if str_in ext [".cue"; ".json"; ".jpg"; ".png"] then true
  else String.eqb name "info.txt".

(** main.go: the condition written out in [waitForFilesStability]. *)
Definition relevant_main (filePath entryName : string) : bool :=
  let ext := ToLower (Ext entryName) in
  isAudioFile filePath
  || String.eqb (ToLower entryName) "info.txt"
  || HasSuffix ext ".cue" || HasSuffix ext ".json"
  || HasSuffix ext ".jpg" || HasSuffix ext ".png".

Definition relevant_pkg (filePath entryName : string) : bool :=
  IsRelevantMusicFile filePath.

(** ** The stability detector: [waitForFilesStability] *)

(** [time.Time] as a reading of the monotonic clock, in nanoseconds. *)
Definition Time : Type := Z.

(** [Time.Sub] saturates at the bounds of [Duration]. *)
Definition Time_Sub (t u : Time) : Duration :=
  Z.max Int64.min (Z.min Int64.max (t - u)).

Record fileInfo : Type := mkFileInfo { Size : Z; ModTime : Z }.

Definition fileInfo_differs (a b : fileInfo) : bool :=
  negb (Size a =? Size b) || negb (ModTime a =? ModTime b).

(** What [entry.Info()] returns: the file's data, an error for which
    [os.IsNotExist] holds, or another error. *)
Inductive InfoResult : Type :=
| InfoOk (info : fileInfo)
| InfoNotExist
| InfoError.

Record DirEntry : Type := mkDirEntry {
  Name : string;
  IsDir : bool;
  Info : InfoResult
}.

(** One iteration of the polling loop as the detector observes it: the
    clock read by the loop condition, the clock read into
    [currentCheckTime], and the outcome of [os.ReadDir]. *)
Record Poll : Type := mkPoll {
  guardTime : Time;
  checkTime : Time;
  listing : result string (list DirEntry)
}.

(** The two maps that live across polls. *)
Record pollState : Type := mkPollState {
  previousFileStates : gmap string fileInfo;
  fileQuietTimes : gmap string Time
}.

Definition pollInit : pollState := mkPollState ∅ ∅.

(** The variables of the loop over the directory entries. *)
Record entryState : Type := mkEntryState {
  allRelevantFilesQuiet : bool;
  hasRelevantFiles : bool;
  currentFileStates : gmap string fileInfo;
  quietTimes : gmap string Time
}.

Inductive Verdict : Type :=
| Stable (at_time : Time) (present : gmap string fileInfo)
    (* returned true at the poll taken at [at_time]; [present] is
       [currentFileStates] at that moment *)
| Unstable                      (* returned false *)
| Polling.                      (* the observations end before it returns *)

Definition returned (v : Verdict) : option bool :=
  match v with
  | Stable _ _ => Some true
  | Unstable => Some false
  | Polling => None
  end.

Section Detector.

Variable filepath_Join : string -> string -> string.
(** The relevance test, on the joined path and the entry's name. *)
Variable relevant : string -> string -> bool.
Variable dir : string.
Variables checkInterval quietDuration maxWait : Duration.

(** The loop over the entries read at [now]; [prev] is
    [previousFileStates].  An [Info] error other than not-exist breaks out
    of the loop.  A file without an entry in [fileQuietTimes] reads the
    zero [time.Time], for which [IsZero] holds; [time.Now] never returns
    it, so it is the [None] of the lookup. *)
Fixpoint scanEntries (now : Time) (prev : gmap string fileInfo)
    (entries : list DirEntry) (st : entryState) : entryState :=
  match entries with
  | [] => st
  | entry :: rest =>
      let filePath := filepath_Join dir (Name entry) in
      if IsDir entry then scanEntries now prev rest st
      else
        match Info entry with
        | InfoNotExist => scanEntries now prev rest st
        | InfoError =>
            mkEntryState false true (currentFileStates st) (quietTimes st)
        | InfoOk info =>
            if relevant filePath (Name entry) then
              let cur := <[filePath := info]> (currentFileStates st) in
              let fileChanged :=
                match prev !! filePath with
                | Some prevInfo => fileInfo_differs prevInfo info
                | None => true
                end in
              let st' :=
                if fileChanged then
                  mkEntryState false true cur
                    (<[filePath := now]> (quietTimes st))
                else
                  match quietTimes st !! filePath with
                  | None =>
                      mkEntryState false true cur
                        (<[filePath := now]> (quietTimes st))
                  | Some lastChangeTime =>
                      if Time_Sub now lastChangeTime <? quietDuration
                      then mkEntryState false true cur (quietTimes st)
                      else mkEntryState (allRelevantFilesQuiet st) true cur
                             (quietTimes st)
                  end in
              scanEntries now prev rest st'
            else scanEntries now prev rest st
        end
  end.

(** The second loop: every file with a quiet time that is still present
    has been quiet for [quietDuration]. *)
Definition allCurrentlyQuiet (now : Time) (cur : gmap string fileInfo)
    (quiet : gmap string Time) : bool :=
  forallb
    (fun '(filePath, lastChangeTime) =>
       match cur !! filePath with
       | None => true
       | Some _ => negb (Time_Sub now lastChangeTime <? quietDuration)
       end)
    (map_to_list quiet).

(** One poll whose listing succeeded: the new loop state and, when the
    function returns in this poll, its verdict. *)
Definition checkOnce (now : Time) (entries : list DirEntry) (ps : pollState)
    : pollState * option Verdict :=
  let st :=
    scanEntries now (previousFileStates ps) entries
      (mkEntryState true false ∅ (fileQuietTimes ps)) in
  let ps' := mkPollState (currentFileStates st) (quietTimes st) in
  if negb (hasRelevantFiles st) then
    (ps', Some (Stable now (currentFileStates st)))
  else if allRelevantFilesQuiet st
          && allCurrentlyQuiet now (currentFileStates st) (quietTimes st)
  then (ps', Some (Stable now (currentFileStates st)))
  else (ps', None).

(** main.go: a listing error ends the wait with false. *)
Fixpoint Main_waitLoop (startOverallWait : Time) (polls : list Poll)
    (ps : pollState) : Verdict :=
  match polls with
  | [] => Polling
  | p :: rest =>
      if Time_Sub (guardTime p) startOverallWait <? maxWait then
        match listing p with
        | Err _ => Unstable
        | Ok entries =>
            match checkOnce (checkTime p) entries ps with
            | (_, Some v) => v
            | (ps', None) => Main_waitLoop startOverallWait rest ps'
            end
        end
      else Unstable
  end.

(** pkg/scheduler: a listing error sleeps one interval and polls again. *)
Fixpoint Sched_waitLoop (startOverallWait : Time) (polls : list Poll)
    (ps : pollState) : Verdict :=
  match polls with
  | [] => Polling
  | p :: rest =>
      if Time_Sub (guardTime p) startOverallWait <? maxWait then
        match listing p with
        | Err _ => Sched_waitLoop startOverallWait rest ps
        | Ok entries =>
            match checkOnce (checkTime p) entries ps with
            | (_, Some v) => v
            | (ps', None) => Sched_waitLoop startOverallWait rest ps'
            end
        end
      else Unstable
  end.

End Detector.

(** ** The processed ledger (pkg/database, db.go) *)

Inductive dbError : Type := ErrQuery | ErrExec.

(** The table of processed paths is a set.  Whether a statement fails is
    decided by the database, outside the program. *)
Definition IsAlbumProcessed (queryFails : bool) (ledger : gset string)
    (albumPath : string) : bool * option dbError :=
  if queryFails then (false, Some ErrQuery)
  else (bool_decide (albumPath ∈ ledger), None).

Definition AddProcessedAlbum (execFails : bool) (ledger : gset string)
    (albumPath : string) : gset string * option dbError :=
  if execFails then (ledger, Some ErrExec)
  else ({[albumPath]} ∪ ledger, None).

(** ** The scan scheduler *)

(** Calls observed from outside the scheduler, oldest first. *)
Inductive Event : Type :=
| EvPerformScan (dir : string)
| EvScanAlbumDirectory (dir : string)
| EvFetchMetadata (track : Track.t)
| EvProcessAlbum (album : Album.t)
| EvAddProcessedAlbum (dir : string).

(** What the collaborators answer during one run of [performScan]. *)
Record World : Type := mkWorld {
  stabilityResult : string -> bool;   (* what waitForFilesStability returns *)
  queryFails : bool;
  execFails : bool;
  ScanAlbumDirectory : string -> result error (option Album.t);
  FetchMetadataAndUpdateTrack : Track.t -> Track.t;
  ProcessAlbum : Album.t -> option error
}.

(** A timer made by [time.AfterFunc]: active until it fires or is stopped. *)
Record Timer : Type := mkTimer { timerDir : string; active : bool }.

(** [pendingScans] maps a directory to its timer; a timer is named by its
    index in [timers], in creation order. *)
Record Scheduler : Type := mkScheduler {
  pendingScans : gmap string nat;
  timers : list Timer;
  ledger : gset string;
  trace : list Event
}.

Definition newScheduler (ledger : gset string) : Scheduler :=
  mkScheduler ∅ [] ledger [].

Definition record (e : Event) (s : Scheduler) : Scheduler :=
  mkScheduler (pendingScans s) (timers s) (ledger s) (trace s ++ [e]).

Definition deactivate (t : nat) (ts : list Timer) : list Timer :=
  alter (fun tm => mkTimer (timerDir tm) false) t ts.

(** [TriggerScan] / [triggerScan], the same in both packages: stop the
    timer recorded for the directory, if any, and record a new one. *)
Definition TriggerScan (dirPath : string) (s : Scheduler) : Scheduler :=
  let ts :=
    match pendingScans s !! dirPath with
    | Some timer => deactivate timer (timers s)
    | None => timers s
    end in
  mkScheduler (<[dirPath := length ts]> (pendingScans s))
              (ts ++ [mkTimer dirPath true]) (ledger s) (trace s).

Definition discTracks (f : Track.t -> Track.t) (d : Disc.t) : Disc.t :=
  Disc.mk (Disc.DiscNumber d) (Disc.CuePath d) (Disc.WavPath d)
          (map f (Disc.Tracks d)).

Definition albumTracks (f : Track.t -> Track.t) (a : Album.t) : Album.t :=
  Album.mk (Album.Path a) (Album.Artist a) (Album.Title a) (Album.Year a)
           (Album.CoverArt a) (map (discTracks f) (Album.Discs a))
           (Album.InfoContent a).

Definition allTracks (a : Album.t) : list Track.t :=
  concat (map Disc.Tracks (Album.Discs a)).

(** The tail shared by both [performScan]s: hand the album over and mark
    the directory on success. *)
Definition processAndMark (w : World) (dir : string) (album : Album.t)
    (s : Scheduler) : Scheduler :=
  let s := record (EvProcessAlbum album) s in
  match ProcessAlbum w album with
  | Some _ => s
  | None =>
      let s := record (EvAddProcessedAlbum dir) s in
      mkScheduler (pendingScans s) (timers s)
        (fst (AddProcessedAlbum (execFails w) (ledger s) dir)) (trace s)
  end.

Module Main.
(** main.go: the detector as the program runs it, both maps empty at the
    start.  [start] is the clock read into [startOverallWait] and [polls]
    what the loop observes afterwards. *)
Definition waitForFilesStability (join : string -> string -> string)
    (dir : string) (checkInterval quietDuration maxWait : Duration)
    (start : Time) (polls : list Poll) : Verdict :=
  Main_waitLoop join relevant_main dir quietDuration maxWait start polls
    pollInit.

(** main.go: [performScan]. *)
Definition performScan (w : World) (dir : string) (s : Scheduler)
    : Scheduler :=
  let s := record (EvPerformScan dir) s in
  if negb (stabilityResult w dir) then TriggerScan dir s
  else
    let '(processed, _) := IsAlbumProcessed (queryFails w) (ledger s) dir in
    if processed then s
    else
      let s := record (EvScanAlbumDirectory dir) s in
      match ScanAlbumDirectory w dir with
      | Err _ => s
      | Ok None => s
      | Ok (Some album) =>
          match Album.Discs album with
          | [] => s
          | _ :: _ => processAndMark w dir album s
          end
      end.
End Main.

Module Sched.
(** pkg/scheduler: the detector as the program runs it. *)
Definition waitForFilesStability (join : string -> string -> string)
    (dir : string) (checkInterval quietDuration maxWait : Duration)
    (start : Time) (polls : list Poll) : Verdict :=
  Sched_waitLoop join relevant_pkg dir quietDuration maxWait start polls
    pollInit.

(** pkg/scheduler: [performScan]; the tracks are enriched in place before
    the album is handed over. *)
Definition performScan (w : World) (dir : string) (s : Scheduler)
    : Scheduler :=
  let s := record (EvPerformScan dir) s in
  if negb (stabilityResult w dir) then TriggerScan dir s
  else
    let '(processed, _) := IsAlbumProcessed (queryFails w) (ledger s) dir in
    if processed then s
    else
      let s := record (EvScanAlbumDirectory dir) s in
      match ScanAlbumDirectory w dir with
      | Err _ => s
      | Ok None => s
      | Ok (Some album) =>
          match Album.Discs album with
          | [] => s
          | _ :: _ =>
              let s := fold_left (fun s t => record (EvFetchMetadata t) s)
                                 (allTracks album) s in
              processAndMark w dir
                (albumTracks (FetchMetadataAndUpdateTrack w) album) s
          end
      end.
End Sched.

(** Which of the two programs runs. *)
Inductive Program : Type := MainGo | PkgScheduler.

Definition performScan (prog : Program) : World -> string -> Scheduler -> Scheduler :=
  match prog with
  | MainGo => Main.performScan
  | PkgScheduler => Sched.performScan
  end.

(** The function given to [time.AfterFunc] runs when timer [t] fires: the
    scan, then the directory is deleted from [pendingScans].  A timer that
    was stopped or has fired does not fire. *)
Definition fire (prog : Program) (w : World) (t : nat) (s : Scheduler)
    : option Scheduler :=
  match timers s !! t with
  | Some tm =>
      if active tm then
        let s1 := mkScheduler (pendingScans s) (deactivate t (timers s))
                              (ledger s) (trace s) in
        let s2 := performScan prog w (timerDir tm) s1 in
        Some (mkScheduler (delete (timerDir tm) (pendingScans s2))
                          (timers s2) (ledger s2) (trace s2))
      else None
  | None => None
  end.

(** What can happen to the scheduler, one step at a time. *)
Inductive Step : Type :=
| StepTrigger (dir : string)
| StepFire (w : World) (t : nat).

Definition step (prog : Program) (st : Step) (s : Scheduler)
    : option Scheduler :=
  match st with
  | StepTrigger dir => Some (TriggerScan dir s)
  | StepFire w t => fire prog w t s
  end.

Fixpoint run (prog : Program) (steps : list Step) (s : Scheduler)
    : option Scheduler :=
  match steps with
  | [] => Some s
  | st :: rest =>
      match step prog st s with
      | Some s' => run prog rest s'
      | None => None
      end
  end.

(** The timers that will still fire for a directory, and the scans of a
    directory that have been started. *)
Definition activeTimers (dir : string) (s : Scheduler) : nat :=
  length (List.filter
            (fun tm => active tm && String.eqb (timerDir tm) dir)
            (timers s)).

Definition isScanOf (dir : string) (e : Event) : bool :=
  match e with
  | EvPerformScan d => String.eqb d dir
  | _ => false
  end.

Definition scansOf (dir : string) (s : Scheduler) : nat :=
  length (List.filter (isScanOf dir) (trace s)).

(** ** Definitions used to state the properties *)

Definition digit_char (d : Z) : ascii := ascii_of_N (Z.to_N (48 + d)).

(** A number below 100 written with two decimal digits. *)
Definition fmt2 (n : Z) : string :=
  String (digit_char (n / 10)) (String (digit_char (n mod 10)) EmptyString).

(** The text MM:SS:FF. *)
Definition cueTimestamp (m s f : Z) : string :=
  fmt2 m +:+ ":" +:+ fmt2 s +:+ ":" +:+ fmt2 f.

(** Text between double quotes, and lines joined by line feeds. *)
Definition quoted (s : string) : string :=
  String dquote (s +:+ String dquote EmptyString).

Definition LF : string := String (ascii_of_nat 10%nat) EmptyString.

Definition unlines (l : list string) : string :=
  fold_right (fun a b => a +:+ LF +:+ b) EmptyString l.

(** The cue sheet of the three-track scenario. *)
Definition sheet3 : string :=
  unlines
    ["FILE " +:+ quoted "album.wav" +:+ " WAVE";
     "  TRACK 01 AUDIO";
     "    INDEX 01 00:00:00";
     "  TRACK 02 AUDIO";
     "    INDEX 01 03:30:00";
     "  TRACK 03 AUDIO";
     "    INDEX 01 07:12:50"].

(** A cue sheet whose second track starts before its first. *)
Definition sheetBackwards : string :=
  unlines
    ["FILE " +:+ quoted "album.wav" +:+ " WAVE";
     "  TRACK 01 AUDIO";
     "    INDEX 01 05:00:00";
     "  TRACK 02 AUDIO";
     "    INDEX 01 03:00:00"].

(** A cue sheet with no FILE line and a timestamp that is not MM:SS:FF. *)
Definition sheetNoFile : string :=
  unlines
    ["  TRACK 01 AUDIO";
     "    TITLE " +:+ quoted "One";
     "    INDEX 01 1:2:3"].

(** A file system for the examples: every cue path holds [content], every
    file exists, paths are joined with a slash. *)
Definition demoRead (content : string) : string -> result string string :=
  fun _ => Ok content.
Definition demoExists : string -> bool := fun _ => false.
Definition demoDir : string -> string := fun _ => "/download/album".
Definition demoJoin (a b : string) : string := a +:+ "/" +:+ b.
Definition demoConvert : string -> string := fun s => s.
Definition demoAlbum : Album.t :=
  Album.mk "/download/album" "Main" "Title" "1999" "" [] "".

Definition demoProcess (content : string) : result error Disc.t :=
  processCueFile (demoRead content) demoConvert demoExists demoDir demoJoin
    "/download/album/album.cue" demoAlbum 1.

(** A line that starts a track: the FILE pattern does not match it and
    the TRACK pattern does. *)
Definition isTrackLine (text : string) : bool :=
  match FindStringSubmatch fileRegex (TrimSpace text) with
  | _ :: _ :: _ => false
  | _ =>
      match FindStringSubmatch trackRegex (TrimSpace text) with
      | _ :: _ :: _ => true
      | _ => false
      end
  end.

Definition isFileLine (text : string) : bool :=
  match FindStringSubmatch fileRegex (TrimSpace text) with
  | _ :: _ :: _ => true
  | _ => false
  end.

(** The disc an example yields (an empty disc if it yields none). *)
Definition demoDisc (content : string) : Disc.t :=
  match demoProcess content with
  | Ok disc => disc
  | Err _ => Disc.mk 0 "" "" []
  end.

Fixpoint all_bytes (p : ascii -> bool) (s : string) : bool :=
  match s with
  | EmptyString => true
  | String c s' => p c && all_bytes p s'
  end.

(** What a pattern can match, and the groups it records: [Matches r x cs cs']
    says that [r] matches exactly the text [x], taking the captures from
    [cs] to [cs']. *)
Inductive Matches : re -> string -> caps -> caps -> Prop :=
| MByte p c cs :
    p c = true -> Matches (Byte p) (String c EmptyString) cs cs
| MLit l cs : Matches (Lit l) l cs cs
| MSeq a b x y cs cs1 cs2 :
    Matches a x cs cs1 -> Matches b y cs1 cs2 ->
    Matches (Seq a b) (x +:+ y) cs cs2
| MAltL a b x cs cs' : Matches a x cs cs' -> Matches (Alt a b) x cs cs'
| MAltR a b x cs cs' : Matches b x cs cs' -> Matches (Alt a b) x cs cs'
| MPlus p x cs :
    x <> EmptyString -> all_bytes p x = true -> Matches (Plus p) x cs cs
| MGroup i a x cs cs' :
    Matches a x cs cs' -> Matches (Group i a) x cs ((i, x) :: cs').

(** The cue track of the guest-performer scenario as the spec gives it
    (no space before the parenthesis), and with a space. *)
Definition guestTitle : string := "Song（与Guest合唱）".
Definition guestTitleSpaced : string := "Song （与Guest合唱）".

(** The track of the scenario as [processCueFile] builds it from a cue
    track with the given title, for album artist Main. *)
Definition demoGuestTrack (title : string) : Track.t :=
  let cueTrack := Track.set_Title title (Track.new 1) in
  buildTrack demoConvert demoAlbum [cueTrack] 0 cueTrack.

(** *** Stability: what the properties speak about *)

(** The entries before [entry] do not end the loop over the directory:
    none of them is a file whose [Info] fails with an error other than
    not-exist. *)
Definition noBreak (pre : list DirEntry) : Prop :=
  Forall (fun e => IsDir e = true \/ Info e <> InfoError) pre.

(** The poll over [entries] observes file [f] as new or changed with
    respect to [prev], the states of the poll before. *)
Definition observedChange (join : string -> string -> string)
    (relevant : string -> string -> bool) (dir : string)
    (prev : gmap string fileInfo) (entries : list DirEntry) (f : string)
    : Prop :=
  exists pre entry post info,
    entries = (pre ++ entry :: post)%list
    /\ noBreak pre
    /\ IsDir entry = false
    /\ Info entry = InfoOk info
    /\ join dir (Name entry) = f
    /\ relevant f (Name entry) = true
    /\ match prev !! f with
       | Some old => fileInfo_differs old info = true
       | None => True
       end.

(** The clock does not run backwards from one poll to the next. *)
Fixpoint clockFrom (t : Time) (polls : list Poll) : Prop :=
  match polls with
  | [] => True
  | p :: rest => t <= checkTime p /\ clockFrom (checkTime p) rest
  end.

Definition seconds (n : Z) : Duration := n * 1000000000.

(** Example observations: a file seen once and gone at the next poll, and
    a listing that fails once. *)
Definition aWav : DirEntry :=
  mkDirEntry "a.wav" false (InfoOk (mkFileInfo 1024 0)).

Definition pollsVanish : list Poll :=
  [mkPoll 0 0 (Ok [aWav]);
   mkPoll (seconds 5) (seconds 5) (Ok [])].

Definition pollsListError : list Poll :=
  [mkPoll 0 0 (Err "permission denied");
   mkPoll (seconds 5) (seconds 5) (Ok [])].

(** A file that stays as it is, polled every five seconds. *)
Definition pollsSteady (n : nat) : list Poll :=
  map (fun k => mkPoll (seconds (5 * Z.of_nat k)) (seconds (5 * Z.of_nat k))
                  (Ok [aWav]))
      (seq 0 n).

Definition demoDir_album : string := "/download/album".
Definition aWavPath : string := "/download/album/a.wav".

(** The second and later polls of [pollsSteady]. *)
Definition pollsSteadyTail (n : nat) : list Poll := tail (pollsSteady n).

(** *** Scheduler: what the properties speak about *)

(** The album [ProcessAlbum] receives: main.go hands over the scanned
    album, pkg/scheduler the album with its tracks enriched. *)
Definition handedOver (prog : Program) (w : World) (album : Album.t)
    : Album.t :=
  match prog with
  | MainGo => album
  | PkgScheduler => albumTracks (FetchMetadataAndUpdateTrack w) album
  end.

(** Every timer that will still fire for [dir] is the one [pendingScans]
    records for it. *)
Definition tracked (dir : string) (s : Scheduler) : Prop :=
  forall t tm,
    timers s !! t = Some tm -> timerDir tm = dir -> active tm = true ->
    pendingScans s !! dir = Some t.

(** Example worlds: a directory that is still changing, and a directory
    that is stable and holds the one-disc album of the scenario. *)
Definition demoAlbumWithDisc : Album.t :=
  Album.mk "/download/album" "Main" "Title" "1999" "" [demoDisc sheet3] "".

Definition worldUnstable : World :=
  mkWorld (fun _ => false) false false (fun _ => Ok (Some demoAlbumWithDisc))
          (fun t => t) (fun _ => None).

Definition worldStable : World :=
  mkWorld (fun _ => true) false false (fun _ => Ok (Some demoAlbumWithDisc))
          (fun t => t) (fun _ => None).

Definition worldLedgerDown : World :=
  mkWorld (fun _ => true) true false (fun _ => Ok (Some demoAlbumWithDisc))
          (fun t => t) (fun _ => None).

(** A trigger, the timer firing while the directory is unstable, and one
    more trigger before the re-armed timer fires. *)
Definition stepsRearm : list Step :=
  [StepTrigger demoDir_album; StepFire worldUnstable 0%nat;
   StepTrigger demoDir_album].

Definition isProcessAlbum (e : Event) : bool :=
  match e with
  | EvProcessAlbum _ => true
  | _ => false
  end.
(** *** Cue parser: what the further properties speak about *)

Fixpoint countByte (c : ascii) (s : string) : nat :=
  match s with
  | EmptyString => 0%nat
  | String b s' => ((if byte_eqb b c then 1 else 0) + countByte c s')%nat
  end.

(** The number a TRACK line gives its track. *)
Definition trackNumber (text : string) : Z :=
  match FindStringSubmatch trackRegex (TrimSpace text) with
  | _ :: m1 :: _ => fst (strconv.Atoi m1)
  | _ => 0
  end.

(** The artist of a built track is the album artist, possibly followed by
    a comma and guest names. *)
Definition artistOfAlbum (albumArtist artist : string) : Prop :=
  artist = albumArtist \/ exists names, artist = albumArtist +:+ ", " +:+ names.

(** A cue sheet with album-level lines in front of its first track. *)
Definition sheetPreamble : list string :=
  ["PERFORMER " +:+ quoted "Main";
   "TITLE " +:+ quoted "The Album";
   "INDEX 01 09:09:09";
   "FILE " +:+ quoted "album.wav" +:+ " WAVE"].

Definition sheetBody : list string :=
  ["  TRACK 07 AUDIO";
   "    TITLE " +:+ quoted "One";
   "    INDEX 01 00:02:00";
   "  TRACK 09 AUDIO";
   "    INDEX 01 04:00:00"].

(** *** Detector: what the further properties speak about *)

(** The polling loop of either program. *)
Definition waitLoop (prog : Program) (join : string -> string -> string)
    (relevant : string -> string -> bool) (dir : string)
    (quietDuration maxWait : Duration) (start : Time) (polls : list Poll)
    (ps : pollState) : Verdict :=
  match prog with
  | MainGo =>
      Main_waitLoop join relevant dir quietDuration maxWait start polls ps
  | PkgScheduler =>
      Sched_waitLoop join relevant dir quietDuration maxWait start polls ps
  end.

(** An entry the loop over the entries passes by: a directory, a file that
    is gone when its data is asked for, or a file that is not relevant. *)
Definition passedBy (join : string -> string -> string)
    (relevant : string -> string -> bool) (dir : string) (e : DirEntry)
    : bool :=
  IsDir e ||
  match Info e with
  | InfoOk _ => negb (relevant (join dir (Name e)) (Name e))
  | InfoNotExist => true
  | InfoError => false
  end.

(** A file whose data cannot be read, for another reason than its being
    gone. *)
Definition unreadable (e : DirEntry) : bool :=
  negb (IsDir e) &&
  match Info e with
  | InfoError => true
  | _ => false
  end.

(** Every listing that succeeds holds an unreadable file. *)
Definition keepsFailing (polls : list Poll) : Prop :=
  Forall (fun p => match listing p with
                   | Ok entries => existsb unreadable entries = true
                   | Err _ => True
                   end) polls.

Definition notes : DirEntry :=
  mkDirEntry "notes.md" false (InfoOk (mkFileInfo 10 0)).
Definition subdir : DirEntry := mkDirEntry "CD1" true InfoError.
Definition locked : DirEntry := mkDirEntry "notes.md" false InfoError.

Definition notdot (c : ascii) : bool := negb (byte_eqb c ".").

(** *** Scheduler: the initial scan and the watcher's events *)

(** [initialScan] of main.go and [InitialScan] of pkg/scheduler, the same
    loop: every directory among the entries of the download root that the
    ledger does not report as processed is scheduled.  A failed listing
    schedules nothing. *)
Definition InitialScan (join : string -> string -> string)
    (queryFails : bool) (downloadRoot : string)
    (readDir : result string (list DirEntry)) (s : Scheduler) : Scheduler :=
  match readDir with
  | Err _ => s
  | Ok entries =>
      fold_left
        (fun s entry =>
           if IsDir entry then
             let albumDir := join downloadRoot (Name entry) in
             let '(processed, _) :=
               IsAlbumProcessed queryFails (ledger s) albumDir in
             if negb processed then TriggerScan albumDir s else s
           else s)
        entries s
  end.

(** An event of the watcher: the path it names and whether its operation
    has the Create bit. *)
Record FsEvent : Type := mkFsEvent { evName : string; evCreate : bool }.

(** main.go, the body of the event loop of [startFileWatcher].  The two
    calls of [isDirectory] ask the file system at different moments;
    [isDir1] answers the first and [isDir2] the second. *)
Definition startFileWatcher_event (filepath_Dir : string -> string)
    (isDir1 isDir2 : string -> bool) (queryFails : bool)
    (downloadRoot : string) (event : FsEvent) (s : Scheduler) : Scheduler :=
  let eventDir := filepath_Dir (evName event) in
  if negb (String.eqb eventDir downloadRoot)
     && negb (String.eqb (evName event) downloadRoot)
  then s
  else if evCreate event && String.eqb eventDir downloadRoot
          && isDir1 (evName event)
  then
    let '(processed, _) :=
      IsAlbumProcessed queryFails (ledger s) (evName event) in
    if negb processed then TriggerScan (evName event) s else s
  else
    let albumPathToTrigger :=
      if isDir2 (evName event) then evName event
      else filepath_Dir (evName event) in
    if String.eqb (filepath_Dir albumPathToTrigger) downloadRoot
    then TriggerScan albumPathToTrigger s
    else s.

(** cmd/music/main.go, the body of the event loop. *)
Definition cmd_main_event (filepath_Dir : string -> string)
    (isDir1 isDir2 : string -> bool) (downloadRoot : string)
    (event : FsEvent) (s : Scheduler) : Scheduler :=
  if evCreate event
     && String.eqb (filepath_Dir (evName event)) downloadRoot
     && isDir1 (evName event)
  then TriggerScan (evName event) s
  else
    let albumPathCandidate :=
      if negb (isDir2 (evName event)) then filepath_Dir (evName event)
      else evName event in
    if String.eqb (filepath_Dir albumPathCandidate) downloadRoot
    then TriggerScan albumPathCandidate s
    else s.

(** The event loop of either program. *)
Definition watcher_event (prog : Program) (filepath_Dir : string -> string)
    (isDir1 isDir2 : string -> bool) (queryFails : bool)
    (downloadRoot : string) (event : FsEvent) (s : Scheduler) : Scheduler :=
  match prog with
  | MainGo =>
      startFileWatcher_event filepath_Dir isDir1 isDir2 queryFails
        downloadRoot event s
  | PkgScheduler =>
      cmd_main_event filepath_Dir isDir1 isDir2 downloadRoot event s
  end.

(** The timer [pendingScans] records for a directory was made for it. *)
Definition wellKept (s : Scheduler) : Prop :=
  forall d (t : nat),
    pendingScans s !! d = Some t ->
    exists tm, timers s !! t = Some tm /\ timerDir tm = d.

(** The initial scan schedules [d]: a directory among the entries has the
    path [d], and the ledger does not report it as processed. *)
Definition toSchedule (join : string -> string -> string)
    (queryFails : bool) (downloadRoot : string) (ledger : gset string)
    (entries : list DirEntry) (d : string) : bool :=
  existsb (fun e => IsDir e && String.eqb (join downloadRoot (Name e)) d)
          entries
  && negb (fst (IsAlbumProcessed queryFails ledger d)).

(** A scan of [dir] in world [w] can reach the processor: the directory is
    stable, the ledger does not report it as processed, and the scanner
    returns an album with a disc. *)
Definition reachesProcessor (w : World) (dir : string) (s : Scheduler)
    : bool :=
  stabilityResult w dir
  && negb (fst (IsAlbumProcessed (queryFails w) (ledger s) dir))
  && match ScanAlbumDirectory w dir with
     | Ok (Some album) =>
         match Album.Discs album with [] => false | _ :: _ => true end
     | _ => false
     end.

Definition isOutcome (e : Event) : bool :=
  match e with
  | EvFetchMetadata _ | EvProcessAlbum _ | EvAddProcessedAlbum _ => true
  | _ => false
  end.

Definition rootEntries : list DirEntry :=
  [mkDirEntry "done" true InfoNotExist;
   mkDirEntry "new" true InfoNotExist;
   mkDirEntry "readme.txt" false InfoNotExist].

Definition worldProcessed : World :=
  mkWorld (fun _ => true) false false (fun d => Err (ErrNoTracks d))
          (fun t => t) (fun _ => None).

(** ** util.go and processor.go: cutting and naming the tracks *)

Definition Second : Duration := 1000 * Millisecond.
Definition Minute : Duration := 60 * Second.
Definition Hour : Duration := 60 * Minute.

Definition uint64 (z : Z) : Z := z mod 2 ^ 64.

(** [time.lessThanHalf]: x + x < y, in unsigned arithmetic. *)
Definition lessThanHalf (x y : Duration) : bool :=
  uint64 (uint64 x + uint64 x) <? uint64 y.

(** [Duration.Round]: to the nearest multiple of [m], halfway values away
    from zero; the remainder has the sign of [d]. *)
Definition Duration_Round (d m : Duration) : Duration :=
  if m <=? 0 then d
  else
    let r := Z.rem d m in
    if d <? 0 then
      let r := Int64.wrap (- r) in
      if lessThanHalf r m then Int64.add d r
      else
        let d1 := Int64.add (Int64.sub d m) r in
        if d1 <? d then d1 else Int64.min
    else
      if lessThanHalf r m then Int64.sub d r
      else
        let d1 := Int64.sub (Int64.add d m) r in
        if d <? d1 then d1 else Int64.max.

(** The decimal digits of a number below 2^64, at most twenty. *)
Fixpoint decimal_loop (fuel : nat) (n : Z) (acc : string) : string :=
  match fuel with
  | O => acc
  | S fuel' =>
      let acc := String (digit_char (n mod 10)) acc in
      if n <? 10 then acc else decimal_loop fuel' (n / 10) acc
  end.

Definition FormatUint (n : Z) : string := decimal_loop 20 n EmptyString.

Fixpoint zeros (n : nat) : string :=
  match n with
  | O => EmptyString
  | S n' => String "0" (zeros n')
  end.

(** [fmt.Sprintf] of an integer with the verb d and the flag 0 with a
    width ([width] 0 is the plain verb): the digits are filled with zeros
    up to the width, one less for a negative number, whose sign comes
    first. *)
Definition fmt_d (width : nat) (v : Z) : string :=
  let digits := FormatUint (Z.abs v) in
  let prec := if v <? 0 then (width - 1)%nat else width in
  let padded := zeros (prec - String.length digits) +:+ digits in
  if v <? 0 then String "-" padded else padded.

(** util.go: [formatDurationToFFmpegTime], and the same function of
    pkg/util. *)
Definition formatDurationToFFmpegTime (d : Duration) : string :=
  let d := Duration_Round d Millisecond in
  let h := Int64.div d Hour in
  let d := Int64.sub d (Int64.mul h Hour) in
  let m := Int64.div d Minute in
  let d := Int64.sub d (Int64.mul m Minute) in
  let s := Int64.div d Second in
  let d := Int64.sub d (Int64.mul s Second) in
  let ms := Int64.div d Millisecond in
  fmt_d 2 h +:+ ":" +:+ fmt_d 2 m +:+ ":" +:+ fmt_d 2 s +:+ "."
  +:+ fmt_d 3 ms.

(** processor.go: [addMetadata] appends to the arguments. *)
Definition addMetadata (args : list string) (key value : string)
    : list string :=
  if String.eqb value EmptyString then args
  else (args ++ ["-metadata"; key +:+ "=" +:+ value])%list.

(** processor.go: [buildFFmpegCommand]; the result is the argument list
    given to [exec.Command].  It never returns an error. *)
Definition buildFFmpegCommand (inputFile outputFile : string)
    (track : Track.t) (coverArtPath : string) : list string :=
  let args := ["-y"] in
  let args :=
    (args ++ ["-ss"; formatDurationToFFmpegTime (Track.StartTime track)])%list
  in
  let args :=
    if 0 <? Track.EndTime track
    then (args ++ ["-to"; formatDurationToFFmpegTime (Track.EndTime track)])%list
    else args in
  let args := (args ++ ["-i"; inputFile])%list in
  let args :=
    if negb (String.eqb coverArtPath EmptyString)
    then (args ++ ["-i"; coverArtPath])%list else args in
  let args := (args ++ ["-map"; "0:a"])%list in
  let args :=
    if negb (String.eqb coverArtPath EmptyString)
    then (args ++ ["-map"; "1:v"; "-c:v"; "mjpeg"; "-disposition:v";
                   "attached_pic"; "-vsync"; "0"])%list
    else args in
  let args := (args ++ ["-c:a"; "flac"])%list in
  let args := addMetadata args "title" (Track.Title track) in
  let args := addMetadata args "artist" (Track.Artist track) in
  let args := addMetadata args "album_artist" (Track.AlbumArtist track) in
  let args := addMetadata args "album" (Track.Album track) in
  let args := addMetadata args "date" (Track.Year track) in
  let args := addMetadata args "track" (fmt_d 0 (Track.Number track)) in
  let args :=
    if negb (String.eqb (Track.Lyrics track) EmptyString)
    then addMetadata args "lyrics" (Track.Lyrics track) else args in
  (args ++ [outputFile])%list.

(** [strings.ReplaceAll] for a one-byte [old]. *)
Fixpoint ReplaceAll (s : string) (old : ascii) (new : string) : string :=
  match s with
  | EmptyString => EmptyString
  | String c s' =>
      if byte_eqb c old then new +:+ ReplaceAll s' old new
      else String c (ReplaceAll s' old new)
  end.

(** [strings.Fields]: the pieces between runs of white space.  [cur] holds
    the bytes of the piece being read, last byte first. *)
Definition emit (cur : string) : list string :=
  match cur with
  | EmptyString => []
  | _ => [rev_string cur EmptyString]
  end.

Fixpoint Fields_loop (fuel : nat) (s cur : string) : list string :=
  match fuel with
  | O => emit cur
  | S fuel' =>
      match s with
      | EmptyString => emit cur
      | String c s' =>
          match first_prefix space_encodings s with
          | Some e =>
              (emit cur
               ++ Fields_loop fuel' (drop (String.length e) s) EmptyString)%list
          | None => Fields_loop fuel' s' (String c cur)
          end
      end
  end.

Definition Fields (s : string) : list string :=
  Fields_loop (String.length s) s EmptyString.

(** [strings.Join]. *)
Fixpoint Join (elems : list string) (sep : string) : string :=
  match elems with
  | [] => EmptyString
  | [a] => a
  | a :: rest => a +:+ sep +:+ Join rest sep
  end.

Definition backslash : ascii := ascii_of_nat 92%nat.

(** processor.go: [sanitizeFileName], and [SanitizeFileName] of
    pkg/util. *)
Definition sanitizeFileName (name : string) : string :=
  let name := ReplaceAll name "/" "_" in
  let name := ReplaceAll name backslash "_" in
  let name :=
    fold_left (fun name char => ReplaceAll name char EmptyString)
      [":"%char; "*"%char; "?"%char; dquote; "<"%char; ">"%char; "|"%char]
      name in
  let name := TrimSpace name in
  Join (Fields name) " ".

(** util.go: [sanitizeFilename]; every byte of the class becomes a
    hyphen. *)
Definition unsafe_bytes : list ascii :=
  [backslash; "/"%char; ":"%char; "*"%char; "?"%char; dquote; "<"%char;
   ">"%char; "|"%char].

Definition is_unsafe (c : ascii) : bool := existsb (byte_eqb c) unsafe_bytes.

Fixpoint sanitizeFilename (name : string) : string :=
  match name with
  | EmptyString => EmptyString
  | String c rest =>
      String (if is_unsafe c then "-"%char else c) (sanitizeFilename rest)
  end.

(** ** metadata.go *)

Definition set_OnlineID (v : Z) (t : Track.t) : Track.t :=
  Track.mk (Track.Number t) (Track.Title t) (Track.Artist t)
           (Track.StartTime t) (Track.EndTime t) (Track.Album t)
           (Track.AlbumArtist t) (Track.Year t) v (Track.Lyrics t).

Definition set_Lyrics (v : string) (t : Track.t) : Track.t :=
  Track.mk (Track.Number t) (Track.Title t) (Track.Artist t)
           (Track.StartTime t) (Track.EndTime t) (Track.Album t)
           (Track.AlbumArtist t) (Track.Year t) (Track.OnlineID t) v.

(** What the service answers.  [api_search] gives the ids of the songs found
    for a query, or nothing when the request or the decoding of its answer
    fails; [api_lyric] gives the lyric text for an id, or nothing when the
    request or the decoding fails. *)
Record Netease : Type := mkNetease {
  api_search : string -> option (list Z);
  api_lyric : Z -> option string
}.

Module metadata.

Definition fetchLyrics (api : Netease) (track : Track.t) : Track.t :=
  if Track.OnlineID track =? 0 then track
  else
    match api_lyric api (Track.OnlineID track) with
    | Some text => set_Lyrics text track
    | None => track
    end.

Definition FetchMetadataAndUpdateTrack (api : Netease) (track : Track.t)
    : Track.t :=
  let query := Track.Title track +:+ " " +:+ Track.Artist track in
  match api_search api query with
  | None => track
  | Some [] => track
  | Some (bestMatch :: _) => fetchLyrics api (set_OnlineID bestMatch track)
  end.

End metadata.

(** ** processor.go: ProcessAlbum *)

Inductive processError : Type :=
| ErrAlbumOutputDir (path : string)
| ErrDiscOutputDir (path : string).

(** One run of ffmpeg: its arguments and whether it succeeded. *)
Record Ran : Type := mkRan { ranArgs : list string; ranOk : bool }.

Module processor.

Section Processor.

Variable filepath_Join : string -> string -> string.
(** Whether [os.MkdirAll] fails on a path, and whether ffmpeg succeeds on
    an argument list. *)
Variable MkdirAll_fails : string -> bool.
Variable Run : list string -> bool.
Variable fetch : Track.t -> Track.t.

(** The body of the loop over the tracks.  main.go looks the track up
    online here; pkg/processor leaves that to the scheduler. *)
Definition processTrack (prog : Program) (discOutputDir wavPath : string)
    (coverArt : string) (track : Track.t) : Ran :=
  let track :=
    match prog with
    | MainGo => fetch track
    | PkgScheduler => track
    end in
  let trackFileName :=
    fmt_d 2 (Track.Number track) +:+ " - "
    +:+ sanitizeFileName (Track.Title track) +:+ "." +:+ "flac" in
  let convertedFilePath := filepath_Join discOutputDir trackFileName in
  let cmd := buildFFmpegCommand wavPath convertedFilePath track coverArt in
  mkRan cmd (Run cmd).

(** The loop over the discs; [ran] is what has been run so far. *)
Fixpoint processDiscs (prog : Program) (albumOutputDir : string)
    (several : bool) (coverArt : string) (discs : list Disc.t)
    (ran : list Ran) : list Ran * option processError :=
  match discs with
  | [] => (ran, None)
  | disc :: rest =>
      let discOutputDir :=
        if several
        then filepath_Join albumOutputDir
               ("Disc " +:+ fmt_d 0 (Disc.DiscNumber disc))
        else albumOutputDir in
      if several && MkdirAll_fails discOutputDir
      then (ran, Some (ErrDiscOutputDir discOutputDir))
      else
        processDiscs prog albumOutputDir several coverArt rest
          (ran ++ map (processTrack prog discOutputDir (Disc.WavPath disc)
                         coverArt)
                      (Disc.Tracks disc))
  end.

Definition ProcessAlbum (prog : Program) (album : Album.t)
    (targetDir : string) : list Ran * option processError :=
  let sanitizedArtist := sanitizeFileName (Album.Artist album) in
  let sanitizedAlbumTitle := sanitizeFileName (Album.Title album) in
  let sanitizedAlbumYear := Album.Year album in
  let artistDir := filepath_Join targetDir sanitizedArtist in
  let albumOutputDir :=
    filepath_Join artistDir
      (sanitizedAlbumTitle +:+ " (" +:+ sanitizedAlbumYear +:+ ")") in
  if MkdirAll_fails albumOutputDir
  then ([], Some (ErrAlbumOutputDir albumOutputDir))
  else
    processDiscs prog albumOutputDir
      (1 <? Z.of_nat (length (Album.Discs album)))
      (Album.CoverArt album) (Album.Discs album) [].

End Processor.

End processor.

(** Three decimal digits. *)
Definition fmt3 (n : Z) : string :=
  String (digit_char (n / 100)) (fmt2 (n mod 100)).

(** The text HH:MM:SS.mmm of a number of milliseconds. *)
Definition ffmpegTime (k : Z) : string :=
  fmt2 (k / 3600000) +:+ ":" +:+ fmt2 (k / 60000 mod 60) +:+ ":"
  +:+ fmt2 (k / 1000 mod 60) +:+ "." +:+ fmt3 (k mod 1000).

Fixpoint string_bytes (s : string) : list ascii :=
  match s with
  | EmptyString => []
  | String c s' => c :: string_bytes s'
  end.

(** A start time that is a whole number of milliseconds, from zero to the
    duration of the timestamp 99:99:99. *)
Definition wholeMs (d : Duration) : Prop :=
  exists k, 0 <= k <= 6040320 /\ d = ms k.

(** Every byte of a text satisfies a test. *)
Fixpoint every (P : ascii -> bool) (s : string) : bool :=
  match s with
  | EmptyString => true
  | String c s' => P c && every P s'
  end.

Definition avoids (l : list ascii) (c : ascii) : bool :=
  negb (existsb (byte_eqb c) l).

Definition not_space (c : ascii) : bool := negb (byte_eqb c " ").

(** ** scanner.go: ScanAlbumDirectory *)

(** [\s] of the patterns: tab, line feed, form feed, carriage return and
    space. *)
Definition ws : ascii -> bool :=
  regexp.any_of [ascii_of_nat 9%nat; ascii_of_nat 10%nat; ascii_of_nat 12%nat;
                 ascii_of_nat 13%nat; " "%char].

(** A greedy star of a one-byte class. *)
Definition star (p : ascii -> bool) : re := Alt (Plus p) (Lit EmptyString).

(** (?i)专辑名称：\s*(.+) ; no rune of the literal has another case. *)
Definition reAlbumName : Regexp :=
  MustCompile (seqs [Lit "专辑名称："; star ws; Group 1 (Plus dot)]) 1.

(** (?i)出版日期：\s*(\d{4})年 *)
Definition reDate : Regexp :=
  MustCompile
    (seqs [Lit "出版日期："; star ws;
           Group 1 (seqs [Byte digit; Byte digit; Byte digit; Byte digit]);
           Lit "年"]) 1.

(** ^(.+)《 ; the anchor is applied by [FindStringSubmatch_anchored]. *)
Definition reArtist : Regexp :=
  MustCompile (seqs [Group 1 (Plus dot); Lit "《"]) 1.

(** [FindStringSubmatch] of a pattern that begins with ^ and has no flag
    m: the match starts at the beginning of the text. *)
Definition FindStringSubmatch_anchored (rx : Regexp) (s : string)
    : list string :=
  match matchk (Group 0 (prog rx)) s [] (fun _ c => Some c) with
  | Some cs => map (fun i => cap i cs) (seq 0 (S (numSubexp rx)))
  | None => []
  end.

Definition album_set_Artist (v : string) (a : Album.t) : Album.t :=
  Album.mk (Album.Path a) v (Album.Title a) (Album.Year a)
           (Album.CoverArt a) (Album.Discs a) (Album.InfoContent a).
Definition album_set_Title (v : string) (a : Album.t) : Album.t :=
  Album.mk (Album.Path a) (Album.Artist a) v (Album.Year a)
           (Album.CoverArt a) (Album.Discs a) (Album.InfoContent a).
Definition album_set_Year (v : string) (a : Album.t) : Album.t :=
  Album.mk (Album.Path a) (Album.Artist a) (Album.Title a) v
           (Album.CoverArt a) (Album.Discs a) (Album.InfoContent a).
Definition album_set_CoverArt (v : string) (a : Album.t) : Album.t :=
  Album.mk (Album.Path a) (Album.Artist a) (Album.Title a) (Album.Year a)
           v (Album.Discs a) (Album.InfoContent a).
Definition album_set_Discs (v : list Disc.t) (a : Album.t) : Album.t :=
  Album.mk (Album.Path a) (Album.Artist a) (Album.Title a) (Album.Year a)
           (Album.CoverArt a) v (Album.InfoContent a).
Definition album_set_InfoContent (v : string) (a : Album.t) : Album.t :=
  Album.mk (Album.Path a) (Album.Artist a) (Album.Title a) (Album.Year a)
           (Album.CoverArt a) (Album.Discs a) v.

(** scanner.go: [parseInfoContent]. *)
Definition parseInfoContent (album : Album.t) : Album.t :=
  let content := Album.InfoContent album in
  let album :=
    match FindStringSubmatch reAlbumName content with
    | _ :: m1 :: _ => album_set_Title (TrimSpace m1) album
    | _ => album
    end in
  let album :=
    match FindStringSubmatch reDate content with
    | _ :: m1 :: _ => album_set_Year (TrimSpace m1) album
    | _ => album
    end in
  match FindStringSubmatch_anchored reArtist content with
  | _ :: m1 :: _ => album_set_Artist (TrimSpace m1) album
  | _ => album_set_Artist "Unknown Artist" album
  end.

(** One call of the function given to [filepath.WalkDir]: the path, the
    entry's name and kind, and the error the walk hands over, if any. *)
Record Visit : Type := mkVisit {
  visitPath : string;
  visitName : string;
  visitIsDir : bool;
  visitErr : option string
}.

Module scanner.

Section Scanner.

Variable readTextFileContent : string -> result string string.
Variable TradToSim : string -> string.
Variable statIsNotExist : string -> bool.
Variable filepath_Dir : string -> string.
Variable filepath_Join : string -> string -> string.
(** Whether [os.Stat] succeeds on a path. *)
Variable statOk : string -> bool.
(** The fallback that reads artist, title and year off the directory
    name. *)
Variable parseArtistTitleYearFromDir : string -> string * string * string.
(** The calls [filepath.WalkDir] makes for a root, in order. *)
Variable WalkDir : string -> list Visit.

(** The test of the walk function: a file whose lower-cased name ends in
    .cue, at any depth below the root. *)
Definition isCueVisit (v : Visit) : bool :=
  negb (visitIsDir v) && HasSuffix (ToLower (visitName v)) ".cue".

(** The walk: an error handed over by the walk ends it and is returned;
    a cue file that cannot be processed is passed over and uses up no
    disc number. *)
Fixpoint walkCues (visits : list Visit) (album : Album.t) (discNumber : Z)
    : Album.t * option string :=
  match visits with
  | [] => (album, None)
  | v :: rest =>
      match visitErr v with
      | Some e => (album, Some e)
      | None =>
          if isCueVisit v then
            match processCueFile readTextFileContent TradToSim
                    statIsNotExist filepath_Dir filepath_Join
                    (visitPath v) album discNumber with
            | Err _ => walkCues rest album discNumber
            | Ok disc =>
                walkCues rest
                  (album_set_Discs (Album.Discs album ++ [disc]) album)
                  (Int64.add discNumber 1)
            end
          else walkCues rest album discNumber
      end
  end.

(** The album as it is before the walk. *)
Definition albumHeader (rootPath : string) : Album.t :=
  let album := Album.mk rootPath "" "" "" "" [] "" in
  let infoPath := filepath_Join rootPath "Info.txt" in
  let album :=
    match readTextFileContent infoPath with
    | Ok infoContent =>
        parseInfoContent (album_set_InfoContent infoContent album)
    | Err _ =>
        let '(artist, title, year) :=
          parseArtistTitleYearFromDir (Base rootPath) in
        album_set_Year year (album_set_Title title
                               (album_set_Artist artist album))
    end in
  let album := album_set_Artist (TradToSim (Album.Artist album)) album in
  let album := album_set_Title (TradToSim (Album.Title album)) album in
  let coverPath := filepath_Join rootPath "folder.jpg" in
  if statOk coverPath then album_set_CoverArt coverPath album else album.

(** [ScanAlbumDirectory] returns the album together with the error of the
    walk. *)
Definition ScanAlbumDirectory (rootPath : string)
    : Album.t * option string :=
  walkCues (WalkDir rootPath) (albumHeader rootPath) 1.

(** A cue file from which a disc can be built: it parses, and its audio
    file is not reported missing. *)
Definition cueUsable (cuePath : string) : bool :=
  match parseCueFile readTextFileContent cuePath with
  | Ok cueSheet =>
      negb (statIsNotExist
              (filepath_Join (filepath_Dir cuePath) (WavFile cueSheet)))
  | Err _ => false
  end.

End Scanner.

End scanner.

(** The visits up to the first one that carries an error. *)
Fixpoint walked (visits : list Visit) : list Visit :=
  match visits with
  | [] => []
  | v :: rest =>
      match visitErr v with
      | Some _ => []
      | None => v :: walked rest
      end
  end.

Definition four_digits (s : string) : Prop :=
  exists a b c d,
    s = String a (String b (String c (String d EmptyString)))
    /\ is_digit a = true /\ is_digit b = true /\ is_digit c = true
    /\ is_digit d = true.

(** An album directory for the examples: two cue files, the second of
    which cannot be read, a nested cue file and a cover. *)
Definition demoWalk : list Visit :=
  [mkVisit "/download/album" "album" true None;
   mkVisit "/download/album/CD1.cue" "CD1.cue" false None;
   mkVisit "/download/album/bad.CUE" "bad.CUE" false None;
   mkVisit "/download/album/sub" "sub" true None;
   mkVisit "/download/album/sub/CD2.cue" "CD2.cue" false None;
   mkVisit "/download/album/folder.jpg" "folder.jpg" false None].

Definition demoFiles (path : string) : result string string :=
  if String.eqb path "/download/album/Info.txt"
  then Ok ("Main《Title》" +:+ LF +:+ "专辑名称： Title" +:+ LF
           +:+ "出版日期：1999年" +:+ LF)
  else if String.eqb path "/download/album/bad.CUE" then Err "unreadable"
  else Ok sheet3.

Definition demoScan : Album.t * option string :=
  scanner.ScanAlbumDirectory demoFiles demoConvert demoExists demoDir
    demoJoin (fun _ => true)
    (fun name => ("Unknown Artist", name, EmptyString))
    (fun _ => demoWalk) "/download/album".

(** * Verified properties *)

(** ** Arithmetic and timestamps *)

Lemma Int64_wrap_id z : Int64.in_range z -> Int64.wrap z = z.
Proof.
  unfold Int64.in_range, Int64.min, Int64.max, Int64.wrap. intros H.
  rewrite Z.mod_small; lia.
Qed.

Example parseCueTime_ex1 : parseCueTime "03:30:00" = Ok (ms 210000).
Proof. reflexivity. Qed.

Example parseCueTime_ex2 : parseCueTime "07:12:50" = Ok (ms 432666).
Proof. vm_compute. reflexivity. Qed.

Example parseCueTime_ex3 :
  parseCueTime "07:12" = Err (ErrInvalidTimeFormat "07:12").
Proof. reflexivity. Qed.

Lemma digit_char_cases d :
  0 <= d <= 9 ->
  d = 0 \/ d = 1 \/ d = 2 \/ d = 3 \/ d = 4 \/ d = 5 \/ d = 6 \/ d = 7
  \/ d = 8 \/ d = 9.
Proof. lia. Qed.

Lemma two_digits n :
  0 <= n < 100 -> 0 <= n / 10 <= 9 /\ 0 <= n mod 10 <= 9.
Proof.
  intros Hn. split.
  - split; [apply Z.div_pos; lia |].
    assert (n / 10 < 10) by (apply Z.div_lt_upper_bound; lia). lia.
  - pose proof (Z.mod_pos_bound n 10). lia.
Qed.

Ltac each_digit d H :=
  destruct (digit_char_cases d H)
    as [->|[->|[->|[->|[->|[->|[->|[->|[->| ->]]]]]]]]].

Ltac eval_digit_chars :=
  repeat match goal with
         | |- context [digit_char ?k] =>
             let c := eval vm_compute in (digit_char k) in
             change (digit_char k) with c
         end.

(** [Atoi] on two decimal digits. *)
Lemma Atoi_fmt2 n :
  0 <= n < 100 -> strconv.Atoi (fmt2 n) = (n, None).
Proof.
  intros Hn.
  destruct (two_digits n Hn) as [Hq Hr].
  assert (E : n = 10 * (n / 10) + n mod 10) by (apply Z.div_mod; lia).
  unfold fmt2.
  remember (n / 10) as q eqn:Eq. remember (n mod 10) as r eqn:Er.
  clear Eq Er Hn. subst n.
  each_digit q Hq; each_digit r Hr; vm_compute; reflexivity.
Qed.

Lemma Split_fmt2 n rest :
  0 <= n < 100 ->
  Split (fmt2 n +:+ rest) ":" =
  match Split rest ":" with
  | h :: t => (fmt2 n +:+ h) :: t
  | [] => [fmt2 n]
  end.
Proof.
  intros Hn.
  destruct (two_digits n Hn) as [Hq Hr].
  unfold fmt2.
  each_digit (n / 10) Hq; each_digit (n mod 10) Hr; eval_digit_chars;
    cbv [String.append]; cbn; destruct (Split rest ":"); reflexivity.
Qed.

Lemma Split_cueTimestamp m s f :
  0 <= m < 100 -> 0 <= s < 100 -> 0 <= f < 100 ->
  Split (cueTimestamp m s f) ":" = [fmt2 m; fmt2 s; fmt2 f].
Proof.
  intros Hm Hs Hf. unfold cueTimestamp.
  assert (E : Split (fmt2 f) ":" = [fmt2 f]).
  { replace (fmt2 f) with (fmt2 f +:+ EmptyString) at 1 by reflexivity.
    rewrite Split_fmt2 by assumption. reflexivity. }
  rewrite (Split_fmt2 m) by assumption.
  change (":" +:+ fmt2 s +:+ ":" +:+ fmt2 f)
    with (String ":" (fmt2 s +:+ ":" +:+ fmt2 f)).
  cbn [Split]. change (byte_eqb ":" ":") with true. cbv iota.
  rewrite (Split_fmt2 s) by assumption.
  change (":" +:+ fmt2 f) with (String ":" (fmt2 f)).
  cbn [Split]. change (byte_eqb ":" ":") with true. cbv iota.
  rewrite E. reflexivity.
Qed.

(** C2. The duration of an index-01 timestamp MM:SS:FF is
    minutes*60000 + seconds*1000 + floor(frames*1000/75) milliseconds:
    [parseCueTime] succeeds on every text of that form with that value. *)
Theorem parseCueTime_formula (m s f : Z) :
  0 <= m < 100 -> 0 <= s < 100 -> 0 <= f < 100 ->
  parseCueTime (cueTimestamp m s f)
  = Ok (ms (m * 60000 + s * 1000 + f * 1000 / 75)).
Proof.
  intros Hm Hs Hf. unfold parseCueTime.
  rewrite Split_cueTimestamp by assumption.
  rewrite !Atoi_fmt2 by assumption. cbn [fst].
  assert (Hd : 0 <= f * 1000 / 75 <= 1320).
  { split; [apply Z.div_pos; lia |].
    apply Z.div_le_upper_bound; lia. }
  unfold Int64.add, Int64.mul, Int64.div, ms, Millisecond.
  rewrite (Int64_wrap_id (m * 60)) by (unfold Int64.in_range, Int64.min, Int64.max; lia).
  rewrite (Int64_wrap_id (m * 60 * 1000)) by (unfold Int64.in_range, Int64.min, Int64.max; lia).
  rewrite (Int64_wrap_id (s * 1000)) by (unfold Int64.in_range, Int64.min, Int64.max; lia).
  rewrite (Int64_wrap_id (f * 1000)) by (unfold Int64.in_range, Int64.min, Int64.max; lia).
  rewrite Z.quot_div_nonneg by lia.
  rewrite (Int64_wrap_id (f * 1000 / 75)) by (unfold Int64.in_range, Int64.min, Int64.max; lia).
  rewrite (Int64_wrap_id (m * 60 * 1000 + s * 1000)) by (unfold Int64.in_range, Int64.min, Int64.max; lia).
  rewrite (Int64_wrap_id (m * 60 * 1000 + s * 1000 + f * 1000 / 75)) by (unfold Int64.in_range, Int64.min, Int64.max; lia).
  rewrite Int64_wrap_id by (unfold Int64.in_range, Int64.min, Int64.max; lia).
  f_equal. lia.
Qed.

Lemma parseCueTime_formula_witness :
  parseCueTime "07:12:50" = Ok (ms 432666).
Proof.
  apply (parseCueTime_formula 7 12 50); lia.
Defined.

(** ** The scanning loop of the cue parser *)

Lemma flush_app_current st t :
  currentTrack st = Some t -> flush st <> [].
Proof.
  unfold flush. intros ->. intros E.
  apply (f_equal length) in E. rewrite length_app in E. cbn in E. lia.
Qed.

Ltac flush_nonempty :=
  let E := fresh "E" in
  intros E; exfalso; revert E;
  eapply flush_app_current; first [eassumption | reflexivity].

Lemma parseLine_flush st text :
  flush (parseLine st text) = []
  <-> flush st = [] /\ isTrackLine text = false.
Proof.
  unfold parseLine, isTrackLine.
  destruct (FindStringSubmatch fileRegex (TrimSpace text))
    as [|w [|m1 rest]].
  3: { unfold flush; cbn.
       split; [intros E; split; [exact E | reflexivity] | intros [E _]; exact E]. }
  all: destruct (FindStringSubmatch trackRegex (TrimSpace text))
         as [|w' [|m1' rest']].
  3,6: split; [flush_nonempty | intros [_ E]; discriminate].
  all: destruct (currentTrack st) as [t|] eqn:Hcur.
  2,4,6,8: split; [intros E; split; [exact E | reflexivity]
                  | intros [E _]; exact E].
  all: destruct (FindStringSubmatch titleRegex (TrimSpace text))
         as [|? [|? ?]];
       try destruct (FindStringSubmatch indexRegex (TrimSpace text))
         as [|? [|? ?]].
  all: split; [flush_nonempty | intros [E _]; revert E; flush_nonempty].
Qed.

Lemma fold_parseLine_flush tokens st :
  flush (fold_left parseLine tokens st) = []
  <-> flush st = [] /\ existsb isTrackLine tokens = false.
Proof.
  revert st. induction tokens as [|text tokens IH]; intros st; cbn.
  - tauto.
  - rewrite IH, parseLine_flush, orb_false_iff. tauto.
Qed.

Lemma parseLine_WavFile st text :
  isFileLine text = false ->
  WavFile (cue (parseLine st text)) = WavFile (cue st).
Proof.
  unfold parseLine, isFileLine.
  destruct (FindStringSubmatch fileRegex (TrimSpace text))
    as [|w [|m1 rest]]; try discriminate; intros _.
  all: destruct (FindStringSubmatch trackRegex (TrimSpace text))
         as [|? [|? ?]]; try reflexivity.
  all: destruct (currentTrack st); try reflexivity.
  all: destruct (FindStringSubmatch titleRegex (TrimSpace text))
         as [|? [|? ?]]; try reflexivity.
  all: destruct (FindStringSubmatch indexRegex (TrimSpace text))
         as [|? [|? ?]]; reflexivity.
Qed.

Lemma fold_parseLine_WavFile tokens st :
  existsb isFileLine tokens = false ->
  WavFile (cue (fold_left parseLine tokens st)) = WavFile (cue st).
Proof.
  revert st. induction tokens as [|text tokens IH]; intros st; cbn.
  - reflexivity.
  - rewrite orb_false_iff. intros [H1 H2].
    rewrite IH by exact H2. apply parseLine_WavFile, H1.
Qed.

(** The scanner fails only on a line of 65536 bytes or more. *)
Lemma scan_error raws toks e :
  bufio.scan raws = (toks, Some e) ->
  e = ErrTooLong
  /\ exists raw, In raw raws
       /\ (bufio.MaxScanTokenSize <= N.of_nat (String.length raw))%N.
Proof.
  revert toks. induction raws as [|raw raws IH]; intros toks; cbn.
  - discriminate.
  - destruct (N.leb_spec bufio.MaxScanTokenSize (N.of_nat (String.length raw))).
    + intros [= <- <-]. split; [reflexivity |]. exists raw. auto.
    + destruct (bufio.scan raws) as [toks' e'] eqn:Hs.
      intros [= <- ->]. destruct (IH _ eq_refl) as [-> (r & Hin & Hr)].
      split; [reflexivity |]. exists r. auto.
Qed.

(** ** The tracks of a disc *)

Section ParserFacts.

Variable readTextFileContent : string -> result string string.
Variable TradToSim : string -> string.
Variable statIsNotExist : string -> bool.
Variable filepath_Dir : string -> string.
Variable filepath_Join : string -> string -> string.

Lemma splitGuest_times albumArtist track :
  Track.StartTime (splitGuest TradToSim albumArtist track)
  = Track.StartTime track
  /\ Track.EndTime (splitGuest TradToSim albumArtist track)
     = Track.EndTime track
  /\ Track.Number (splitGuest TradToSim albumArtist track)
     = Track.Number track.
Proof.
  unfold splitGuest.
  destruct (_ || _); [| auto].
  destruct (FindStringSubmatch reFt (Track.Title track)) as [|? [|? [|? ?]]];
    auto.
Qed.

Lemma buildTrack_StartTime album cueTracks i cueTrack :
  Track.StartTime (buildTrack TradToSim album cueTracks i cueTrack)
  = Track.StartTime cueTrack.
Proof.
  unfold buildTrack.
  destruct (cueTracks !! (i + 1)%nat); cbn;
    rewrite (proj1 (splitGuest_times _ _)); reflexivity.
Qed.

Lemma buildTrack_Number album cueTracks i cueTrack :
  Track.Number (buildTrack TradToSim album cueTracks i cueTrack)
  = Track.Number cueTrack.
Proof.
  unfold buildTrack.
  destruct (cueTracks !! (i + 1)%nat); cbn;
    rewrite (proj2 (proj2 (splitGuest_times _ _))); reflexivity.
Qed.

Lemma buildTrack_EndTime album cueTracks i cueTrack :
  Track.EndTime (buildTrack TradToSim album cueTracks i cueTrack)
  = match cueTracks !! (i + 1)%nat with
    | Some next => Track.StartTime next
    | None => 0
    end.
Proof.
  unfold buildTrack.
  destruct (cueTracks !! (i + 1)%nat); cbn; [reflexivity |].
  rewrite (proj1 (proj2 (splitGuest_times _ _))). reflexivity.
Qed.

Lemma processCueFile_inv cuePath album discNumber disc :
  processCueFile readTextFileContent TradToSim statIsNotExist filepath_Dir
    filepath_Join cuePath album discNumber = Ok disc ->
  exists cueSheet,
    parseCueFile readTextFileContent cuePath = Ok cueSheet
    /\ Disc.Tracks disc
       = imap (buildTrack TradToSim album (Tracks cueSheet)) (Tracks cueSheet)
    /\ Disc.WavPath disc
       = filepath_Join (filepath_Dir cuePath) (WavFile cueSheet)
    /\ statIsNotExist (Disc.WavPath disc) = false.
Proof.
  unfold processCueFile.
  destruct (parseCueFile readTextFileContent cuePath) as [cueSheet|e];
    [| discriminate].
  destruct (statIsNotExist _) eqn:Hstat; [discriminate |].
  intros [= <-]. exists cueSheet. cbn. auto.
Qed.

Lemma parseCueFile_nonempty cuePath cueSheet :
  parseCueFile readTextFileContent cuePath = Ok cueSheet ->
  Tracks cueSheet <> [].
Proof.
  unfold parseCueFile.
  destruct (readTextFileContent cuePath) as [content|]; [| discriminate].
  destruct (bufio.Scanner content) as [tokens [e|]]; [discriminate |].
  destruct (flush _) eqn:Hf; [discriminate |].
  intros [= <-]. cbn. discriminate.
Qed.

(** C1 (amended). On every disc built from a cue sheet the end offset of a
    track is the start offset of the track after it, the end offset of the
    last track is zero, and the start offsets are those of the cue sheet in
    the order of the sheet: they are as monotone as the sheet is, no
    more. *)
Theorem disc_track_boundaries cuePath album discNumber disc :
  processCueFile readTextFileContent TradToSim statIsNotExist filepath_Dir
    filepath_Join cuePath album discNumber = Ok disc ->
  exists cueSheet,
    parseCueFile readTextFileContent cuePath = Ok cueSheet
    /\ Disc.Tracks disc <> []
    /\ map Track.StartTime (Disc.Tracks disc)
       = map Track.StartTime (Tracks cueSheet)
    /\ (forall (i : nat) t t',
          Disc.Tracks disc !! i = Some t ->
          Disc.Tracks disc !! S i = Some t' ->
          Track.EndTime t = Track.StartTime t')
    /\ (forall t, last (Disc.Tracks disc) = Some t -> Track.EndTime t = 0).
Proof.
  intros Hp.
  destruct (processCueFile_inv _ _ _ _ Hp) as (cueSheet & Hparse & Htr & _).
  exists cueSheet. split; [exact Hparse |].
  pose proof (parseCueFile_nonempty _ _ Hparse) as Hne.
  rewrite Htr. repeat split.
  - intros E. apply Hne.
    apply (f_equal length) in E. rewrite length_imap in E.
    destruct (Tracks cueSheet); [reflexivity | discriminate].
  - apply list_eq. intros i.
    rewrite !list_lookup_fmap, list_lookup_imap.
    destruct (Tracks cueSheet !! i); cbn; [| reflexivity].
    rewrite buildTrack_StartTime. reflexivity.
  - intros i t t'. rewrite !list_lookup_imap.
    destruct (Tracks cueSheet !! i) as [c|] eqn:Hi; [| discriminate].
    destruct (Tracks cueSheet !! S i) as [c'|] eqn:Hi'; [| discriminate].
    cbn. intros [= <-] [= <-].
    rewrite buildTrack_EndTime, buildTrack_StartTime.
    replace (i + 1)%nat with (S i) by lia. rewrite Hi'. reflexivity.
  - intros t. rewrite last_lookup, length_imap, list_lookup_imap.
    destruct (Tracks cueSheet !! Nat.pred (length (Tracks cueSheet)))
      as [c|] eqn:Hl; [| discriminate].
    cbn. intros [= <-]. rewrite buildTrack_EndTime.
    destruct (Tracks cueSheet !! (Nat.pred (length (Tracks cueSheet)) + 1)%nat)
      eqn:Hn; [| reflexivity].
    apply lookup_lt_Some in Hn. apply lookup_lt_Some in Hl. lia.
Qed.

(** C3 (amended). The sheet with FILE album.wav and three tracks indexed
    at 00:00:00, 03:30:00 and 07:12:50 yields three tracks that start at
    0 ms, 210000 ms and 432666 ms (50 frames are 666 whole milliseconds);
    the first ends at 210000 ms, the second at 432666 ms, and the end of the
    third is unset. *)
Theorem three_track_scenario cuePath album discNumber :
  readTextFileContent cuePath = Ok sheet3 ->
  statIsNotExist (filepath_Join (filepath_Dir cuePath) "album.wav") = false ->
  exists disc,
    processCueFile readTextFileContent TradToSim statIsNotExist filepath_Dir
      filepath_Join cuePath album discNumber = Ok disc
    /\ Disc.WavPath disc = filepath_Join (filepath_Dir cuePath) "album.wav"
    /\ map Track.Number (Disc.Tracks disc) = [1; 2; 3]
    /\ map Track.StartTime (Disc.Tracks disc)
       = [ms 0; ms 210000; ms 432666]
    /\ map Track.EndTime (Disc.Tracks disc) = [ms 210000; ms 432666; 0].
Proof.
  intros Hread Hstat.
  assert (Hparse : parseCueFile readTextFileContent cuePath
                   = Ok (mkCueSheet "album.wav"
                           [Track.set_StartTime (ms 0) (Track.new 1);
                            Track.set_StartTime (ms 210000) (Track.new 2);
                            Track.set_StartTime (ms 432666) (Track.new 3)])).
  { unfold parseCueFile. rewrite Hread. vm_compute. reflexivity. }
  unfold processCueFile. rewrite Hparse. cbn [WavFile Tracks].
  rewrite Hstat. eexists. split; [reflexivity |].
  cbn [Disc.WavPath Disc.Tracks imap map]. unfold compose.
  split; [reflexivity |].
  rewrite !buildTrack_Number, !buildTrack_StartTime, !buildTrack_EndTime.
  repeat split; reflexivity.
Qed.

(** *** When the cue parser fails *)

(** C4 (amended). The cue parser returns a cue sheet or an error, and it
    returns an error in exactly three cases: the file cannot be read, a line
    does not fit the scanner, or no line starts a track.  A sheet without a
    FILE line is parsed, with an empty audio file name; no timestamp makes
    the parser fail. *)
Theorem parseCueFile_outcome cuePath :
  match readTextFileContent cuePath with
  | Err cause =>
      parseCueFile readTextFileContent cuePath = Err (ErrReadCue cause)
  | Ok content =>
      match bufio.Scanner content with
      | (_, Some e) =>
          parseCueFile readTextFileContent cuePath = Err e /\ e = ErrTooLong
      | (tokens, None) =>
          if existsb isTrackLine tokens then
            exists cueSheet,
              parseCueFile readTextFileContent cuePath = Ok cueSheet
              /\ Tracks cueSheet <> []
              /\ (existsb isFileLine tokens = false ->
                  WavFile cueSheet = EmptyString)
          else
            parseCueFile readTextFileContent cuePath
            = Err (ErrNoTracks cuePath)
      end
  end.
Proof using readTextFileContent.
  unfold parseCueFile.
  destruct (readTextFileContent cuePath) as [content|cause]; [| reflexivity].
  destruct (bufio.Scanner content) as [tokens [e|]] eqn:Hscan.
  - split; [reflexivity |].
    unfold bufio.Scanner in Hscan. apply scan_error in Hscan.
    exact (proj1 Hscan).
  - pose proof (fold_parseLine_flush tokens parseInit) as Hfl.
    destruct (existsb isTrackLine tokens) eqn:Htr.
    + destruct (flush (fold_left parseLine tokens parseInit)) eqn:Hf.
      * exfalso. destruct Hfl as [Hfl _].
        destruct (Hfl eq_refl) as [_ ?]. discriminate.
      * eexists. split; [reflexivity |]. cbn [Tracks WavFile].
        split; [discriminate |].
        intros Hnf. rewrite fold_parseLine_WavFile by exact Hnf. reflexivity.
    + destruct Hfl as [_ Hfl]. rewrite Hfl by (split; reflexivity).
      reflexivity.
Qed.

End ParserFacts.

Lemma disc_track_boundaries_witness :
  demoProcess sheet3 = Ok (demoDisc sheet3)
  /\ exists cueSheet,
       parseCueFile (demoRead sheet3) "/download/album/album.cue"
       = Ok cueSheet
       /\ Disc.Tracks (demoDisc sheet3) <> []
       /\ map Track.StartTime (Disc.Tracks (demoDisc sheet3))
          = map Track.StartTime (Tracks cueSheet)
       /\ (forall (i : nat) t t',
             Disc.Tracks (demoDisc sheet3) !! i = Some t ->
             Disc.Tracks (demoDisc sheet3) !! S i = Some t' ->
             Track.EndTime t = Track.StartTime t')
       /\ (forall t,
             last (Disc.Tracks (demoDisc sheet3)) = Some t ->
             Track.EndTime t = 0).
Proof.
  split; [vm_compute; reflexivity |].
  apply (disc_track_boundaries (demoRead sheet3) demoConvert demoExists
           demoDir demoJoin "/download/album/album.cue" demoAlbum 1).
  vm_compute; reflexivity.
Defined.

(** C1 as stated fails: the start offsets of a disc need not be
    non-decreasing.  On a sheet whose second track is indexed before its
    first, the second track of the disc starts earlier than the first. *)
Lemma disc_starts_not_monotone :
  exists disc t1 t2,
    demoProcess sheetBackwards = Ok disc
    /\ Disc.Tracks disc = [t1; t2]
    /\ Track.StartTime t1 = ms 300000
    /\ Track.StartTime t2 = ms 180000
    /\ ~ (Track.StartTime t1 <= Track.StartTime t2).
Proof.
  eexists _, _, _. split; [vm_compute; reflexivity |].
  split; [reflexivity |]. cbn. repeat split; try reflexivity.
  unfold ms, Millisecond. lia.
Qed.

(** C3 as stated fails: the third track starts at 432666 ms, not 432667 ms,
    and the second track ends there. *)
Lemma three_track_scenario_not_432667 :
  demoProcess sheet3 = Ok (demoDisc sheet3)
  /\ map Track.StartTime (Disc.Tracks (demoDisc sheet3))
     = [ms 0; ms 210000; ms 432666]
  /\ map Track.EndTime (Disc.Tracks (demoDisc sheet3))
     = [ms 210000; ms 432666; 0]
  /\ map Track.StartTime (Disc.Tracks (demoDisc sheet3))
     <> [ms 0; ms 210000; ms 432667]
  /\ map Track.EndTime (Disc.Tracks (demoDisc sheet3))
     <> [ms 210000; ms 432667; 0].
Proof.
  repeat split; try (vm_compute; reflexivity); vm_compute; discriminate.
Qed.

Lemma three_track_scenario_witness :
  demoRead sheet3 "/download/album/album.cue" = Ok sheet3
  /\ demoExists (demoJoin (demoDir "/download/album/album.cue") "album.wav")
     = false
  /\ exists disc,
       demoProcess sheet3 = Ok disc
       /\ Disc.WavPath disc
          = demoJoin (demoDir "/download/album/album.cue") "album.wav"
       /\ map Track.Number (Disc.Tracks disc) = [1; 2; 3]
       /\ map Track.StartTime (Disc.Tracks disc)
          = [ms 0; ms 210000; ms 432666]
       /\ map Track.EndTime (Disc.Tracks disc) = [ms 210000; ms 432666; 0].
Proof.
  split; [reflexivity |]. split; [reflexivity |].
  apply (three_track_scenario (demoRead sheet3) demoConvert demoExists
           demoDir demoJoin "/download/album/album.cue" demoAlbum 1);
    reflexivity.
Defined.

Lemma parseCueFile_outcome_witness :
  existsb isTrackLine (fst (bufio.Scanner sheetNoFile)) = true
  /\ existsb isFileLine (fst (bufio.Scanner sheetNoFile)) = false
  /\ exists cueSheet,
       parseCueFile (demoRead sheetNoFile) "/download/album/album.cue"
       = Ok cueSheet
       /\ Tracks cueSheet <> []
       /\ WavFile cueSheet = EmptyString.
Proof.
  assert (Htr : existsb isTrackLine (fst (bufio.Scanner sheetNoFile)) = true)
    by (vm_compute; reflexivity).
  assert (Hnf : existsb isFileLine (fst (bufio.Scanner sheetNoFile)) = false)
    by (vm_compute; reflexivity).
  assert (Herr : snd (bufio.Scanner sheetNoFile) = None)
    by (vm_compute; reflexivity).
  split; [exact Htr |]. split; [exact Hnf |].
  pose proof (parseCueFile_outcome (demoRead sheetNoFile)
                "/download/album/album.cue") as H.
  change (demoRead sheetNoFile "/download/album/album.cue")
    with (@Ok string string sheetNoFile) in H.
  cbv beta iota in H.
  destruct (bufio.Scanner sheetNoFile) as [tokens scanErr].
  cbn [fst snd] in Htr, Hnf, Herr. subst scanErr. rewrite Htr in H.
  destruct H as (cueSheet & H1 & H2 & H3).
  exists cueSheet. split; [exact H1 |]. split; [exact H2 | exact (H3 Hnf)].
Defined.

(** C4 as stated fails: a sheet with no FILE line and with a timestamp that
    is not MM:SS:FF is parsed without error; the audio file name is empty
    and the track starts at zero. *)
Lemma parseCueFile_accepts_missing_file :
  existsb isFileLine (fst (bufio.Scanner sheetNoFile)) = false
  /\ parseCueFile (demoRead sheetNoFile) "/download/album/album.cue"
     = Ok (mkCueSheet EmptyString
             [Track.set_Title "One" (Track.new 1)])
  /\ Track.StartTime (Track.set_Title "One" (Track.new 1)) = 0.
Proof.
  repeat split; vm_compute; reflexivity.
Qed.

(** ** Soundness of the matcher *)

Lemma append_assoc (a b c : string) : (a +:+ b) +:+ c = a +:+ (b +:+ c).
Proof.
  induction a as [|x a IH]; cbv [String.append]; fold String.append.
  - reflexivity.
  - f_equal. exact IH.
Qed.

Lemma append_cons c (a b : string) : String c a +:+ b = String c (a +:+ b).
Proof. reflexivity. Qed.

Lemma append_nil_l (a : string) : EmptyString +:+ a = a.
Proof. reflexivity. Qed.

Lemma length_append (a b : string) :
  String.length (a +:+ b) = (String.length a + String.length b)%nat.
Proof.
  induction a as [|x a IH]; [reflexivity |].
  rewrite append_cons. cbn [String.length]. rewrite IH. reflexivity.
Qed.

Lemma take_append (a b : string) :
  take (String.length (a +:+ b) - String.length b) (a +:+ b) = a.
Proof.
  rewrite length_append.
  replace (String.length a + String.length b - String.length b)%nat
    with (String.length a) by lia.
  induction a as [|x a IH].
  - rewrite append_nil_l. destruct b; reflexivity.
  - rewrite append_cons. cbn [String.length take]. f_equal. exact IH.
Qed.

Lemma byte_eqb_eq a b : byte_eqb a b = true -> a = b.
Proof. unfold byte_eqb. apply Ascii.eqb_eq. Qed.

Lemma HasPrefix_split s p :
  HasPrefix s p = true -> s = p +:+ drop (String.length p) s.
Proof.
  revert s. induction p as [|a p IH]; intros s.
  - destruct s; reflexivity.
  - destruct s as [|b s]; cbn; [discriminate |].
    rewrite andb_true_iff. intros [Hab Hp].
    apply byte_eqb_eq in Hab. subst b.
    rewrite append_cons. f_equal. apply IH, Hp.
Qed.

Lemma plus_loop_sound {A} p s (k : string -> option A) res :
  plus_loop p s k = Some res ->
  exists x rest,
    s = x +:+ rest /\ x <> EmptyString /\ all_bytes p x = true
    /\ k rest = Some res.
Proof.
  revert res. induction s as [|c s IH]; intros res; cbn; [discriminate |].
  destruct (p c) eqn:Hc; [| discriminate].
  destruct (plus_loop p s k) as [r|] eqn:Hl.
  - intros [= ->]. destruct (IH _ eq_refl) as (x & rest & -> & _ & Hall & Hk).
    exists (String c x), rest. rewrite append_cons. cbn. rewrite Hc.
    repeat split; auto; discriminate.
  - intros Hk. exists (String c EmptyString), s. cbn. rewrite Hc.
    repeat split; auto; discriminate.
Qed.

Lemma matchk_sound r : forall s cs k res,
  matchk r s cs k = Some res ->
  exists x rest cs',
    s = x +:+ rest /\ Matches r x cs cs' /\ k rest cs' = Some res.
Proof.
  induction r as [p|l|a IHa b IHb|a IHa b IHb|p|i a IHa];
    intros s cs k res; cbn [matchk].
  - destruct s as [|c s]; [discriminate |].
    destruct (p c) eqn:Hc; [| discriminate]. intros Hk.
    exists (String c EmptyString), s, cs. repeat split; auto.
    constructor. exact Hc.
  - destruct (HasPrefix s l) eqn:Hp; [| discriminate]. intros Hk.
    exists l, (drop (String.length l) s), cs.
    split; [apply HasPrefix_split, Hp |]. split; [constructor | exact Hk].
  - intros H. apply IHa in H. destruct H as (x & rest & cs1 & -> & Ha & H).
    apply IHb in H. destruct H as (y & rest' & cs2 & -> & Hb & H).
    exists (x +:+ y), rest', cs2. rewrite append_assoc.
    split; [reflexivity |]. split; [econstructor; eassumption | exact H].
  - destruct (matchk a s cs k) as [r|] eqn:Ha.
    + intros [= ->]. apply IHa in Ha.
      destruct Ha as (x & rest & cs' & -> & Ha & H).
      exists x, rest, cs'. split; [reflexivity |].
      split; [apply MAltL, Ha | exact H].
    + intros H. apply IHb in H.
      destruct H as (x & rest & cs' & -> & Hb & H).
      exists x, rest, cs'. split; [reflexivity |].
      split; [apply MAltR, Hb | exact H].
  - intros H. apply plus_loop_sound in H.
    destruct H as (x & rest & -> & Hne & Hall & H).
    exists x, rest, cs. split; [reflexivity |].
    split; [constructor; assumption | exact H].
  - intros H. apply IHa in H. destruct H as (x & rest & cs' & -> & Ha & H).
    rewrite take_append in H.
    exists x, rest, ((i, x) :: cs'). split; [reflexivity |].
    split; [constructor; exact Ha | exact H].
Qed.

Lemma search_sound r s cs :
  search r s = Some cs ->
  exists before x after,
    s = before +:+ x +:+ after /\ Matches (Group 0 r) x [] cs.
Proof.
  induction s as [|c s IH]; cbn [search].
  - destruct (matchk _ _ _ _) as [res|] eqn:Hm; [| discriminate].
    intros [= ->]. apply matchk_sound in Hm.
    destruct Hm as (x & rest & cs' & -> & Hx & [= ->]).
    exists EmptyString, x, rest. auto.
  - destruct (matchk _ _ _ _) as [res|] eqn:Hm.
    + intros [= ->]. apply matchk_sound in Hm.
      destruct Hm as (x & rest & cs' & E & Hx & [= ->]).
      exists EmptyString, x, rest. auto.
    + intros H. apply IH in H. destruct H as (before & x & after & -> & Hx).
      exists (String c before), x, after. auto.
Qed.

Lemma FindStringSubmatch_sound rx s :
  FindStringSubmatch rx s <> [] ->
  exists cs before x after,
    s = before +:+ x +:+ after
    /\ Matches (Group 0 (prog rx)) x [] cs
    /\ FindStringSubmatch rx s
       = map (fun i => cap i cs) (seq 0 (S (numSubexp rx))).
Proof.
  unfold FindStringSubmatch.
  destruct (search (prog rx) s) as [cs|] eqn:Hs; [| congruence].
  intros _. apply search_sound in Hs.
  destruct Hs as (before & x & after & E & Hx).
  exists cs, before, x, after. auto.
Qed.

(** Inversion of [Matches] on a pattern that is written out. *)
Ltac inv_matches :=
  repeat match goal with
         | H : Matches (Group _ _) _ _ _ |- _ => inversion H; subst; clear H
         | H : Matches (Seq _ _) _ _ _ |- _ => inversion H; subst; clear H
         | H : Matches (Alt _ _) _ _ _ |- _ => inversion H; subst; clear H
         | H : Matches (Lit _) _ _ _ |- _ => inversion H; subst; clear H
         | H : Matches (Plus _) _ _ _ |- _ => inversion H; subst; clear H
         | H : Matches (Byte _) _ _ _ |- _ => inversion H; subst; clear H
         end.

(** ** The INDEX pattern only captures timestamps of the form MM:SS:FF *)

Lemma is_digit_char c :
  is_digit c = true -> exists d, 0 <= d <= 9 /\ c = digit_char d.
Proof.
  unfold is_digit, digit_char, byte_val. rewrite andb_true_iff.
  intros [H1 H2]. apply Z.leb_le in H1, H2.
  exists (Z.of_N (N_of_ascii c) - 48). split; [lia |].
  replace (48 + (Z.of_N (N_of_ascii c) - 48)) with (Z.of_N (N_of_ascii c))
    by lia.
  rewrite N2Z.id, ascii_N_embedding. reflexivity.
Qed.

Lemma two_digit_fmt2 a b :
  0 <= a <= 9 -> 0 <= b <= 9 ->
  String (digit_char a) (String (digit_char b) EmptyString)
  = fmt2 (10 * a + b)
  /\ 0 <= 10 * a + b < 100.
Proof.
  intros Ha Hb. split; [| lia]. unfold fmt2.
  replace ((10 * a + b) / 10) with a.
  - replace ((10 * a + b) mod 10) with b; [reflexivity |].
    symmetry. rewrite Z.add_comm, Z.mul_comm, Z_mod_plus_full.
    apply Z.mod_small. lia.
  - symmetry. rewrite Z.add_comm, Z.mul_comm, Z_div_plus_full by lia.
    rewrite Z.div_small by lia. reflexivity.
Qed.

Lemma indexRegex_capture line whole ts rest :
  FindStringSubmatch indexRegex line = whole :: ts :: rest ->
  exists m s f,
    0 <= m < 100 /\ 0 <= s < 100 /\ 0 <= f < 100
    /\ ts = cueTimestamp m s f.
Proof.
  intros Hfind.
  assert (Hne : FindStringSubmatch indexRegex line <> [])
    by (rewrite Hfind; discriminate).
  destruct (FindStringSubmatch_sound _ _ Hne)
    as (cs & before & x & after & _ & Hx & Hmap).
  rewrite Hfind in Hmap. cbn [numSubexp indexRegex seq map] in Hmap.
  injection Hmap as _ Hts _. subst ts. clear Hfind Hne.
  cbv [indexRegex prog seqs fold_case byte_eqb Ascii.eqb Bool.eqb] in Hx.
  inv_matches.
  repeat match goal with
         | H : regexp.digit ?c = true |- _ =>
             apply is_digit_char in H;
             let d := fresh "d" in
             let Hd := fresh "Hd" in
             destruct H as (d & Hd & ->)
         end.
  cbn [cap Nat.eqb].
  match goal with
  | |- context [String (digit_char ?a) EmptyString +:+
                String (digit_char ?b) EmptyString +:+ ":" +:+
                String (digit_char ?c) EmptyString +:+
                String (digit_char ?d) EmptyString +:+ ":" +:+
                String (digit_char ?e) EmptyString +:+
                String (digit_char ?f) EmptyString] =>
      exists (10 * a + b), (10 * c + d), (10 * e + f);
      destruct (two_digit_fmt2 a b) as [E1 B1]; [assumption | assumption |];
      destruct (two_digit_fmt2 c d) as [E2 B2]; [assumption | assumption |];
      destruct (two_digit_fmt2 e f) as [E3 B3]; [assumption | assumption |];
      repeat (split; [assumption |]);
      unfold cueTimestamp; rewrite <- E1, <- E2, <- E3; reflexivity
  end.
Qed.

(** ** The guest-performer clause *)

(** What the guest pattern matches: a title, a separator, a marker, the
    names and a closing parenthesis; groups 1 and 2 are title and names. *)
Lemma reFt_shape x cs :
  Matches (Group 0 (prog reFt)) x [] cs ->
  exists title sep marker names close,
    x = title +:+ sep +:+ marker +:+ names +:+ close
    /\ title <> EmptyString /\ names <> EmptyString
    /\ (sep = " " \/ sep = "（")
    /\ (marker = "与" \/ marker = "feat.")
    /\ (close = "）" \/ close = ")")
    /\ cap 1 cs = title /\ cap 2 cs = names.
Proof.
  cbv [reFt prog seqs]. intros H. inv_matches.
  all: eexists _, _, _, _, _; split; [reflexivity |].
  all: repeat split; try assumption; try reflexivity.
  all: first [left; reflexivity | right; reflexivity].
Qed.

(** C5 (amended). For a track whose converted title contains a space, an
    opening parenthesis (full-width or ASCII) and the marker, and which the
    guest pattern matches, the new title is the text before the separator
    with white space trimmed, and the artist is the album artist, a comma
    and the converted text between the marker and the closing parenthesis.
    In particular the title Song, space, full-width parenthesised clause
    with album artist Main gives title Song and artist Main followed by the
    converted names, suffix included. *)
Theorem guest_clause_split (TradToSim : string -> string) :
  (forall albumArtist track,
      Contains (Track.Title track) " （与"
      || Contains (Track.Title track) " (与" = true ->
      FindStringSubmatch reFt (Track.Title track) <> [] ->
      exists before title sep marker names close after,
        Track.Title track
        = before +:+ (title +:+ sep +:+ marker +:+ names +:+ close) +:+ after
        /\ title <> EmptyString /\ names <> EmptyString
        /\ (sep = " " \/ sep = "（")
        /\ (marker = "与" \/ marker = "feat.")
        /\ (close = "）" \/ close = ")")
        /\ Track.Title (splitGuest TradToSim albumArtist track)
           = TrimSpace title
        /\ Track.Artist (splitGuest TradToSim albumArtist track)
           = albumArtist +:+ ", " +:+ TradToSim names)
  /\ (forall track,
        Track.Title
          (splitGuest TradToSim "Main"
             (Track.set_Title guestTitleSpaced track)) = "Song"
        /\ Track.Artist
             (splitGuest TradToSim "Main"
                (Track.set_Title guestTitleSpaced track))
           = "Main, " +:+ TradToSim "Guest合唱").
Proof.
  split.
  - intros albumArtist track Hguard Hm.
    destruct (FindStringSubmatch_sound _ _ Hm)
      as (cs & before & x & after & Ht & Hx & Hfind).
    destruct (reFt_shape _ _ Hx)
      as (title & sep & marker & names & close & -> & Hne1 & Hne2 & Hsep
          & Hmark & Hclose & Hc1 & Hc2).
    exists before, title, sep, marker, names, close, after.
    split; [exact Ht |]. repeat (split; [assumption |]).
    unfold splitGuest. rewrite Hguard, Hfind.
    cbn [numSubexp reFt seq map]. rewrite Hc1, Hc2. cbn. auto.
  - intros track. unfold splitGuest. cbn [Track.Title Track.set_Title].
    assert (Hg : Contains guestTitleSpaced " （与" = true)
      by (vm_compute; reflexivity).
    assert (Hf : FindStringSubmatch reFt guestTitleSpaced
                 = [guestTitleSpaced; "Song "; "Guest合唱"])
      by (vm_compute; reflexivity).
    assert (Ht : TrimSpace "Song " = "Song") by (vm_compute; reflexivity).
    rewrite Hg, Hf.
    cbn [orb Track.Title Track.Artist Track.set_Title Track.set_Artist].
    rewrite Ht. auto.
Qed.

Lemma guest_clause_split_witness :
  Contains guestTitleSpaced " （与" || Contains guestTitleSpaced " (与" = true
  /\ FindStringSubmatch reFt guestTitleSpaced <> []
  /\ exists before title sep marker names close after,
       guestTitleSpaced
       = before +:+ (title +:+ sep +:+ marker +:+ names +:+ close) +:+ after
       /\ title <> EmptyString /\ names <> EmptyString
       /\ (sep = " " \/ sep = "（")
       /\ (marker = "与" \/ marker = "feat.")
       /\ (close = "）" \/ close = ")")
       /\ Track.Title
            (splitGuest demoConvert "Main"
               (Track.set_Title guestTitleSpaced (Track.new 1)))
          = TrimSpace title
       /\ Track.Artist
            (splitGuest demoConvert "Main"
               (Track.set_Title guestTitleSpaced (Track.new 1)))
          = "Main" +:+ ", " +:+ demoConvert names.
Proof.
  split; [vm_compute; reflexivity |].
  split; [vm_compute; discriminate |].
  apply (proj1 (guest_clause_split demoConvert) "Main"
           (Track.set_Title guestTitleSpaced (Track.new 1))).
  - vm_compute; reflexivity.
  - vm_compute; discriminate.
Defined.

(** C5 as stated fails on its own example: the title without a space before
    the parenthesis is not split at all, and the artist stays the album
    artist. *)
Lemma guest_scenario_unsplit :
  Track.Title (demoGuestTrack guestTitle) = guestTitle
  /\ Track.Artist (demoGuestTrack guestTitle) = "Main"
  /\ ~ (Track.Title (demoGuestTrack guestTitle) = "Song"
        /\ Track.Artist (demoGuestTrack guestTitle) = "Main, Guest").
Proof.
  split; [vm_compute; reflexivity |].
  split; [vm_compute; reflexivity |].
  intros [H _]. vm_compute in H. discriminate.
Qed.

(** The same title with a space is split, and the names keep their
    suffix. *)
Example guest_scenario_spaced :
  Track.Title (demoGuestTrack guestTitleSpaced) = "Song"
  /\ Track.Artist (demoGuestTrack guestTitleSpaced) = "Main, Guest合唱".
Proof. split; vm_compute; reflexivity. Qed.

(** The pattern alone matches the title without a space as well; only the
    test in front of it asks for the space. *)
Example reFt_matches_unspaced :
  FindStringSubmatch reFt guestTitle = [guestTitle; "Song"; "Guest合唱"]
  /\ Contains guestTitle " （与" || Contains guestTitle " (与" = false.
Proof. split; vm_compute; reflexivity. Qed.

(** ** The stability detector *)

Lemma Time_Sub_elapsed now q d :
  q <= now -> (Time_Sub now q <? d) = false -> q + d <= now.
Proof.
  unfold Time_Sub, Int64.min, Int64.max. intros Hq H.
  apply Z.ltb_ge in H. lia.
Qed.

Section DetectorFacts.

Variable filepath_Join : string -> string -> string.
Variable relevant : string -> string -> bool.
Variable dir : string.
Variables quietDuration maxWait : Duration.

Local Abbreviation scan :=
  (scanEntries filepath_Join relevant dir quietDuration).
Local Abbreviation check :=
  (checkOnce filepath_Join relevant dir quietDuration).

(** Once a file has made the poll unquiet it stays so. *)
Lemma scanEntries_unquiet now prev entries st :
  allRelevantFilesQuiet st = false ->
  allRelevantFilesQuiet (scan now prev entries st) = false.
Proof.
  revert st. induction entries as [|e entries IH]; intros st Hst; cbn.
  - exact Hst.
  - destruct (IsDir e); [apply IH, Hst |].
    destruct (Info e) as [info| |]; [| apply IH, Hst | reflexivity].
    destruct (relevant _ _); [| apply IH, Hst].
    apply IH.
    destruct (match prev !! _ with Some _ => _ | None => _ end);
      [reflexivity |].
    destruct (quietTimes st !! _); [| reflexivity].
    destruct (_ <? _); [reflexivity | exact Hst].
Qed.

Lemma scanEntries_has now prev entries st :
  hasRelevantFiles st = true ->
  hasRelevantFiles (scan now prev entries st) = true.
Proof.
  revert st. induction entries as [|e entries IH]; intros st Hst; cbn.
  - exact Hst.
  - destruct (IsDir e); [apply IH, Hst |].
    destruct (Info e) as [info| |]; [| apply IH, Hst | reflexivity].
    destruct (relevant _ _); [| apply IH, Hst].
    apply IH.
    destruct (match prev !! _ with Some _ => _ | None => _ end);
      [reflexivity |].
    destruct (quietTimes st !! _); [| reflexivity].
    destruct (_ <? _); reflexivity.
Qed.

(** A quiet time is only ever replaced by the time of the poll. *)
Lemma scanEntries_quiet now prev entries st f q :
  quietTimes st !! f = Some q ->
  quietTimes (scan now prev entries st) !! f = Some q
  \/ quietTimes (scan now prev entries st) !! f = Some now.
Proof.
  revert st q. induction entries as [|e entries IH]; intros st q Hq; cbn.
  - left. exact Hq.
  - destruct (IsDir e); [apply IH, Hq |].
    destruct (Info e) as [info| |]; [| apply IH, Hq | left; exact Hq].
    destruct (relevant _ _); [| apply IH, Hq].
    set (g := filepath_Join dir (Name e)).
    assert (Hins : forall (b : bool) (c : gmap string fileInfo),
               quietTimes (scan now prev entries
                  (mkEntryState b true c (<[g := now]> (quietTimes st)))) !! f
               = Some q
               \/ quietTimes (scan now prev entries
                  (mkEntryState b true c (<[g := now]> (quietTimes st)))) !! f
                  = Some now).
    { intros b c. destruct (decide (g = f)) as [->|Hne].
      - right.
        destruct (IH (mkEntryState b true c (<[f := now]> (quietTimes st)))
                    now) as [H|H]; [| exact H | exact H].
        cbn. apply lookup_insert_eq.
      - apply IH. cbn. rewrite lookup_insert_ne by exact Hne. exact Hq. }
    destruct (match prev !! g with Some _ => _ | None => _ end);
      [apply Hins |].
    destruct (quietTimes st !! g); [| apply Hins].
    destruct (_ <? _); apply IH; exact Hq.
Qed.

(** Every file recorded in this poll has a quiet time. *)
Lemma scanEntries_dom now prev entries st :
  (forall f, is_Some (currentFileStates st !! f) ->
             is_Some (quietTimes st !! f)) ->
  forall f,
    is_Some (currentFileStates (scan now prev entries st) !! f) ->
    is_Some (quietTimes (scan now prev entries st) !! f).
Proof.
  revert st. induction entries as [|e entries IH]; intros st Hst; cbn.
  - exact Hst.
  - destruct (IsDir e); [apply IH, Hst |].
    destruct (Info e) as [info| |]; [| apply IH, Hst | exact Hst].
    destruct (relevant _ _); [| apply IH, Hst].
    set (g := filepath_Join dir (Name e)).
    apply IH.
    destruct (match prev !! g with Some _ => _ | None => _ end).
    { cbn. intros f. destruct (decide (g = f)) as [->|Hne].
      - rewrite !lookup_insert_eq. eauto.
      - rewrite !lookup_insert_ne by exact Hne. apply Hst. }
    destruct (quietTimes st !! g) as [last|] eqn:Hg.
    + assert (forall f,
                 is_Some (<[g := info]> (currentFileStates st) !! f) ->
                 is_Some (quietTimes st !! f)) as Hkeep.
      { intros f. destruct (decide (g = f)) as [->|Hne].
        - rewrite Hg. eauto.
        - rewrite lookup_insert_ne by exact Hne. apply Hst. }
      destruct (_ <? _); cbn; exact Hkeep.
    + cbn. intros f. destruct (decide (g = f)) as [->|Hne].
      * rewrite !lookup_insert_eq. eauto.
      * rewrite !lookup_insert_ne by exact Hne. apply Hst.
Qed.

(** With no relevant file seen, nothing has been recorded. *)
Lemma scanEntries_none now prev entries st :
  hasRelevantFiles (scan now prev entries st) = false ->
  currentFileStates (scan now prev entries st) = currentFileStates st.
Proof.
  revert st. induction entries as [|e entries IH]; intros st; cbn.
  - reflexivity.
  - destruct (IsDir e); [apply IH |].
    destruct (Info e) as [info| |]; [| apply IH | discriminate].
    destruct (relevant _ _); [| apply IH].
    intros H. exfalso.
    rewrite scanEntries_has in H; [discriminate |].
    destruct (match prev !! _ with Some _ => _ | None => _ end);
      [reflexivity |].
    destruct (quietTimes st !! _); [| reflexivity].
    destruct (_ <? _); reflexivity.
Qed.

(** The entries before the change do not end the loop. *)
Lemma scanEntries_app now prev pre post st :
  noBreak pre ->
  scan now prev (pre ++ post) st
  = scan now prev post (scan now prev pre st).
Proof.
  intros Hpre. revert st.
  induction Hpre as [|e pre He Hpre IH]; intros st; cbn.
  - reflexivity.
  - destruct (IsDir e); [apply IH |].
    destruct He as [He|He]; [discriminate |].
    destruct (Info e) as [info| |]; [| apply IH | congruence].
    destruct (relevant _ _); apply IH.
Qed.

Lemma scanEntries_changed now prev entry post st info :
  IsDir entry = false ->
  Info entry = InfoOk info ->
  relevant (filepath_Join dir (Name entry)) (Name entry) = true ->
  match prev !! filepath_Join dir (Name entry) with
  | Some old => fileInfo_differs old info = true
  | None => True
  end ->
  scan now prev (entry :: post) st
  = scan now prev post
      (mkEntryState false true
         (<[filepath_Join dir (Name entry) := info]> (currentFileStates st))
         (<[filepath_Join dir (Name entry) := now]> (quietTimes st))).
Proof.
  intros Hdir Hinfo Hrel Hchg. cbn. rewrite Hdir, Hinfo, Hrel.
  destruct (prev !! filepath_Join dir (Name entry)); [rewrite Hchg |];
    reflexivity.
Qed.

(** A poll that observes a change of [f] restarts the quiet time of [f]
    and cannot declare the directory stable. *)
Lemma observedChange_resets now ps entries f :
  observedChange filepath_Join relevant dir (previousFileStates ps) entries f ->
  exists ps',
    check now entries ps = (ps', None)
    /\ fileQuietTimes ps' !! f = Some now.
Proof.
  intros (pre & entry & post & info & -> & Hpre & Hdir & Hinfo & Hf & Hrel
          & Hchg).
  subst f. unfold checkOnce.
  rewrite (scanEntries_app _ _ _ _ _ Hpre).
  rewrite (scanEntries_changed _ _ _ _ _ _ Hdir Hinfo Hrel Hchg).
  match goal with
  | |- context [scan now ?prev post ?st] =>
      set (st1 := st); set (st2 := scan now prev post st1)
  end.
  assert (Hall : allRelevantFilesQuiet st2 = false)
    by (apply scanEntries_unquiet; reflexivity).
  assert (Hhas : hasRelevantFiles st2 = true)
    by (apply scanEntries_has; reflexivity).
  assert (Hq : quietTimes st2 !! filepath_Join dir (Name entry) = Some now).
  { destruct (scanEntries_quiet now (previousFileStates ps) post st1
                (filepath_Join dir (Name entry)) now) as [H|H];
      [apply lookup_insert_eq | exact H | exact H]. }
  rewrite Hhas, Hall. cbn. eexists. split; [reflexivity | exact Hq].
Qed.

(** A poll keeps the quiet time of a file or moves it to the poll's time. *)
Lemma checkOnce_quiet now entries ps f q :
  fileQuietTimes ps !! f = Some q ->
  fileQuietTimes (fst (check now entries ps)) !! f = Some q
  \/ fileQuietTimes (fst (check now entries ps)) !! f = Some now.
Proof.
  intros Hq. unfold checkOnce.
  match goal with
  | |- context [scan now ?prev entries ?st] =>
      pose proof (scanEntries_quiet now prev entries st f q Hq) as H;
      set (st2 := scan now prev entries st) in *
  end.
  destruct (negb (hasRelevantFiles st2)); [exact H |].
  destruct (_ && _); exact H.
Qed.

(** A poll that declares the directory stable does so at its own time,
    and every file it lists has then been quiet for [quietDuration]. *)
Lemma checkOnce_stable now entries ps ps' t present f q :
  check now entries ps = (ps', Some (Stable t present)) ->
  is_Some (present !! f) ->
  fileQuietTimes ps' !! f = Some q ->
  q <= now ->
  t = now /\ q + quietDuration <= now.
Proof.
  unfold checkOnce.
  match goal with
  | |- context [scan now ?prev entries ?st] =>
      pose proof (scanEntries_none now prev entries st) as Hnone;
      set (st2 := scan now prev entries st) in *
  end.
  destruct (hasRelevantFiles st2) eqn:Hhas; cbn [negb].
  - destruct (allRelevantFilesQuiet st2); cbn [andb]; [| discriminate].
    destruct (allCurrentlyQuiet _ _ _ _) eqn:Hacq; [| discriminate].
    intros [= <- <- <-]. cbn [fileQuietTimes]. intros Hpres Hq Hle.
    split; [reflexivity |].
    unfold allCurrentlyQuiet in Hacq. rewrite forallb_forall in Hacq.
    specialize (Hacq (f, q)). cbn beta iota in Hacq.
    destruct Hpres as [i Hi]. rewrite Hi in Hacq.
    apply Time_Sub_elapsed; [exact Hle |].
    apply negb_true_iff, Hacq.
    apply list_elem_of_In, elem_of_map_to_list, Hq.
  - intros [= <- <- <-]. rewrite Hnone by reflexivity. cbn.
    rewrite lookup_empty. intros [? ?]. discriminate.
Qed.

Lemma checkOnce_verdict now entries ps ps' v :
  check now entries ps = (ps', Some v) ->
  exists present, v = Stable now present.
Proof.
  unfold checkOnce.
  destruct (negb _); [intros [= <- <-]; eauto |].
  destruct (_ && _); [intros [= <- <-]; eauto | discriminate].
Qed.

(** The invariant of both loops: the quiet time of [f] never falls below
    [T], so a poll that lists [f] cannot declare the directory stable
    before [T + quietDuration]. *)
Lemma Main_waitLoop_quiet start f T : forall polls ps q tlast t present,
  fileQuietTimes ps !! f = Some q ->
  T <= q <= tlast ->
  clockFrom tlast polls ->
  Main_waitLoop filepath_Join relevant dir quietDuration maxWait start polls ps
  = Stable t present ->
  is_Some (present !! f) ->
  T + quietDuration <= t.
Proof.
  induction polls as [|p polls IH]; intros ps q tlast t present Hq Hb Hclock;
    cbn [Main_waitLoop]; [discriminate |].
  destruct Hclock as [Hle Hclock].
  destruct (_ <? maxWait); [| discriminate].
  destruct (listing p) as [entries|]; [| discriminate].
  pose proof (checkOnce_quiet (checkTime p) entries ps f q Hq) as Hq'.
  destruct (check (checkTime p) entries ps) as [ps' [v|]] eqn:Hc;
    cbn [fst] in Hq'.
  - intros -> Hpres.
    destruct Hq' as [Hq'|Hq'];
      (destruct (checkOnce_stable _ _ _ _ _ _ _ _ Hc Hpres Hq') as [-> H];
       lia).
  - destruct Hq' as [Hq'|Hq'].
    + apply (IH ps' q (checkTime p)); [exact Hq' | lia | exact Hclock].
    + apply (IH ps' (checkTime p) (checkTime p));
        [exact Hq' | lia | exact Hclock].
Qed.

Lemma Sched_waitLoop_quiet start f T : forall polls ps q tlast t present,
  fileQuietTimes ps !! f = Some q ->
  T <= q <= tlast ->
  clockFrom tlast polls ->
  Sched_waitLoop filepath_Join relevant dir quietDuration maxWait start polls ps
  = Stable t present ->
  is_Some (present !! f) ->
  T + quietDuration <= t.
Proof.
  induction polls as [|p polls IH]; intros ps q tlast t present Hq Hb Hclock;
    cbn [Sched_waitLoop]; [discriminate |].
  destruct Hclock as [Hle Hclock].
  destruct (_ <? maxWait); [| discriminate].
  destruct (listing p) as [entries|].
  2: { apply (IH ps q (checkTime p)); [exact Hq | lia | exact Hclock]. }
  pose proof (checkOnce_quiet (checkTime p) entries ps f q Hq) as Hq'.
  destruct (check (checkTime p) entries ps) as [ps' [v|]] eqn:Hc;
    cbn [fst] in Hq'.
  - intros -> Hpres.
    destruct Hq' as [Hq'|Hq'];
      (destruct (checkOnce_stable _ _ _ _ _ _ _ _ Hc Hpres Hq') as [-> H];
       lia).
  - destruct Hq' as [Hq'|Hq'].
    + apply (IH ps' q (checkTime p)); [exact Hq' | lia | exact Hclock].
    + apply (IH ps' (checkTime p) (checkTime p));
        [exact Hq' | lia | exact Hclock].
Qed.

(** C6 (amended). When a poll taken at time T observes a relevant file as
    new or changed, the detector of main.go does not declare the directory
    stable before T + quietDuration at any poll that still lists the file,
    whatever the poll interval.  (A poll from which the file has vanished
    is not bound by it.) *)
Theorem stable_not_before_quiet start ps p polls entries f t present :
  listing p = Ok entries ->
  observedChange filepath_Join relevant dir (previousFileStates ps) entries f ->
  clockFrom (checkTime p) polls ->
  Main_waitLoop filepath_Join relevant dir quietDuration maxWait start
    (p :: polls) ps = Stable t present ->
  is_Some (present !! f) ->
  checkTime p + quietDuration <= t.
Proof.
  intros Hl Hobs Hclock. cbn [Main_waitLoop].
  destruct (_ <? maxWait); [| discriminate]. rewrite Hl.
  destruct (observedChange_resets (checkTime p) ps entries f Hobs)
    as (ps' & -> & Hq).
  apply (Main_waitLoop_quiet start f (checkTime p) polls ps' (checkTime p)
           (checkTime p)); [exact Hq | lia | exact Hclock].
Qed.

(** The same bound for the detector of pkg/scheduler. *)
Theorem Sched_stable_not_before_quiet start ps p polls entries f t present :
  listing p = Ok entries ->
  observedChange filepath_Join relevant dir (previousFileStates ps) entries f ->
  clockFrom (checkTime p) polls ->
  Sched_waitLoop filepath_Join relevant dir quietDuration maxWait start
    (p :: polls) ps = Stable t present ->
  is_Some (present !! f) ->
  checkTime p + quietDuration <= t.
Proof.
  intros Hl Hobs Hclock. cbn [Sched_waitLoop].
  destruct (_ <? maxWait); [| discriminate]. rewrite Hl.
  destruct (observedChange_resets (checkTime p) ps entries f Hobs)
    as (ps' & -> & Hq).
  apply (Sched_waitLoop_quiet start f (checkTime p) polls ps' (checkTime p)
           (checkTime p)); [exact Hq | lia | exact Hclock].
Qed.

End DetectorFacts.

Lemma aWav_observed :
  observedChange demoJoin relevant_main demoDir_album ∅ [aWav] aWavPath.
Proof.
  exists [], aWav, [], (mkFileInfo 1024 0).
  repeat split; try reflexivity. constructor.
Qed.

Lemma stable_not_before_quiet_witness :
  listing (mkPoll 0 0 (Ok [aWav])) = Ok [aWav]
  /\ observedChange demoJoin relevant_main demoDir_album
       (previousFileStates pollInit) [aWav] aWavPath
  /\ clockFrom 0 (pollsSteadyTail 14)
  /\ Main_waitLoop demoJoin relevant_main demoDir_album (seconds 60)
       (seconds 43200) 0 (mkPoll 0 0 (Ok [aWav]) :: pollsSteadyTail 14)
       pollInit
     = Stable (seconds 60) {[aWavPath := mkFileInfo 1024 0]}
  /\ is_Some (({[aWavPath := mkFileInfo 1024 0]} : gmap string fileInfo)
              !! aWavPath)
  /\ 0 + seconds 60 <= seconds 60.
Proof.
  assert (Hobs : observedChange demoJoin relevant_main demoDir_album
                   (previousFileStates pollInit) [aWav] aWavPath)
    by exact aWav_observed.
  assert (Hclock : clockFrom 0 (pollsSteadyTail 14))
    by (vm_compute; repeat split; discriminate).
  assert (Hrun : Main_waitLoop demoJoin relevant_main demoDir_album
                   (seconds 60) (seconds 43200) 0
                   (mkPoll 0 0 (Ok [aWav]) :: pollsSteadyTail 14) pollInit
                 = Stable (seconds 60) {[aWavPath := mkFileInfo 1024 0]})
    by (vm_compute; reflexivity).
  assert (Hpres : is_Some (({[aWavPath := mkFileInfo 1024 0]}
                            : gmap string fileInfo) !! aWavPath))
    by (rewrite lookup_singleton_eq; eauto).
  repeat (split; [assumption || reflexivity |]).
  exact (stable_not_before_quiet demoJoin relevant_main demoDir_album
           (seconds 60) (seconds 43200) 0 pollInit (mkPoll 0 0 (Ok [aWav]))
           (pollsSteadyTail 14) [aWav] aWavPath (seconds 60)
           {[aWavPath := mkFileInfo 1024 0]} eq_refl Hobs Hclock Hrun Hpres).
Defined.

(** C6 as stated fails: a file first sighted at time 0 has vanished at the
    poll five seconds later, no relevant file is left, and the directory is
    declared stable at 5 s, before 0 + 60 s; the poll interval (5 s) is
    below the quiet duration (60 s). *)
Lemma stable_early_after_vanish :
  observedChange demoJoin relevant_main demoDir_album
    (previousFileStates pollInit) [aWav] aWavPath
  /\ Main.waitForFilesStability demoJoin demoDir_album (seconds 5)
       (seconds 60) (seconds 43200) 0 pollsVanish
     = Stable (seconds 5) ∅
  /\ seconds 5 < 0 + seconds 60
  /\ seconds 5 <= seconds 60.
Proof.
  split; [exact aWav_observed |].
  split; [vm_compute; reflexivity |]. split; reflexivity || discriminate.
Qed.

(** ** Listing errors *)

Lemma TriggerScan_arms dir s :
  timers (TriggerScan dir s)
  = (match pendingScans s !! dir with
     | Some timer => deactivate timer (timers s)
     | None => timers s
     end ++ [mkTimer dir true])%list
  /\ pendingScans (TriggerScan dir s) !! dir
     = Some (length (match pendingScans s !! dir with
                     | Some timer => deactivate timer (timers s)
                     | None => timers s
                     end)).
Proof.
  unfold TriggerScan. cbn. split; [reflexivity | apply lookup_insert_eq].
Qed.

(** C7 (amended). On a listing error inside the maximum wait, the detector
    of pkg/scheduler leaves its state as it is and goes on with the next
    poll, and returns false once the maximum wait is exceeded; the detector
    of main.go returns false at once, and performScan of main.go then arms a
    new timer for the directory.  Neither stops the scheduler. *)
Theorem listing_error_handling
    (join : string -> string -> string) (relevant : string -> string -> bool)
    (dir : string) (quietDuration maxWait : Duration) (start : Time)
    (p : Poll) (polls : list Poll) (ps : pollState) (cause : string) :
  listing p = Err cause ->
  (Time_Sub (guardTime p) start <? maxWait) = true ->
  Sched_waitLoop join relevant dir quietDuration maxWait start (p :: polls) ps
  = Sched_waitLoop join relevant dir quietDuration maxWait start polls ps
  /\ (forall p' polls',
        (Time_Sub (guardTime p') start <? maxWait) = false ->
        Sched_waitLoop join relevant dir quietDuration maxWait start
          (p' :: polls') ps = Unstable)
  /\ Main_waitLoop join relevant dir quietDuration maxWait start (p :: polls) ps
     = Unstable
  /\ (forall w s,
        stabilityResult w dir = false ->
        exists ts,
          timers (Main.performScan w dir s) = (ts ++ [mkTimer dir true])%list
          /\ pendingScans (Main.performScan w dir s) !! dir
             = Some (length ts)).
Proof.
  intros Hl Hg. cbn [Sched_waitLoop Main_waitLoop]. rewrite Hg, Hl.
  split; [reflexivity |]. split.
  - intros p' polls' Hg'. cbn [Sched_waitLoop]. rewrite Hg'. reflexivity.
  - split; [reflexivity |]. intros w s Hw.
    unfold Main.performScan. rewrite Hw. cbn [negb].
    eexists. apply TriggerScan_arms.
Qed.

Lemma listing_error_handling_witness :
  listing (mkPoll 0 0 (Err "permission denied")) = Err "permission denied"
  /\ (Time_Sub (guardTime (mkPoll 0 0 (Err "permission denied"))) 0
      <? seconds 43200) = true
  /\ Sched_waitLoop demoJoin relevant_pkg demoDir_album (seconds 60)
       (seconds 43200) 0 pollsListError pollInit
     = Sched_waitLoop demoJoin relevant_pkg demoDir_album (seconds 60)
         (seconds 43200) 0 (tail pollsListError) pollInit
  /\ Main_waitLoop demoJoin relevant_pkg demoDir_album (seconds 60)
       (seconds 43200) 0 pollsListError pollInit = Unstable.
Proof.
  split; [reflexivity |]. split; [reflexivity |].
  destruct (listing_error_handling demoJoin relevant_pkg demoDir_album
              (seconds 60) (seconds 43200) 0
              (mkPoll 0 0 (Err "permission denied")) (tail pollsListError)
              pollInit "permission denied" eq_refl eq_refl)
    as (H1 & _ & H2 & _).
  split; [exact H1 | exact H2].
Defined.

(** C7 as stated fails for main.go: its detector stops polling at the
    first listing error, well inside the maximum wait, although the next
    poll would have found the directory stable, as the detector of
    pkg/scheduler does on the same observations. *)
Lemma main_listing_error_ends_wait :
  Main.waitForFilesStability demoJoin demoDir_album (seconds 5) (seconds 60)
    (seconds 43200) 0 pollsListError = Unstable
  /\ (Time_Sub 0 0 <? seconds 43200) = true
  /\ Sched.waitForFilesStability demoJoin demoDir_album (seconds 5)
       (seconds 60) (seconds 43200) 0 pollsListError
     = Stable (seconds 5) ∅.
Proof. repeat split; vm_compute; reflexivity. Qed.

(** ** The scan scheduler *)

Lemma record_fetches (l : list Track.t) : forall s,
  trace (fold_left (fun s t => record (EvFetchMetadata t) s) l s)
  = (trace s ++ map EvFetchMetadata l)%list
  /\ ledger (fold_left (fun s t => record (EvFetchMetadata t) s) l s)
     = ledger s
  /\ pendingScans (fold_left (fun s t => record (EvFetchMetadata t) s) l s)
     = pendingScans s
  /\ timers (fold_left (fun s t => record (EvFetchMetadata t) s) l s)
     = timers s.
Proof.
  induction l as [|t l IH]; intros s; cbn [fold_left map].
  - rewrite app_nil_r. auto.
  - destruct (IH (record (EvFetchMetadata t) s)) as (H1 & H2 & H3 & H4).
    rewrite H1, H2, H3, H4. cbn. rewrite <- app_assoc. auto.
Qed.

Lemma processAndMark_spec w dir album s :
  trace (processAndMark w dir album s)
  = (trace s ++ EvProcessAlbum album
       :: match ProcessAlbum w album with
          | None => [EvAddProcessedAlbum dir]
          | Some _ => []
          end)%list
  /\ ledger (processAndMark w dir album s)
     = match ProcessAlbum w album with
       | None => fst (AddProcessedAlbum (execFails w) (ledger s) dir)
       | Some _ => ledger s
       end.
Proof.
  unfold processAndMark. destruct (ProcessAlbum w album); cbn.
  - auto.
  - rewrite <- app_assoc. auto.
Qed.

(** What a scan does once the directory is stable and not known to be
    processed, and the scanner returns an album with a disc. *)
Lemma performScan_assembled prog w dir s album :
  stabilityResult w dir = true ->
  fst (IsAlbumProcessed (queryFails w) (ledger s) dir) = false ->
  ScanAlbumDirectory w dir = Ok (Some album) ->
  Album.Discs album <> [] ->
  trace (performScan prog w dir s)
  = (trace s
     ++ [EvPerformScan dir; EvScanAlbumDirectory dir]
     ++ match prog with
        | MainGo => []
        | PkgScheduler => map EvFetchMetadata (allTracks album)
        end
     ++ EvProcessAlbum (handedOver prog w album)
        :: match ProcessAlbum w (handedOver prog w album) with
           | None => [EvAddProcessedAlbum dir]
           | Some _ => []
           end)%list
  /\ ledger (performScan prog w dir s)
     = match ProcessAlbum w (handedOver prog w album) with
       | None => fst (AddProcessedAlbum (execFails w) (ledger s) dir)
       | Some _ => ledger s
       end.
Proof.
  intros Hst Hproc Hscan Hdiscs.
  destruct prog; cbn [performScan handedOver];
    unfold Main.performScan, Sched.performScan; rewrite Hst; cbn [negb];
    cbn [record ledger];
    destruct (IsAlbumProcessed (queryFails w) (ledger s) dir)
      as [processed e]; cbn [fst] in Hproc; subst processed;
    rewrite Hscan; destruct (Album.Discs album) eqn:Hd; try congruence.
  - destruct (processAndMark_spec w dir album
                (record (EvScanAlbumDirectory dir)
                   (record (EvPerformScan dir) s))) as [H1 H2].
    rewrite H1, H2. cbn. rewrite <- !app_assoc. auto.
  - match goal with
    | |- context [fold_left ?f ?l ?s0] =>
        destruct (record_fetches l s0) as (F1 & F2 & _ & _);
        set (s1 := fold_left f l s0) in *
    end.
    destruct (processAndMark_spec w dir
                (albumTracks (FetchMetadataAndUpdateTrack w) album) s1)
      as [H1 H2].
    rewrite H1, H2, F1, F2. cbn. rewrite <- !app_assoc. auto.
Qed.

Lemma fetches_no_process (l : list Track.t) :
  List.filter isProcessAlbum (map EvFetchMetadata l) = []
  /\ forall dir, ~ In (EvAddProcessedAlbum dir) (map EvFetchMetadata l).
Proof.
  induction l as [|t l [IH1 IH2]]; cbn; [auto |].
  split; [exact IH1 |]. intros dir [H|H]; [discriminate | exact (IH2 dir H)].
Qed.

(** C9. When a scan has assembled an album with at least one disc, the
    downstream processor is called once, and the directory is marked in the
    ledger if and only if that call reports success; on a downstream error
    nothing is marked and the ledger is as it was, and on success the
    directory is in the ledger once the insert has gone through. *)
Theorem ledger_marked_iff_processed prog w dir s album :
  stabilityResult w dir = true ->
  fst (IsAlbumProcessed (queryFails w) (ledger s) dir) = false ->
  ScanAlbumDirectory w dir = Ok (Some album) ->
  Album.Discs album <> [] ->
  exists evs,
    trace (performScan prog w dir s) = (trace s ++ evs)%list
    /\ List.filter isProcessAlbum evs
       = [EvProcessAlbum (handedOver prog w album)]
    /\ (In (EvAddProcessedAlbum dir) evs
        <-> ProcessAlbum w (handedOver prog w album) = None)
    /\ (ProcessAlbum w (handedOver prog w album) <> None ->
        ledger (performScan prog w dir s) = ledger s)
    /\ (ProcessAlbum w (handedOver prog w album) = None ->
        execFails w = false ->
        dir ∈ ledger (performScan prog w dir s)).
Proof.
  intros Hst Hproc Hscan Hdiscs.
  destruct (performScan_assembled prog w dir s album Hst Hproc Hscan Hdiscs)
    as [Htrace Hledger].
  eexists. split; [exact Htrace |].
  set (fetched := match prog with
                  | MainGo => []
                  | PkgScheduler => map EvFetchMetadata (allTracks album)
                  end).
  assert (Hf : List.filter isProcessAlbum fetched = []
               /\ forall d, ~ In (EvAddProcessedAlbum d) fetched).
  { subst fetched. destruct prog; [cbn; auto | apply fetches_no_process]. }
  destruct Hf as [Hf1 Hf2].
  split; [| split; [| split]].
  - cbn [app List.filter isProcessAlbum]. rewrite List.filter_app, Hf1.
    cbn. destruct (ProcessAlbum w _); reflexivity.
  - cbn [app]. split.
    + intros [H|[H|H]]; try discriminate.
      apply in_app_or in H. destruct H as [H|H]; [destruct (Hf2 _ H) |].
      destruct H as [H|H]; [discriminate |].
      destruct (ProcessAlbum w _); [destruct H | reflexivity].
    + intros ->. right. right. apply in_or_app. right. right. left.
      reflexivity.
  - intros Hne. rewrite Hledger.
    destruct (ProcessAlbum w _); [reflexivity | congruence].
  - intros Hok Hexec. rewrite Hledger, Hok. unfold AddProcessedAlbum.
    rewrite Hexec. cbn. apply elem_of_union. left. apply elem_of_singleton.
    reflexivity.
Qed.

(** C10. When the ledger query fails during a scan that has passed the
    stability gate, the directory counts as unprocessed, whatever the
    ledger holds: the scanner is called, and an album with a disc is handed
    to the downstream processor. *)
Theorem ledger_error_does_not_abort prog w dir s e :
  stabilityResult w dir = true ->
  snd (IsAlbumProcessed (queryFails w) (ledger s) dir) = Some e ->
  fst (IsAlbumProcessed (queryFails w) (ledger s) dir) = false
  /\ exists evs,
       trace (performScan prog w dir s)
       = (trace s ++ EvPerformScan dir :: EvScanAlbumDirectory dir :: evs)%list
       /\ forall album,
            ScanAlbumDirectory w dir = Ok (Some album) ->
            Album.Discs album <> [] ->
            In (EvProcessAlbum (handedOver prog w album)) evs.
Proof.
  intros Hst Herr.
  assert (Hq : queryFails w = true).
  { unfold IsAlbumProcessed in Herr.
    destruct (queryFails w); [reflexivity | discriminate]. }
  assert (Hun : fst (IsAlbumProcessed (queryFails w) (ledger s) dir) = false)
    by (unfold IsAlbumProcessed; rewrite Hq; reflexivity).
  split; [exact Hun |].
  destruct (ScanAlbumDirectory w dir) as [[album|]|err] eqn:Hscan.
  - destruct (Album.Discs album) as [|d ds] eqn:Hd.
    + exists []. split; [| intros a [= <-] Hne; congruence].
      destruct prog; cbn [performScan];
        unfold Main.performScan, Sched.performScan; rewrite Hst;
        cbn [negb record ledger]; unfold IsAlbumProcessed; rewrite Hq, Hscan, Hd;
        cbn; rewrite <- app_assoc; reflexivity.
    + assert (Hne : Album.Discs album <> []) by (rewrite Hd; discriminate).
      destruct (performScan_assembled prog w dir s album Hst Hun Hscan Hne)
        as [Htrace _].
      eexists. split; [exact Htrace |].
      intros a [= <-] _. apply in_or_app. right. left. reflexivity.
  - exists []. split; [| intros a [=]].
    destruct prog; cbn [performScan];
      unfold Main.performScan, Sched.performScan; rewrite Hst;
      cbn [negb record ledger]; unfold IsAlbumProcessed; rewrite Hq, Hscan;
      cbn; rewrite <- app_assoc; reflexivity.
  - exists []. split; [| intros a [=]].
    destruct prog; cbn [performScan];
      unfold Main.performScan, Sched.performScan; rewrite Hst;
      cbn [negb record ledger]; unfold IsAlbumProcessed; rewrite Hq, Hscan;
      cbn; rewrite <- app_assoc; reflexivity.
Qed.

Lemma ledger_marked_iff_processed_witness :
  stabilityResult worldStable demoDir_album = true
  /\ fst (IsAlbumProcessed (queryFails worldStable)
            (ledger (newScheduler ∅)) demoDir_album) = false
  /\ ScanAlbumDirectory worldStable demoDir_album
     = Ok (Some demoAlbumWithDisc)
  /\ Album.Discs demoAlbumWithDisc <> []
  /\ exists evs,
       trace (performScan MainGo worldStable demoDir_album (newScheduler ∅))
       = (trace (newScheduler ∅) ++ evs)%list
       /\ List.filter isProcessAlbum evs
          = [EvProcessAlbum (handedOver MainGo worldStable demoAlbumWithDisc)]
       /\ (In (EvAddProcessedAlbum demoDir_album) evs
           <-> ProcessAlbum worldStable
                 (handedOver MainGo worldStable demoAlbumWithDisc) = None)
       /\ (ProcessAlbum worldStable
             (handedOver MainGo worldStable demoAlbumWithDisc) <> None ->
           ledger (performScan MainGo worldStable demoDir_album
                     (newScheduler ∅))
           = ledger (newScheduler ∅))
       /\ (ProcessAlbum worldStable
             (handedOver MainGo worldStable demoAlbumWithDisc) = None ->
           execFails worldStable = false ->
           demoDir_album
           ∈ ledger (performScan MainGo worldStable demoDir_album
                       (newScheduler ∅))).
Proof.
  split; [reflexivity |]. split; [vm_compute; reflexivity |].
  split; [reflexivity |]. split; [vm_compute; discriminate |].
  apply (ledger_marked_iff_processed MainGo worldStable demoDir_album
           (newScheduler ∅) demoAlbumWithDisc).
  - reflexivity.
  - vm_compute; reflexivity.
  - reflexivity.
  - vm_compute; discriminate.
Defined.

Lemma ledger_error_does_not_abort_witness :
  stabilityResult worldLedgerDown demoDir_album = true
  /\ snd (IsAlbumProcessed (queryFails worldLedgerDown)
            (ledger (newScheduler {[demoDir_album]})) demoDir_album)
     = Some ErrQuery
  /\ fst (IsAlbumProcessed (queryFails worldLedgerDown)
            (ledger (newScheduler {[demoDir_album]})) demoDir_album) = false
  /\ exists evs,
       trace (performScan PkgScheduler worldLedgerDown demoDir_album
                (newScheduler {[demoDir_album]}))
       = (trace (newScheduler {[demoDir_album]})
          ++ EvPerformScan demoDir_album
             :: EvScanAlbumDirectory demoDir_album :: evs)%list
       /\ forall album,
            ScanAlbumDirectory worldLedgerDown demoDir_album
            = Ok (Some album) ->
            Album.Discs album <> [] ->
            In (EvProcessAlbum (handedOver PkgScheduler worldLedgerDown album))
               evs.
Proof.
  split; [reflexivity |]. split; [reflexivity |].
  apply (ledger_error_does_not_abort PkgScheduler worldLedgerDown
           demoDir_album (newScheduler {[demoDir_album]}) ErrQuery);
    reflexivity.
Defined.

(** *** Debouncing *)

Lemma filter_none {A} (P : A -> bool) (l : list A) :
  (forall (i : nat) x, l !! i = Some x -> P x = false) ->
  List.filter P l = [].
Proof.
  induction l as [|a l IH]; intros H; cbn; [reflexivity |].
  rewrite (H 0%nat a eq_refl). apply IH.
  intros i x Hi. exact (H (S i) x Hi).
Qed.

(** After [TriggerScan] the timers of the directory that were tracked are
    stopped. *)
Lemma TriggerScan_stops dir s :
  tracked dir s ->
  forall (i : nat) tm,
    match pendingScans s !! dir with
    | Some timer => deactivate timer (timers s)
    | None => timers s
    end !! i = Some tm ->
    active tm && String.eqb (timerDir tm) dir = false.
Proof.
  intros Htr i tm Hi.
  destruct (active tm) eqn:Hact; [| reflexivity].
  destruct (String.eqb (timerDir tm) dir) eqn:Hdir; [| reflexivity].
  exfalso. apply String.eqb_eq in Hdir.
  destruct (pendingScans s !! dir) as [t0|] eqn:Hp.
  - unfold deactivate in Hi. destruct (decide (t0 = i)) as [->|Hne].
    + rewrite list_lookup_alter_eq in Hi.
      destruct (timers s !! i); [| discriminate].
      cbn in Hi. injection Hi as <-. discriminate.
    + rewrite list_lookup_alter_ne in Hi by exact Hne.
      pose proof (Htr i tm Hi Hdir Hact) as H. congruence.
  - pose proof (Htr i tm Hi Hdir Hact) as H. congruence.
Qed.

(** From a state in which the timers of a directory are tracked, a call of
    [TriggerScan] leaves exactly one timer that will fire for it, and that
    timer is tracked again. *)
Lemma TriggerScan_one_timer dir s :
  tracked dir s ->
  activeTimers dir (TriggerScan dir s) = 1%nat
  /\ tracked dir (TriggerScan dir s).
Proof.
  intros Htr. pose proof (TriggerScan_stops dir s Htr) as Hstop.
  destruct (TriggerScan_arms dir s) as [Ht Hp].
  set (ts := match pendingScans s !! dir with
             | Some timer => deactivate timer (timers s)
             | None => timers s
             end) in *.
  split.
  - unfold activeTimers. rewrite Ht, List.filter_app, length_app.
    rewrite (filter_none _ ts Hstop). cbn.
    rewrite String.eqb_refl. reflexivity.
  - intros t tm Hl Hdir Hact. rewrite Hp. f_equal.
    rewrite Ht in Hl. apply lookup_app_Some in Hl.
    destruct Hl as [Hl|[Hle Hl]].
    + pose proof (Hstop t tm Hl) as H. rewrite Hact in H. cbn in H.
      apply String.eqb_neq in H. contradiction.
    + destruct (t - length ts)%nat as [|k] eqn:Hk; [lia |].
      cbn in Hl. discriminate.
Qed.

(** A burst of calls from a tracked state, in particular from the initial
    state, leaves one timer to fire, whatever the number of calls. *)
Lemma burst_one_timer dir n : forall s,
  tracked dir s ->
  activeTimers dir (Nat.iter (S n) (TriggerScan dir) s) = 1%nat
  /\ tracked dir (Nat.iter (S n) (TriggerScan dir) s).
Proof.
  induction n as [|n IH]; intros s Htr.
  - exact (TriggerScan_one_timer dir s Htr).
  - destruct (IH s Htr) as [_ Htr'].
    exact (TriggerScan_one_timer dir _ Htr').
Qed.

Lemma newScheduler_tracked dir l : tracked dir (newScheduler l).
Proof. intros t tm H. cbn in H. discriminate. Qed.

(** A timer that fires while the directory is unstable leaves a new timer
    for it that [pendingScans] does not record: the scan re-arms, and the
    fired timer's function deletes the entry afterwards. *)
Lemma fire_unstable_untracked prog w t s dir :
  timers s !! t = Some (mkTimer dir true) ->
  stabilityResult w dir = false ->
  exists s',
    fire prog w t s = Some s'
    /\ pendingScans s' !! dir = None
    /\ (exists ts, timers s' = (ts ++ [mkTimer dir true])%list)
    /\ ~ tracked dir s'.
Proof.
  intros Ht Hw. unfold fire. rewrite Ht. cbn [active timerDir].
  eexists. split; [reflexivity |].
  cbn [pendingScans timers].
  assert (Hscan : forall s1,
             performScan prog w dir s1
             = TriggerScan dir (record (EvPerformScan dir) s1)).
  { intros s1. destruct prog; cbn [performScan];
      unfold Main.performScan, Sched.performScan; rewrite Hw; reflexivity. }
  rewrite Hscan.
  destruct (TriggerScan_arms dir
              (record (EvPerformScan dir)
                 (mkScheduler (pendingScans s) (deactivate t (timers s))
                    (ledger s) (trace s)))) as [Harm _].
  split; [apply lookup_delete_eq |]. split; [eexists; exact Harm |].
  intros Htr.
  match type of Harm with
  | _ = (?ts ++ _)%list =>
      specialize (Htr (length ts) (mkTimer dir true))
  end.
  cbn [timers pendingScans] in Htr. rewrite Harm in Htr.
  rewrite lookup_app_r, Nat.sub_diag in Htr by lia.
  specialize (Htr eq_refl eq_refl eq_refl).
  rewrite lookup_delete_eq in Htr. discriminate.
Qed.

(** C8, at the failing input.  A timer fires while the directory is still
    changing: performScan re-arms through TriggerScan, and the function of
    the fired timer then deletes the directory from pendingScans, the entry
    of the new timer.  The next TriggerScan finds nothing to stop: two
    timers are left to fire, and when they do performScan runs twice. *)
Theorem rearmed_timer_not_replaced (prog : Program) :
  exists s,
    run prog stepsRearm (newScheduler ∅) = Some s
    /\ timers s
       = [mkTimer demoDir_album false; mkTimer demoDir_album true;
          mkTimer demoDir_album true]
    /\ activeTimers demoDir_album s = 2%nat
    /\ ~ tracked demoDir_album s
    /\ exists s',
         run prog [StepFire worldStable 1%nat; StepFire worldStable 2%nat] s
         = Some s'
         /\ scansOf demoDir_album s' = (scansOf demoDir_album s + 2)%nat.
Proof.
  destruct prog.
  - eexists. split; [vm_compute; reflexivity |].
    split; [reflexivity |]. split; [reflexivity |]. split.
    + intros Htr.
      pose proof (Htr 1%nat (mkTimer demoDir_album true) eq_refl eq_refl
                    eq_refl) as H.
      vm_compute in H. discriminate.
    + eexists. split; [vm_compute; reflexivity |]. vm_compute. reflexivity.
  - eexists. split; [vm_compute; reflexivity |].
    split; [reflexivity |]. split; [reflexivity |]. split.
    + intros Htr.
      pose proof (Htr 1%nat (mkTimer demoDir_album true) eq_refl eq_refl
                    eq_refl) as H.
      vm_compute in H. discriminate.
    + eexists. split; [vm_compute; reflexivity |]. vm_compute. reflexivity.
Qed.

(** * Further properties of the code *)

(** ** parseCueTime: the only check is the number of colons *)

Lemma Split_length s sep :
  length (Split s sep) = S (countByte sep s).
Proof.
  induction s as [|c s IH]; cbn [Split countByte]; [reflexivity |].
  destruct (byte_eqb c sep); cbn [length].
  - rewrite IH. reflexivity.
  - destruct (Split s sep) as [|h t]; cbn [length] in *; lia.
Qed.

(** [parseCueTime] succeeds exactly on the texts with two colons, whatever
    stands between them; otherwise the error carries the text. *)
Theorem parseCueTime_two_colons (timeStr : string) :
  if Nat.eqb (countByte ":" timeStr) 2
  then exists d, parseCueTime timeStr = Ok d
  else parseCueTime timeStr = Err (ErrInvalidTimeFormat timeStr).
Proof.
  pose proof (Split_length timeStr ":") as Hlen. unfold parseCueTime.
  destruct (Nat.eqb_spec (countByte ":" timeStr) 2) as [E|E].
  - rewrite E in Hlen.
    destruct (Split timeStr ":") as [|p0 [|p1 [|p2 [|p3 l]]]];
      cbn in Hlen; try lia. eexists. reflexivity.
  - destruct (Split timeStr ":") as [|p0 [|p1 [|p2 [|p3 l]]]];
      cbn in Hlen; try reflexivity. lia.
Qed.

(** ** parseCueFile: one track per TRACK line, in order *)

Lemma flush_numbers_step st text :
  map Track.Number (flush (parseLine st text))
  = (map Track.Number (flush st)
     ++ if isTrackLine text then [trackNumber text] else [])%list.
Proof.
  unfold parseLine, isTrackLine, trackNumber.
  destruct (FindStringSubmatch fileRegex (TrimSpace text))
    as [|w [|m1 rest]].
  3: { unfold flush; cbn. rewrite app_nil_r. reflexivity. }
  all: destruct (FindStringSubmatch trackRegex (TrimSpace text))
         as [|w' [|m1' rest']].
  3,6: unfold flush at 1; cbn; rewrite map_app; reflexivity.
  all: rewrite app_nil_r; destruct (currentTrack st) as [t|] eqn:Hcur;
       [| reflexivity].
  all: destruct (FindStringSubmatch titleRegex (TrimSpace text))
         as [|? [|? ?]];
       try destruct (FindStringSubmatch indexRegex (TrimSpace text))
         as [|? [|? ?]].
  all: unfold flush; cbn; rewrite ?Hcur, ?map_app; reflexivity.
Qed.

Lemma flush_numbers tokens : forall st,
  map Track.Number (flush (fold_left parseLine tokens st))
  = (map Track.Number (flush st)
     ++ map trackNumber (List.filter isTrackLine tokens))%list.
Proof.
  induction tokens as [|text tokens IH]; intros st; cbn [fold_left List.filter].
  - cbn. rewrite app_nil_r. reflexivity.
  - rewrite IH, flush_numbers_step.
    destruct (isTrackLine text); cbn; rewrite <- app_assoc; reflexivity.
Qed.

(** The lines in front of the first TRACK line leave no trace in the
    tracks. *)
Lemma fold_parseLine_prefix pre : forall st,
  existsb isTrackLine pre = false ->
  currentTrack st = None ->
  currentTrack (fold_left parseLine pre st) = None
  /\ Tracks (cue (fold_left parseLine pre st)) = Tracks (cue st).
Proof.
  induction pre as [|text pre IH]; intros st Hno Hcur; cbn [fold_left].
  - auto.
  - cbn in Hno. apply orb_false_iff in Hno. destruct Hno as [Ht Hno].
    assert (Hstep : currentTrack (parseLine st text) = None
                    /\ Tracks (cue (parseLine st text)) = Tracks (cue st)).
    { unfold parseLine, isTrackLine in *.
      destruct (FindStringSubmatch fileRegex (TrimSpace text))
        as [|w [|m1 rest]].
      3: cbn; split; [assumption | reflexivity].
      all: destruct (FindStringSubmatch trackRegex (TrimSpace text))
             as [|w' [|m1' rest']]; try discriminate.
      all: rewrite Hcur; split; [assumption | reflexivity]. }
    destruct Hstep as [H1 H2].
    destruct (IH _ Hno H1) as [H3 H4]. rewrite H4, H2. auto.
Qed.

Lemma parseLine_cue_irrelevant st st' text :
  currentTrack st = currentTrack st' ->
  Tracks (cue st) = Tracks (cue st') ->
  currentTrack (parseLine st text) = currentTrack (parseLine st' text)
  /\ Tracks (cue (parseLine st text)) = Tracks (cue (parseLine st' text)).
Proof.
  intros Hc Ht. unfold parseLine.
  destruct (FindStringSubmatch fileRegex (TrimSpace text))
    as [|w [|m1 rest]].
  3: cbn; split; congruence.
  all: destruct (FindStringSubmatch trackRegex (TrimSpace text))
         as [|w' [|m1' rest']].
  3,6: unfold flush; cbn; rewrite Hc, Ht; split; reflexivity.
  all: rewrite <- Hc; destruct (currentTrack st) as [t|] eqn:E;
       [| split; congruence].
  all: destruct (FindStringSubmatch titleRegex (TrimSpace text))
         as [|? [|? ?]];
       try destruct (FindStringSubmatch indexRegex (TrimSpace text))
         as [|? [|? ?]]; cbn; split; congruence.
Qed.

Lemma fold_parseLine_cue_irrelevant tokens : forall st st',
  currentTrack st = currentTrack st' ->
  Tracks (cue st) = Tracks (cue st') ->
  flush (fold_left parseLine tokens st)
  = flush (fold_left parseLine tokens st').
Proof.
  induction tokens as [|text tokens IH]; intros st st' Hc Ht; cbn [fold_left].
  - unfold flush. rewrite Hc, Ht. reflexivity.
  - destruct (parseLine_cue_irrelevant st st' text Hc Ht) as [H1 H2].
    apply IH; assumption.
Qed.

Section ParserMore.

Variable readTextFileContent : string -> result string string.
Variable TradToSim : string -> string.
Variable statIsNotExist : string -> bool.
Variable filepath_Dir : string -> string.
Variable filepath_Join : string -> string -> string.

(** Every TRACK line of a cue sheet gives exactly one track, in the order
    of the lines and with the number written on the line; no other line
    gives a track. *)
Theorem parseCueFile_track_numbers cuePath content tokens cueSheet :
  readTextFileContent cuePath = Ok content ->
  bufio.Scanner content = (tokens, None) ->
  parseCueFile readTextFileContent cuePath = Ok cueSheet ->
  map Track.Number (Tracks cueSheet)
  = map trackNumber (List.filter isTrackLine tokens).
Proof using Type.
  unfold parseCueFile. intros -> ->.
  pose proof (flush_numbers tokens parseInit) as H.
  destruct (flush (fold_left parseLine tokens parseInit)); [discriminate |].
  intros [= <-]. cbn [Tracks]. exact H.
Qed.

(** Whatever stands in front of the first TRACK line, TITLE and INDEX
    lines included, does not show in the tracks: the sheet gives the tracks
    it gives without those lines. *)
Theorem parseCueFile_ignores_preamble cuePath content pre rest cueSheet :
  readTextFileContent cuePath = Ok content ->
  bufio.Scanner content = ((pre ++ rest)%list, None) ->
  existsb isTrackLine pre = false ->
  parseCueFile readTextFileContent cuePath = Ok cueSheet ->
  Tracks cueSheet = flush (fold_left parseLine rest parseInit).
Proof using Type.
  unfold parseCueFile. intros -> -> Hpre.
  rewrite fold_left_app.
  destruct (fold_parseLine_prefix pre parseInit Hpre eq_refl) as [H1 H2].
  rewrite (fold_parseLine_cue_irrelevant rest _ parseInit H1 H2).
  destruct (flush (fold_left parseLine rest parseInit)); [discriminate |].
  intros [= <-]. reflexivity.
Qed.

Lemma splitGuest_frame albumArtist track :
  artistOfAlbum albumArtist (Track.Artist track) ->
  let r := splitGuest TradToSim albumArtist track in
  Track.Album r = Track.Album track
  /\ Track.AlbumArtist r = Track.AlbumArtist track
  /\ Track.Year r = Track.Year track
  /\ Track.OnlineID r = Track.OnlineID track
  /\ Track.Lyrics r = Track.Lyrics track
  /\ artistOfAlbum albumArtist (Track.Artist r).
Proof using Type.
  intros Ha. unfold splitGuest.
  destruct (_ || _).
  - destruct (FindStringSubmatch reFt (Track.Title track))
      as [|? [|m1 [|m2 ?]]]; cbn; repeat split; auto.
    right. eexists. reflexivity.
  - cbn. repeat split; auto. left. reflexivity.
Qed.

Lemma buildTrack_carries_album album cueTracks (i : nat) cueTrack :
  let t := buildTrack TradToSim album cueTracks i cueTrack in
  Track.Album t = Album.Title album
  /\ Track.AlbumArtist t = Album.Artist album
  /\ Track.Year t = Album.Year album
  /\ Track.OnlineID t = 0
  /\ Track.Lyrics t = EmptyString
  /\ artistOfAlbum (Album.Artist album) (Track.Artist t).
Proof using Type.
  cbn zeta. unfold buildTrack.
  match goal with
  | |- context [splitGuest TradToSim ?a ?tr] =>
      pose proof (splitGuest_frame a tr (or_introl eq_refl)) as H;
      cbv zeta in H; cbn [Track.Album Track.AlbumArtist Track.Year
                          Track.OnlineID Track.Lyrics Track.Artist] in H
  end.
  destruct (cueTracks !! (i + 1)%nat); cbn; exact H.
Qed.

(** Every track of a disc carries the album's title, artist and year, the
    number of its cue track, no online id and no lyrics; its artist is the
    album artist, alone or followed by a comma and guest names.  The disc
    has the number and the cue path it was asked for. *)
Theorem processCueFile_track_fields cuePath album discNumber disc :
  processCueFile readTextFileContent TradToSim statIsNotExist filepath_Dir
    filepath_Join cuePath album discNumber = Ok disc ->
  Disc.DiscNumber disc = discNumber
  /\ Disc.CuePath disc = cuePath
  /\ forall (i : nat) t,
       Disc.Tracks disc !! i = Some t ->
       Track.Album t = Album.Title album
       /\ Track.AlbumArtist t = Album.Artist album
       /\ Track.Year t = Album.Year album
       /\ Track.OnlineID t = 0
       /\ Track.Lyrics t = EmptyString
       /\ artistOfAlbum (Album.Artist album) (Track.Artist t).
Proof using Type.
  unfold processCueFile.
  destruct (parseCueFile readTextFileContent cuePath) as [cueSheet|e];
    [| discriminate].
  destruct (statIsNotExist _); [discriminate |].
  intros [= <-]. cbn [Disc.DiscNumber Disc.CuePath Disc.Tracks].
  split; [reflexivity |]. split; [reflexivity |].
  intros i t. rewrite list_lookup_imap.
  destruct (Tracks cueSheet !! i) as [c|]; [| discriminate].
  cbn. intros [= <-]. apply buildTrack_carries_album.
Qed.

(** A sheet without a FILE line is not refused: the audio path that is
    checked, and stored in the disc, is the join of the cue's directory and
    the empty name. *)
Theorem processCueFile_without_file_line cuePath content tokens album
    discNumber :
  readTextFileContent cuePath = Ok content ->
  bufio.Scanner content = (tokens, None) ->
  existsb isFileLine tokens = false ->
  existsb isTrackLine tokens = true ->
  if statIsNotExist (filepath_Join (filepath_Dir cuePath) EmptyString)
  then processCueFile readTextFileContent TradToSim statIsNotExist
         filepath_Dir filepath_Join cuePath album discNumber
       = Err (ErrWavNotFound
                (filepath_Join (filepath_Dir cuePath) EmptyString))
  else exists disc,
      processCueFile readTextFileContent TradToSim statIsNotExist
        filepath_Dir filepath_Join cuePath album discNumber = Ok disc
      /\ Disc.WavPath disc
         = filepath_Join (filepath_Dir cuePath) EmptyString.
Proof using Type.
  intros Hread Hscan Hnf Htr. unfold processCueFile, parseCueFile.
  rewrite Hread, Hscan.
  pose proof (fold_parseLine_flush tokens parseInit) as Hfl.
  destruct (flush (fold_left parseLine tokens parseInit)) eqn:Hf.
  - destruct Hfl as [Hfl _]. destruct (Hfl eq_refl) as [_ H]. congruence.
  - cbn [WavFile]. rewrite (fold_parseLine_WavFile tokens parseInit Hnf).
    cbn [WavFile cue parseInit].
    destruct (statIsNotExist _); [reflexivity |].
    eexists. split; reflexivity.
Qed.

End ParserMore.

Lemma parseCueFile_track_numbers_witness :
  exists cueSheet,
    parseCueFile (demoRead (unlines (sheetPreamble ++ sheetBody)))
      "/download/album/album.cue" = Ok cueSheet
    /\ map Track.Number (Tracks cueSheet) = [7; 9].
Proof.
  eexists. split; [vm_compute; reflexivity |].
  apply (parseCueFile_track_numbers
           (demoRead (unlines (sheetPreamble ++ sheetBody)))
           "/download/album/album.cue"
           (unlines (sheetPreamble ++ sheetBody))
           (sheetPreamble ++ sheetBody));
    vm_compute; reflexivity.
Defined.

Lemma parseCueFile_ignores_preamble_witness :
  existsb isTrackLine sheetPreamble = false
  /\ exists cueSheet,
       parseCueFile (demoRead (unlines (sheetPreamble ++ sheetBody)))
         "/download/album/album.cue" = Ok cueSheet
       /\ Tracks cueSheet = flush (fold_left parseLine sheetBody parseInit)
       /\ map Track.Title (Tracks cueSheet) = ["One"; EmptyString].
Proof.
  split; [vm_compute; reflexivity |].
  eexists. split; [vm_compute; reflexivity |].
  split; [| vm_compute; reflexivity].
  apply (parseCueFile_ignores_preamble
           (demoRead (unlines (sheetPreamble ++ sheetBody)))
           "/download/album/album.cue"
           (unlines (sheetPreamble ++ sheetBody))
           sheetPreamble sheetBody);
    vm_compute; reflexivity.
Defined.

Lemma processCueFile_track_fields_witness :
  exists disc,
    demoProcess (unlines (sheetPreamble ++ sheetBody)) = Ok disc
    /\ Disc.DiscNumber disc = 1
    /\ map Track.Album (Disc.Tracks disc) = ["Title"; "Title"]
    /\ forall (i : nat) t,
         Disc.Tracks disc !! i = Some t ->
         Track.Album t = "Title"
         /\ Track.AlbumArtist t = "Main"
         /\ Track.Year t = "1999"
         /\ Track.OnlineID t = 0
         /\ Track.Lyrics t = EmptyString
         /\ artistOfAlbum "Main" (Track.Artist t).
Proof.
  eexists. split; [vm_compute; reflexivity |].
  split; [reflexivity |]. split; [vm_compute; reflexivity |].
  apply (processCueFile_track_fields
           (demoRead (unlines (sheetPreamble ++ sheetBody)))
           demoConvert demoExists
           demoDir demoJoin "/download/album/album.cue" demoAlbum 1).
  vm_compute; reflexivity.
Defined.

Lemma processCueFile_without_file_line_witness :
  exists disc,
    demoProcess sheetNoFile = Ok disc
    /\ Disc.WavPath disc = "/download/album/".
Proof.
  apply (processCueFile_without_file_line (demoRead sheetNoFile) demoConvert
           demoExists demoDir demoJoin "/download/album/album.cue"
           sheetNoFile (fst (bufio.Scanner sheetNoFile)) demoAlbum 1);
    vm_compute; reflexivity.
Defined.

(** ** The stability detector: further properties *)

Section DetectorMore.

Variable filepath_Join : string -> string -> string.
Variable relevant : string -> string -> bool.
Variable dir : string.
Variables quietDuration maxWait : Duration.

Local Abbreviation scan' :=
  (scanEntries filepath_Join relevant dir quietDuration).
Local Abbreviation check' :=
  (checkOnce filepath_Join relevant dir quietDuration).

Lemma scanEntries_passedBy now prev entries : forall st,
  forallb (passedBy filepath_Join relevant dir) entries = true ->
  scan' now prev entries st = st.
Proof using Type.
  induction entries as [|e entries IH]; intros st H; cbn [scanEntries];
    [reflexivity |].
  cbn [forallb] in H. apply andb_true_iff in H. destruct H as [He H].
  unfold passedBy in He.
  destruct (IsDir e); [apply IH, H |]. cbn [orb] in He.
  destruct (Info e) as [info| |]; [| apply IH, H | discriminate].
  apply negb_true_iff in He. rewrite He. apply IH, H.
Qed.

(** A listing without a relevant file ends the wait at once with true,
    whatever the polls before have seen: a directory that is empty, or
    holds only subdirectories and other files, is not waited for. *)
Theorem no_relevant_file_no_wait prog start p polls ps entries :
  Time_Sub (guardTime p) start < maxWait ->
  listing p = Ok entries ->
  forallb (passedBy filepath_Join relevant dir) entries = true ->
  waitLoop prog filepath_Join relevant dir quietDuration maxWait start
    (p :: polls) ps
  = Stable (checkTime p) ∅.
Proof using Type.
  intros Hg Hl Hp. apply Z.ltb_lt in Hg.
  assert (Hc : check' (checkTime p) entries ps
               = (mkPollState ∅ (fileQuietTimes ps),
                  Some (Stable (checkTime p) ∅))).
  { unfold checkOnce. rewrite scanEntries_passedBy by exact Hp. reflexivity. }
  destruct prog; cbn [waitLoop Main_waitLoop Sched_waitLoop];
    rewrite Hg, Hl, Hc; reflexivity.
Qed.

Lemma scanEntries_unreadable now prev entries : forall st,
  existsb unreadable entries = true ->
  allRelevantFilesQuiet (scan' now prev entries st) = false
  /\ hasRelevantFiles (scan' now prev entries st) = true.
Proof using Type.
  induction entries as [|e entries IH]; intros st H; [discriminate |].
  cbn [existsb] in H. cbn [scanEntries].
  destruct (unreadable e) eqn:He.
  - unfold unreadable in He. apply andb_true_iff in He.
    destruct He as [Hd Hi]. apply negb_true_iff in Hd. rewrite Hd.
    destruct (Info e); try discriminate. split; reflexivity.
  - cbn [orb] in H.
    destruct (IsDir e); [apply IH, H |].
    destruct (Info e) as [info| |]; [| apply IH, H |].
    + destruct (relevant _ _); apply IH, H.
    + split; reflexivity.
Qed.

(** A poll that meets a file whose data cannot be read does not declare
    the directory stable, relevant or not the file, and whatever the
    other files are. *)
Lemma checkOnce_unreadable now entries ps :
  existsb unreadable entries = true ->
  snd (check' now entries ps) = None.
Proof using Type.
  intros H. unfold checkOnce.
  match goal with
  | |- context [scan' now ?prev entries ?st] =>
      destruct (scanEntries_unreadable now prev entries st H) as [Hq Hh]
  end.
  rewrite Hq, Hh. reflexivity.
Qed.

(** While every listing holds a file whose data cannot be read, relevant
    or not, the wait never ends with true: it ends with false, or is still
    polling when the observations end. *)
Theorem unreadable_file_never_stable prog start polls : forall ps,
  keepsFailing polls ->
  returned (waitLoop prog filepath_Join relevant dir quietDuration maxWait
              start polls ps) = Some false
  \/ returned (waitLoop prog filepath_Join relevant dir quietDuration maxWait
                 start polls ps) = None.
Proof using Type.
  assert (Hstep : forall now entries ps,
             existsb unreadable entries = true ->
             exists ps', check' now entries ps = (ps', None)).
  { intros now entries ps H.
    pose proof (checkOnce_unreadable now entries ps H) as Hs.
    destruct (check' now entries ps) as [ps' v]. cbn in Hs. subst v.
    eexists. reflexivity. }
  induction polls as [|p polls IH]; intros ps Hall.
  - destruct prog; cbn; auto.
  - apply Forall_cons in Hall. destruct Hall as [Hp Hall].
    destruct prog; cbn [waitLoop Main_waitLoop Sched_waitLoop] in *;
      (destruct (_ <? maxWait); [| cbn; auto]);
      (destruct (listing p) as [entries|];
       [ destruct (Hstep (checkTime p) entries ps Hp) as [ps' ->];
         apply IH, Hall
       | first [ apply IH, Hall | cbn; auto ] ]).
Qed.

(** The detector of pkg/scheduler gives up only when the maximum wait has
    passed: it answers false at the first poll whose clock reading is
    [maxWait] or more after the start, and at no other. *)
Theorem Sched_gives_up_only_at_maxWait start : forall polls ps,
  Sched_waitLoop filepath_Join relevant dir quietDuration maxWait start
    polls ps = Unstable ->
  exists before p after,
    polls = (before ++ p :: after)%list
    /\ maxWait <= Time_Sub (guardTime p) start
    /\ Forall (fun q => Time_Sub (guardTime q) start < maxWait) before.
Proof using Type.
  induction polls as [|p polls IH]; intros ps; cbn [Sched_waitLoop];
    [discriminate |].
  destruct (_ <? maxWait) eqn:Hg.
  - apply Z.ltb_lt in Hg. intros H.
    assert (Hrest : exists ps', Sched_waitLoop filepath_Join relevant dir
                      quietDuration maxWait start polls ps' = Unstable).
    { destruct (listing p) as [entries|]; [| eauto].
      destruct (check' (checkTime p) entries ps) as [ps' [v|]] eqn:Hc;
        [| eauto].
      destruct (checkOnce_verdict _ _ _ _ _ _ _ _ _ Hc) as [pr ->].
      discriminate. }
    destruct Hrest as [ps' Hrest].
    destruct (IH ps' Hrest) as (before & q & after & -> & Hq & Hb).
    exists (p :: before), q, after. repeat split; auto.
  - apply Z.ltb_ge in Hg. intros _.
    exists [], p, polls. repeat split; auto.
Qed.

(** The quiet times a poll leaves lie between the earliest quiet time it
    found and its own time. *)
Lemma scanEntries_range now prev T0 entries : forall st,
  T0 <= now ->
  (forall f q, quietTimes st !! f = Some q -> T0 <= q <= now) ->
  forall f q,
    quietTimes (scan' now prev entries st) !! f = Some q -> T0 <= q <= now.
Proof using Type.
  induction entries as [|e entries IH]; intros st Hle Hst; cbn [scanEntries];
    [exact Hst |].
  assert (Hins : forall g cur a h,
            forall f q,
              quietTimes (mkEntryState a h cur (<[g := now]> (quietTimes st)))
                !! f = Some q -> T0 <= q <= now).
  { intros g cur a h f q. cbn [quietTimes].
    destruct (decide (g = f)) as [->|Hne].
    - rewrite lookup_insert_eq. intros [= <-]. lia.
    - rewrite lookup_insert_ne by exact Hne. apply Hst. }
  destruct (IsDir e); [apply IH; assumption |].
  destruct (Info e) as [info| |]; [| apply IH; assumption | exact Hst].
  destruct (relevant _ _); [| apply IH; assumption].
  destruct (match prev !! _ with Some _ => _ | None => true end).
  - apply IH; [exact Hle | apply Hins].
  - destruct (quietTimes st !! _) as [last|].
    + destruct (_ <? quietDuration); apply IH; assumption.
    + apply IH; [exact Hle | apply Hins].
Qed.

Lemma checkOnce_range now T0 tlast entries ps :
  T0 <= tlast <= now ->
  (forall f q, fileQuietTimes ps !! f = Some q -> T0 <= q <= tlast) ->
  forall f q,
    fileQuietTimes (fst (check' now entries ps)) !! f = Some q ->
    T0 <= q <= now.
Proof using Type.
  intros Hle Hps.
  assert (H : forall f q,
            quietTimes (scan' now (previousFileStates ps) entries
                          (mkEntryState true false ∅ (fileQuietTimes ps)))
              !! f = Some q -> T0 <= q <= now).
  { apply scanEntries_range; [lia |]. cbn [quietTimes].
    intros f q Hq. specialize (Hps f q Hq). lia. }
  unfold checkOnce.
  destruct (negb _); [exact H |]. destruct (_ && _); exact H.
Qed.

(** A file listed by the poll that declares the directory stable has a
    quiet time. *)
Lemma checkOnce_present now entries ps ps' t present f :
  check' now entries ps = (ps', Some (Stable t present)) ->
  is_Some (present !! f) ->
  is_Some (fileQuietTimes ps' !! f).
Proof using Type.
  unfold checkOnce.
  match goal with
  | |- context [scan' now ?prev entries ?st] =>
      pose proof (scanEntries_dom filepath_Join relevant dir quietDuration
                    now prev entries st) as Hdom
  end.
  cbn [currentFileStates] in Hdom.
  assert (Hd := fun f => Hdom ltac:(intros g [x Hx];
                                     rewrite lookup_empty in Hx;
                                     discriminate) f).
  destruct (negb _).
  - intros [= <- <- <-]. apply Hd.
  - destruct (_ && _); [| discriminate]. intros [= <- <- <-]. apply Hd.
Qed.

Lemma waitLoop_range prog start T0 f : forall polls ps tlast t present,
  T0 <= tlast ->
  (forall g q, fileQuietTimes ps !! g = Some q -> T0 <= q <= tlast) ->
  clockFrom tlast polls ->
  waitLoop prog filepath_Join relevant dir quietDuration maxWait start
    polls ps = Stable t present ->
  is_Some (present !! f) ->
  T0 + quietDuration <= t.
Proof using Type.
  induction polls as [|p polls IH]; intros ps tlast t present Hle Hps Hclock.
  - destruct prog; discriminate.
  - destruct Hclock as [Hnow Hclock].
    assert (Hnext : forall entries,
              forall g q,
                fileQuietTimes (fst (check' (checkTime p) entries ps)) !! g
                = Some q -> T0 <= q <= checkTime p).
    { intros entries. apply (checkOnce_range _ T0 tlast); [lia | exact Hps]. }
    assert (Hok : forall entries,
              match check' (checkTime p) entries ps with
              | (_, Some v) => v
              | (ps', None) =>
                  waitLoop prog filepath_Join relevant dir quietDuration
                    maxWait start polls ps'
              end = Stable t present ->
              is_Some (present !! f) -> T0 + quietDuration <= t).
    { intros entries. specialize (Hnext entries).
      destruct (check' (checkTime p) entries ps) as [ps' [v|]] eqn:Hc;
        cbn [fst] in Hnext.
      - intros -> Hpres.
        destruct (checkOnce_present _ _ _ _ _ _ _ Hc Hpres) as [q Hq].
        destruct (Hnext f q Hq) as [H0 H1].
        destruct (checkOnce_stable filepath_Join relevant dir quietDuration
                    _ _ _ _ _ _ _ _ Hc Hpres Hq H1) as [-> H].
        lia.
      - apply (IH ps' (checkTime p)); [lia | exact Hnext | exact Hclock]. }
    destruct prog; cbn [waitLoop Main_waitLoop Sched_waitLoop] in *;
      (destruct (_ <? maxWait); [| discriminate]);
      (destruct (listing p) as [entries|];
       [ apply Hok
       | first [ discriminate
               | apply (IH ps (checkTime p));
                 [lia | intros g q Hq; specialize (Hps g q Hq); lia
                 | exact Hclock] ] ]).
Qed.

(** A wait that starts with both maps empty, as the program's does, never
    declares a directory with a relevant file in it stable earlier than
    [quietDuration] after its first poll: the shortest wait for a
    directory that is not empty is the quiet duration. *)
Theorem stable_not_before_first_poll prog start p polls t present f :
  clockFrom (checkTime p) polls ->
  waitLoop prog filepath_Join relevant dir quietDuration maxWait start
    (p :: polls) pollInit = Stable t present ->
  is_Some (present !! f) ->
  checkTime p + quietDuration <= t.
Proof using Type.
  intros Hclock. apply (waitLoop_range prog start (checkTime p) f
                          (p :: polls) pollInit (checkTime p)).
  - lia.
  - intros g q. cbn. rewrite lookup_empty. discriminate.
  - split; [lia | exact Hclock].
Qed.

End DetectorMore.

Lemma no_relevant_file_no_wait_witness :
  waitLoop PkgScheduler demoJoin relevant_pkg demoDir_album (seconds 60)
    (seconds 43200) 0 [mkPoll (seconds 5) (seconds 5) (Ok [subdir; notes])]
    (mkPollState {[aWavPath := mkFileInfo 1024 0]} {[aWavPath := 0]})
  = Stable (seconds 5) ∅.
Proof.
  apply (no_relevant_file_no_wait demoJoin relevant_pkg demoDir_album
           (seconds 60) (seconds 43200) PkgScheduler 0
           (mkPoll (seconds 5) (seconds 5) (Ok [subdir; notes])) []
           (mkPollState {[aWavPath := mkFileInfo 1024 0]} {[aWavPath := 0]})
           [subdir; notes]);
    [vm_compute; reflexivity | reflexivity | vm_compute; reflexivity].
Defined.

Lemma unreadable_file_never_stable_witness :
  returned
    (waitLoop MainGo demoJoin relevant_main demoDir_album (seconds 60)
       (seconds 60) 0
       [mkPoll 0 0 (Ok [aWav; locked]);
        mkPoll (seconds 90) (seconds 90) (Ok [aWav; locked])]
       pollInit)
  = Some false.
Proof.
  destruct (unreadable_file_never_stable demoJoin relevant_main
              demoDir_album (seconds 60) (seconds 60) MainGo 0
              [mkPoll 0 0 (Ok [aWav; locked]);
               mkPoll (seconds 90) (seconds 90) (Ok [aWav; locked])]
              pollInit ltac:(repeat constructor)) as [H|H];
    [exact H | vm_compute in H; discriminate H].
Defined.

Lemma Sched_gives_up_only_at_maxWait_witness :
  exists before p after,
    pollsListError = (before ++ p :: after)%list
    /\ seconds 5 <= Time_Sub (guardTime p) 0
    /\ Forall (fun q => Time_Sub (guardTime q) 0 < seconds 5) before.
Proof.
  apply (Sched_gives_up_only_at_maxWait demoJoin relevant_pkg demoDir_album
           (seconds 60) (seconds 5) 0 pollsListError pollInit).
  vm_compute; reflexivity.
Defined.

Lemma stable_not_before_first_poll_witness :
  is_Some (({[aWavPath := mkFileInfo 1024 0]} : gmap string fileInfo)
           !! aWavPath)
  /\ waitLoop PkgScheduler demoJoin relevant_pkg demoDir_album (seconds 60)
       (seconds 43200) 0 (mkPoll 0 0 (Ok [aWav]) :: pollsSteadyTail 14)
       pollInit
     = Stable (seconds 60) {[aWavPath := mkFileInfo 1024 0]}
  /\ checkTime (mkPoll 0 0 (Ok [aWav])) + seconds 60 <= seconds 60.
Proof.
  assert (Hclock : clockFrom 0 (pollsSteadyTail 14))
    by (vm_compute; repeat split; discriminate).
  assert (Hrun : waitLoop PkgScheduler demoJoin relevant_pkg demoDir_album
                   (seconds 60) (seconds 43200) 0
                   (mkPoll 0 0 (Ok [aWav]) :: pollsSteadyTail 14) pollInit
                 = Stable (seconds 60) {[aWavPath := mkFileInfo 1024 0]})
    by (vm_compute; reflexivity).
  assert (Hpres : is_Some (({[aWavPath := mkFileInfo 1024 0]}
                            : gmap string fileInfo) !! aWavPath))
    by (rewrite lookup_singleton_eq; eauto).
  split; [exact Hpres |]. split; [exact Hrun |].
  exact (stable_not_before_first_poll demoJoin relevant_pkg demoDir_album
           (seconds 60) (seconds 43200) PkgScheduler 0
           (mkPoll 0 0 (Ok [aWav])) (pollsSteadyTail 14) (seconds 60)
           {[aWavPath := mkFileInfo 1024 0]} aWavPath Hclock Hrun Hpres).
Defined.

Lemma Sched_stable_not_before_quiet_witness :
  observedChange demoJoin relevant_pkg demoDir_album
    (previousFileStates pollInit) [aWav] aWavPath
  /\ Sched_waitLoop demoJoin relevant_pkg demoDir_album (seconds 60)
       (seconds 43200) 0 (mkPoll 0 0 (Ok [aWav]) :: pollsSteadyTail 14)
       pollInit
     = Stable (seconds 60) {[aWavPath := mkFileInfo 1024 0]}
  /\ 0 + seconds 60 <= seconds 60.
Proof.
  assert (Hobs : observedChange demoJoin relevant_pkg demoDir_album
                   (previousFileStates pollInit) [aWav] aWavPath).
  { exists [], aWav, [], (mkFileInfo 1024 0).
    repeat split; try reflexivity. constructor. }
  assert (Hclock : clockFrom 0 (pollsSteadyTail 14))
    by (vm_compute; repeat split; discriminate).
  assert (Hrun : Sched_waitLoop demoJoin relevant_pkg demoDir_album
                   (seconds 60) (seconds 43200) 0
                   (mkPoll 0 0 (Ok [aWav]) :: pollsSteadyTail 14) pollInit
                 = Stable (seconds 60) {[aWavPath := mkFileInfo 1024 0]})
    by (vm_compute; reflexivity).
  assert (Hpres : is_Some (({[aWavPath := mkFileInfo 1024 0]}
                            : gmap string fileInfo) !! aWavPath))
    by (rewrite lookup_singleton_eq; eauto).
  split; [exact Hobs |]. split; [exact Hrun |].
  exact (Sched_stable_not_before_quiet demoJoin relevant_pkg demoDir_album
           (seconds 60) (seconds 43200) 0 pollInit (mkPoll 0 0 (Ok [aWav]))
           (pollsSteadyTail 14) [aWav] aWavPath (seconds 60)
           {[aWavPath := mkFileInfo 1024 0]} eq_refl Hobs Hclock Hrun Hpres).
Defined.

(** ** The two relevance tests *)

Lemma Ext_none s :
  Contains s (String slash EmptyString) = false -> Ext s = EmptyString ->
  every notdot s = true.
Proof.
  induction s as [|c s IH]; [reflexivity |].
  cbn [Contains HasPrefix Ext every]. intros Hc He.
  apply orb_false_iff in Hc. destruct Hc as [Hc0 Hc]. rewrite Hc in He.
  destruct (Ext s) eqn:E; [| discriminate].
  unfold notdot. destruct (byte_eqb c "."); [discriminate |].
  cbn. apply IH; [exact Hc | reflexivity].
Qed.

(** An extension is empty, or a dot followed by bytes that are not dots. *)
Lemma Ext_dotted s :
  Ext s = EmptyString
  \/ exists r, Ext s = String "." r /\ every notdot r = true.
Proof.
  induction s as [|c s IH]; [left; reflexivity |].
  cbn [Ext]. destruct (Contains s (String slash EmptyString)) eqn:Hc;
    [exact IH |].
  destruct (Ext s) eqn:E.
  - destruct (byte_eqb c ".") eqn:Hdot; [| left; reflexivity].
    right. apply byte_eqb_eq in Hdot. subst c.
    exists s. split; [reflexivity |]. apply Ext_none; assumption.
  - exact IH.
Qed.

Lemma lower_byte_notdot c : notdot c = true -> notdot (lower_byte c) = true.
Proof.
  destruct c as [b0 b1 b2 b3 b4 b5 b6 b7].
  destruct b0, b1, b2, b3, b4, b5, b6, b7; intros H;
    first [discriminate H | reflexivity].
Qed.

Lemma ToLower_notdot n : forall r,
  (String.length r <= n)%nat ->
  every notdot r = true -> every notdot (ToLower r) = true.
Proof.
  induction n as [|n IH]; intros r Hlen Hr.
  - destruct r; [reflexivity | cbn in Hlen; lia].
  - destruct r as [|c [|c1 [|c2 rest2]]]; [reflexivity | | |];
      cbn [every] in Hr; cbn [String.length] in Hlen;
      repeat (apply andb_true_iff in Hr;
              let H := fresh "Hc" in destruct Hr as [H Hr]).
    + cbn. rewrite lower_byte_notdot by assumption. reflexivity.
    + assert (H1 : every notdot (ToLower (String c1 EmptyString)) = true)
        by (apply IH; [cbn; lia | cbn [every]; rewrite Hc0; reflexivity]).
      cbn [ToLower] in H1 |- *.
      destruct (_ && _); [reflexivity |].
      cbn [every]. rewrite lower_byte_notdot by assumption. exact H1.
    + assert (H1 : every notdot (ToLower (String c1 (String c2 rest2)))
                   = true).
      { apply IH; [cbn [String.length]; lia |].
        cbn [every]. rewrite Hc0, Hc1, Hr. reflexivity. }
      assert (H2 : every notdot (ToLower (String c2 rest2)) = true).
      { apply IH; [cbn [String.length]; lia |].
        cbn [every]. rewrite Hc1, Hr. reflexivity. }
      assert (H3 : every notdot (ToLower rest2) = true)
        by (apply IH; [lia | exact Hr]).
      change (ToLower (String c (String c1 (String c2 rest2))))
        with (if byte_eqb c (ascii_of_nat 196%nat)
                 && byte_eqb c1 (ascii_of_nat 176%nat)
              then String "i" (ToLower (String c2 rest2))
              else if byte_eqb c (ascii_of_nat 226%nat)
                      && byte_eqb c1 (ascii_of_nat 132%nat)
                      && byte_eqb c2 (ascii_of_nat 170%nat)
                   then String "k" (ToLower rest2)
                   else String (lower_byte c)
                          (ToLower (String c1 (String c2 rest2)))).
      destruct (_ && _); [cbn [every]; rewrite H2; reflexivity |].
      destruct (_ && _); [cbn [every]; rewrite H3; reflexivity |].
      cbn [every]. rewrite lower_byte_notdot by assumption. exact H1.
Qed.

Lemma ToLower_dot r :
  ToLower (String "." r) = String "." (ToLower r).
Proof. destruct r as [|c1 [|c2 rest2]]; reflexivity. Qed.

Lemma HasSuffix_aux_notdot r suf :
  every notdot r = true -> HasSuffix_aux r (String "." suf) = false.
Proof.
  induction r as [|c r IH]; [reflexivity |].
  cbn [every]. rewrite andb_true_iff. intros [Hc Hr].
  cbn [HasSuffix_aux]. rewrite (IH Hr), orb_false_r.
  unfold notdot, byte_eqb in Hc. apply negb_true_iff in Hc.
  cbn [String.eqb]. rewrite Hc. reflexivity.
Qed.

(** On the lower-cased extension of a name, ending in a dotted suffix is
    being that suffix. *)
Lemma HasSuffix_Ext name suf :
  HasSuffix (ToLower (Ext name)) (String "." suf)
  = String.eqb (ToLower (Ext name)) (String "." suf).
Proof.
  unfold HasSuffix.
  destruct (Ext_dotted name) as [->|(r & -> & Hr)]; [reflexivity |].
  rewrite ToLower_dot. cbn [HasSuffix_aux].
  rewrite HasSuffix_aux_notdot, orb_false_r; [reflexivity |].
  apply (ToLower_notdot (String.length r)); [lia | exact Hr].
Qed.

(** The relevance test written out in main.go and [IsRelevantMusicFile]
    of pkg/util give the same answer for a file, when the path the test
    is given has the entry's name as its last element. *)
Theorem relevance_tests_agree filePath entryName :
  Ext filePath = Ext entryName ->
  Base filePath = entryName ->
  relevant_main filePath entryName = relevant_pkg filePath entryName.
Proof.
  intros HE HB.
  unfold relevant_main, relevant_pkg, IsRelevantMusicFile, isAudioFile.
  rewrite HE, HB. cbv zeta.
  change ".cue"%string with (String "." "cue").
  change ".json"%string with (String "." "json").
  change ".jpg"%string with (String "." "jpg").
  change ".png"%string with (String "." "png").
  rewrite !HasSuffix_Ext.
  unfold str_in. cbn [existsb].
  destruct (existsb (String.eqb (ToLower (Ext entryName))) audio_exts);
    destruct (String.eqb (ToLower entryName) "info.txt");
    destruct (String.eqb (ToLower (Ext entryName)) (String "." "cue"));
    destruct (String.eqb (ToLower (Ext entryName)) (String "." "json"));
    destruct (String.eqb (ToLower (Ext entryName)) (String "." "jpg"));
    destruct (String.eqb (ToLower (Ext entryName)) (String "." "png"));
    reflexivity.
Qed.

Lemma relevance_tests_agree_witness :
  relevant_main "/download/album/Info.TXT" "Info.TXT"
  = relevant_pkg "/download/album/Info.TXT" "Info.TXT".
Proof.
  apply (relevance_tests_agree "/download/album/Info.TXT" "Info.TXT");
    vm_compute; reflexivity.
Defined.

(** ** The scheduler: further properties *)

Lemma deactivate_lookup t ts (i : nat) tm :
  ts !! i = Some tm ->
  exists tm', deactivate t ts !! i = Some tm'
              /\ timerDir tm' = timerDir tm
              /\ (active tm' = true -> active tm = true /\ t <> i).
Proof.
  intros Hi. unfold deactivate. destruct (decide (t = i)) as [->|Hne].
  - rewrite list_lookup_alter_eq, Hi. cbn. eexists. split; [reflexivity |].
    split; [reflexivity |]. discriminate.
  - rewrite list_lookup_alter_ne by exact Hne. exists tm. auto.
Qed.

Lemma TriggerScan_wellKept dir s :
  wellKept s -> wellKept (TriggerScan dir s).
Proof.
  intros Hwf d t. unfold TriggerScan. cbn [pendingScans timers].
  set (ts := match pendingScans s !! dir with
             | Some timer => deactivate timer (timers s)
             | None => timers s
             end).
  destruct (decide (dir = d)) as [->|Hne].
  - rewrite lookup_insert_eq. intros [= <-].
    rewrite lookup_app_r, Nat.sub_diag by lia. cbn. eauto.
  - rewrite lookup_insert_ne by exact Hne. intros Hp.
    destruct (Hwf d t Hp) as (tm & Ht & Hd).
    assert (Hts : exists tm', ts !! t = Some tm' /\ timerDir tm' = d).
    { subst ts. destruct (pendingScans s !! dir) as [t0|]; [| eauto].
      destruct (deactivate_lookup t0 _ _ _ Ht) as (tm' & H1 & H2 & _).
      exists tm'. split; [exact H1 | congruence]. }
    destruct Hts as (tm' & H1 & H2). exists tm'.
    split; [| exact H2]. apply lookup_app_l_Some. exact H1.
Qed.

Lemma deactivate_lookup_inv t ts (i : nat) tm' :
  deactivate t ts !! i = Some tm' ->
  exists tm, ts !! i = Some tm
             /\ timerDir tm = timerDir tm'
             /\ (active tm' = true -> tm = tm').
Proof.
  unfold deactivate. destruct (decide (t = i)) as [->|Hne].
  - rewrite list_lookup_alter_eq.
    destruct (ts !! i) as [tm|]; [| discriminate].
    cbn. intros [= <-]. exists tm. split; [reflexivity |].
    split; [reflexivity |]. discriminate.
  - rewrite list_lookup_alter_ne by exact Hne. intros H. exists tm'. auto.
Qed.

Lemma filter_alter {A} (P : A -> bool) (f : A -> A) (l : list A) :
  forall i : nat,
    (forall x, l !! i = Some x -> P (f x) = P x) ->
    length (List.filter P (alter f i l)) = length (List.filter P l).
Proof.
  induction l as [|a l IH]; intros i H; [reflexivity |].
  destruct i as [|i]; cbn.
  - rewrite (H a eq_refl). destruct (P a); reflexivity.
  - destruct (P a); cbn; rewrite (IH i); try reflexivity;
      intros x Hx; exact (H x Hx).
Qed.

(** Scheduling one directory leaves the timers of every other directory
    as they are. *)
Lemma TriggerScan_other dir d s :
  wellKept s -> dir <> d ->
  activeTimers d (TriggerScan dir s) = activeTimers d s
  /\ (tracked d s -> tracked d (TriggerScan dir s)).
Proof.
  intros Hwf Hne.
  assert (Heqb : String.eqb dir d = false) by (apply String.eqb_neq, Hne).
  split.
  - unfold activeTimers, TriggerScan. cbn [timers].
    rewrite List.filter_app, length_app. cbn [List.filter timerDir active].
    rewrite Heqb. cbn. rewrite Nat.add_0_r.
    destruct (pendingScans s !! dir) as [t0|] eqn:Hp; [| reflexivity].
    apply filter_alter. intros x Hx.
    destruct (Hwf dir t0 Hp) as (tm & Ht & Hd).
    assert (x = tm) by congruence. subst x. cbn. rewrite Hd, Heqb.
    rewrite !andb_false_r. reflexivity.
  - intros Htr t tm. unfold TriggerScan. cbn [timers pendingScans].
    rewrite lookup_insert_ne by exact Hne.
    intros Hl Hdir Hact. apply lookup_app_Some in Hl.
    destruct Hl as [Hl|[Hle Hl]].
    + destruct (pendingScans s !! dir) as [t0|];
        [| exact (Htr t tm Hl Hdir Hact)].
      destruct (deactivate_lookup_inv _ _ _ _ Hl) as (tm0 & H0 & _ & Heq).
      pose proof (Heq Hact) as E. subst tm0. exact (Htr t tm H0 Hdir Hact).
    + match type of Hl with
      | [_] !! ?k = _ => destruct k; cbn in Hl; [| discriminate]
      end.
      injection Hl as <-. cbn in Hdir. contradiction.
Qed.

Lemma activeTimers_newScheduler d l : activeTimers d (newScheduler l) = 0%nat.
Proof. reflexivity. Qed.

Lemma newScheduler_wellKept l : wellKept (newScheduler l).
Proof. intros d t H. cbn in H. rewrite lookup_empty in H. discriminate. Qed.

Section InitialScanFacts.

Variable filepath_Join : string -> string -> string.
Variable queryFails : bool.
Variable downloadRoot : string.

Lemma InitialScan_fold entries : forall s,
  wellKept s -> (forall d, tracked d s) ->
  let s' := InitialScan filepath_Join queryFails downloadRoot (Ok entries) s in
  wellKept s' /\ (forall d, tracked d s')
  /\ ledger s' = ledger s /\ trace s' = trace s
  /\ forall d,
       activeTimers d s'
       = if toSchedule filepath_Join queryFails downloadRoot (ledger s)
              entries d
         then 1%nat else activeTimers d s.
Proof using Type.
  unfold InitialScan.
  induction entries as [|e entries IH]; intros s Hwf Htr; cbn zeta.
  - cbn [fold_left]. repeat split; auto.
  - cbn [fold_left].
    set (albumDir := filepath_Join downloadRoot (Name e)).
    set (s1 := if IsDir e then _ else s).
    assert (H1 : wellKept s1 /\ (forall d, tracked d s1)
                 /\ ledger s1 = ledger s /\ trace s1 = trace s
                 /\ forall d,
                      activeTimers d s1
                      = if IsDir e && String.eqb albumDir d
                           && negb (fst (IsAlbumProcessed queryFails
                                           (ledger s) d))
                        then 1%nat else activeTimers d s).
    { subst s1. destruct (IsDir e); cbn [andb]; [| repeat split; auto].
      destruct (IsAlbumProcessed queryFails (ledger s) albumDir)
        as [processed err] eqn:Hq.
      destruct processed; cbn [negb].
      - repeat split; auto. intros d.
        destruct (String.eqb_spec albumDir d) as [<-|]; [| reflexivity].
        rewrite Hq. reflexivity.
      - split; [apply TriggerScan_wellKept, Hwf |].
        split.
        { intros d. destruct (decide (albumDir = d)) as [<-|Hne].
          - apply TriggerScan_one_timer, Htr.
          - apply TriggerScan_other; auto. }
        split; [reflexivity |]. split; [reflexivity |].
        intros d. destruct (String.eqb_spec albumDir d) as [<-|Hne].
        + rewrite Hq. cbn. apply TriggerScan_one_timer, Htr.
        + cbn. apply TriggerScan_other; auto. }
    destruct H1 as (Hwf1 & Htr1 & Hl1 & Ht1 & Ha1).
    destruct (IH s1 Hwf1 Htr1) as (Hwf2 & Htr2 & Hl2 & Ht2 & Ha2).
    cbn zeta in Hwf2, Htr2, Hl2, Ht2, Ha2.
    split; [exact Hwf2 |]. split; [exact Htr2 |].
    split; [congruence |]. split; [congruence |].
    intros d. rewrite Ha2, Ha1, Hl1. unfold toSchedule. cbn [existsb].
    fold albumDir.
    destruct (existsb _ entries); cbn [andb orb];
      destruct (IsDir e && String.eqb albumDir d); cbn [andb orb];
      destruct (negb (fst (IsAlbumProcessed queryFails (ledger s) d)));
      reflexivity.
Qed.

(** The initial scan leaves exactly one timer to fire for each directory
    among the entries of the download root that the ledger does not
    report as processed, and none for any other path; it processes
    nothing and marks nothing.  When the ledger query fails every
    directory is scheduled. *)
Theorem InitialScan_schedules_unprocessed entries l d :
  let s' := InitialScan filepath_Join queryFails downloadRoot (Ok entries)
              (newScheduler l) in
  activeTimers d s'
  = (if toSchedule filepath_Join queryFails downloadRoot l entries d
     then 1%nat else 0%nat)
  /\ ledger s' = l /\ trace s' = [].
Proof using Type.
  destruct (InitialScan_fold entries (newScheduler l)
              (newScheduler_wellKept l)
              (fun d => newScheduler_tracked d l))
    as (_ & _ & Hl & Ht & Ha).
  cbn zeta in *. split; [| split; assumption].
  rewrite Ha. reflexivity.
Qed.

End InitialScanFacts.

(** ** performScan: when nothing is processed *)

Lemma performScan_skips prog w dir s :
  reachesProcessor w dir s = false ->
  ledger (performScan prog w dir s) = ledger s
  /\ exists evs,
       trace (performScan prog w dir s) = (trace s ++ evs)%list
       /\ List.filter isOutcome evs = [].
Proof.
  unfold reachesProcessor. intros H.
  destruct prog; cbn [performScan];
    unfold Main.performScan, Sched.performScan.
  all: destruct (stabilityResult w dir); cbn [negb andb] in *;
    [| split; [reflexivity |]; exists [EvPerformScan dir];
       split; reflexivity].
  all: cbn [record ledger] in *;
    destruct (IsAlbumProcessed (queryFails w) (ledger s) dir)
      as [processed err];
    cbn [fst] in H; destruct processed; cbn [negb andb] in H;
    [ split; [reflexivity |]; exists [EvPerformScan dir];
      split; reflexivity |].
  all: destruct (ScanAlbumDirectory w dir) as [[album|]|e];
    try (split; [reflexivity |];
         exists [EvPerformScan dir; EvScanAlbumDirectory dir];
         cbn; rewrite <- app_assoc; split; reflexivity).
  all: destruct (Album.Discs album); [| discriminate].
  all: split; [reflexivity |];
       exists [EvPerformScan dir; EvScanAlbumDirectory dir];
       cbn; rewrite <- app_assoc; split; reflexivity.
Qed.

(** A scan that does not reach the processor, because the directory is
    still changing, or is reported as processed, or the scanner fails or
    finds no disc, fetches no metadata, processes nothing and leaves the
    ledger as it is. *)
Theorem performScan_without_album prog w dir s :
  reachesProcessor w dir s = false ->
  ledger (performScan prog w dir s) = ledger s
  /\ exists evs,
       trace (performScan prog w dir s) = (trace s ++ evs)%list
       /\ List.filter isOutcome evs = [].
Proof. exact (performScan_skips prog w dir s). Qed.

(** ** The ledger only grows, and only by marks *)

Lemma performScan_ledger prog w dir s :
  exists evs,
    trace (performScan prog w dir s) = (trace s ++ evs)%list
    /\ (ledger (performScan prog w dir s) = ledger s
        \/ (ledger (performScan prog w dir s) = {[dir]} ∪ ledger s
            /\ In (EvAddProcessedAlbum dir) evs)).
Proof.
  destruct (reachesProcessor w dir s) eqn:Hr.
  - unfold reachesProcessor in Hr.
    apply andb_true_iff in Hr. destruct Hr as [Hr Hscan].
    apply andb_true_iff in Hr. destruct Hr as [Hst Hproc].
    apply negb_true_iff in Hproc.
    destruct (ScanAlbumDirectory w dir) as [[album|]|e] eqn:Hs;
      try discriminate.
    assert (Hne : Album.Discs album <> [])
      by (destruct (Album.Discs album); [discriminate | discriminate]).
    destruct (performScan_assembled prog w dir s album Hst Hproc Hs Hne)
      as [Ht Hl].
    eexists. split; [exact Ht |]. rewrite Hl.
    destruct (ProcessAlbum w (handedOver prog w album)); [left; reflexivity |].
    unfold AddProcessedAlbum. destruct (execFails w); [left; reflexivity |].
    right. split; [reflexivity |].
    apply in_or_app. right. apply in_or_app. right.
    right. left. reflexivity.
  - destruct (performScan_skips prog w dir s Hr)
      as [Hl (evs & Ht & _)].
    exists evs. split; [exact Ht |]. left. exact Hl.
Qed.

Lemma fire_ledger prog w t s s' :
  fire prog w t s = Some s' ->
  exists evs,
    trace s' = (trace s ++ evs)%list
    /\ ledger s ⊆ ledger s'
    /\ forall d, d ∈ ledger s' ->
                 d ∈ ledger s \/ In (EvAddProcessedAlbum d) evs.
Proof.
  unfold fire. destruct (timers s !! t) as [tm|]; [| discriminate].
  destruct (active tm); [| discriminate]. intros [= <-].
  cbn [trace ledger].
  match goal with
  | |- context [performScan prog w ?dir ?s1] =>
      destruct (performScan_ledger prog w dir s1) as (evs & Ht & Hl)
  end.
  cbn [trace ledger] in Ht, Hl. exists evs. split; [exact Ht |].
  destruct Hl as [->|[-> Hin]].
  - split; [reflexivity | auto].
  - split; [apply union_subseteq_r |].
    intros d Hd. apply elem_of_union in Hd. destruct Hd as [Hd|Hd]; [| auto].
    apply elem_of_singleton in Hd. subst d. auto.
Qed.

(** Whatever the triggers and timers, the ledger never loses a directory,
    and a directory enters it only by a mark written after its album was
    processed. *)
Theorem ledger_grows_by_marks prog steps : forall s s',
  run prog steps s = Some s' ->
  ledger s ⊆ ledger s'
  /\ exists evs,
       trace s' = (trace s ++ evs)%list
       /\ forall d, d ∈ ledger s' ->
                    d ∈ ledger s \/ In (EvAddProcessedAlbum d) evs.
Proof.
  induction steps as [|st steps IH]; intros s s'; cbn [run].
  - intros [= <-]. split; [reflexivity |]. exists [].
    rewrite app_nil_r. auto.
  - destruct (step prog st s) as [s1|] eqn:Hstep; [| discriminate].
    intros Hrun. destruct (IH s1 s' Hrun) as (Hsub & evs & Ht & Hin).
    assert (H1 : exists evs1,
               trace s1 = (trace s ++ evs1)%list
               /\ ledger s ⊆ ledger s1
               /\ forall d, d ∈ ledger s1 ->
                            d ∈ ledger s \/ In (EvAddProcessedAlbum d) evs1).
    { destruct st as [dir|w t]; cbn [step] in Hstep.
      - injection Hstep as <-. exists []. cbn. rewrite app_nil_r. auto.
      - exact (fire_ledger prog w t s s1 Hstep). }
    destruct H1 as (evs1 & Ht1 & Hsub1 & Hin1).
    split; [etransitivity; eassumption |].
    exists (evs1 ++ evs)%list. split.
    + rewrite Ht, Ht1, app_assoc. reflexivity.
    + intros d Hd. destruct (Hin d Hd) as [H|H].
      * destruct (Hin1 d H) as [H'|H']; [auto |].
        right. apply in_or_app. auto.
      * right. apply in_or_app. auto.
Qed.

(** ** The watcher *)

(** Whatever event arrives, the event loop of either program schedules at
    most one path, the path of the event or its parent, and only a path
    whose parent is the download root. *)
Theorem watcher_schedules_children_only prog filepath_Dir isDir1 isDir2
    queryFails downloadRoot event s :
  let s' := watcher_event prog filepath_Dir isDir1 isDir2 queryFails
              downloadRoot event s in
  s' = s
  \/ exists p,
       (p = evName event \/ p = filepath_Dir (evName event))
       /\ filepath_Dir p = downloadRoot
       /\ s' = TriggerScan p s.
Proof.
  cbn zeta.
  destruct prog; cbn [watcher_event];
    unfold startFileWatcher_event, cmd_main_event.
  - destruct (negb _ && negb _); [left; reflexivity |].
    destruct (String.eqb_spec (filepath_Dir (evName event)) downloadRoot)
      as [Hd|Hd].
    + destruct (evCreate event && true && isDir1 (evName event)).
      * destruct (IsAlbumProcessed _ _ _) as [[|] ?]; cbn [negb];
          [left; reflexivity |].
        right. exists (evName event). auto.
      * destruct (isDir2 (evName event)).
        -- rewrite Hd, String.eqb_refl. right. exists (evName event). auto.
        -- destruct (String.eqb_spec
                       (filepath_Dir (filepath_Dir (evName event)))
                       downloadRoot) as [Hdd|Hdd]; [| left; reflexivity].
           right. exists (filepath_Dir (evName event)). auto.
    + rewrite andb_false_r. cbn [andb].
      destruct (isDir2 (evName event)).
      * destruct (String.eqb_spec (filepath_Dir (evName event))
                    downloadRoot); [contradiction | left; reflexivity].
      * destruct (String.eqb_spec
                    (filepath_Dir (filepath_Dir (evName event)))
                    downloadRoot) as [Hdd|Hdd]; [| left; reflexivity].
        right. exists (filepath_Dir (evName event)). auto.
  - destruct (String.eqb_spec (filepath_Dir (evName event)) downloadRoot)
      as [Hd|Hd].
    + destruct (evCreate event && true && isDir1 (evName event)).
      * right. exists (evName event). auto.
      * destruct (isDir2 (evName event)); cbn [negb].
        -- rewrite Hd, String.eqb_refl. right. exists (evName event). auto.
        -- destruct (String.eqb_spec
                       (filepath_Dir (filepath_Dir (evName event)))
                       downloadRoot) as [Hdd|Hdd]; [| left; reflexivity].
           right. exists (filepath_Dir (evName event)). auto.
    + rewrite andb_false_r. cbn [andb].
      destruct (isDir2 (evName event)); cbn [negb].
      * destruct (String.eqb_spec (filepath_Dir (evName event))
                    downloadRoot); [contradiction | left; reflexivity].
      * destruct (String.eqb_spec
                    (filepath_Dir (filepath_Dir (evName event)))
                    downloadRoot) as [Hdd|Hdd]; [| left; reflexivity].
        right. exists (filepath_Dir (evName event)). auto.
Qed.

Lemma performScan_without_album_witness :
  ledger (performScan PkgScheduler worldProcessed demoDir_album
            (newScheduler {[demoDir_album]}))
  = ledger (newScheduler {[demoDir_album]})
  /\ exists evs,
       trace (performScan PkgScheduler worldProcessed demoDir_album
                (newScheduler {[demoDir_album]}))
       = (trace (newScheduler {[demoDir_album]}) ++ evs)%list
       /\ List.filter isOutcome evs = [].
Proof.
  apply (performScan_without_album PkgScheduler worldProcessed demoDir_album
           (newScheduler {[demoDir_album]})).
  vm_compute; reflexivity.
Defined.

Lemma ledger_grows_by_marks_witness :
  exists s',
    run MainGo [StepTrigger demoDir_album; StepFire worldStable 0%nat]
      (newScheduler ∅) = Some s'
    /\ ledger (newScheduler ∅) ⊆ ledger s'
    /\ exists evs,
         trace s' = (trace (newScheduler ∅) ++ evs)%list
         /\ forall d, d ∈ ledger s' ->
                      d ∈ ledger (newScheduler ∅)
                      \/ In (EvAddProcessedAlbum d) evs.
Proof.
  eexists. split; [vm_compute; reflexivity |].
  apply (ledger_grows_by_marks MainGo
           [StepTrigger demoDir_album; StepFire worldStable 0%nat]
           (newScheduler ∅)).
  vm_compute; reflexivity.
Defined.

Lemma burst_one_timer_witness :
  activeTimers demoDir_album
    (Nat.iter 3 (TriggerScan demoDir_album) (newScheduler ∅)) = 1%nat
  /\ tracked demoDir_album
       (Nat.iter 3 (TriggerScan demoDir_album) (newScheduler ∅)).
Proof.
  apply (burst_one_timer demoDir_album 2 (newScheduler ∅)).
  intros t tm H. cbn in H. discriminate.
Defined.

(** ** A burst of triggers, then the timer fires *)

Lemma performScan_stable prog w dir s :
  stabilityResult w dir = true ->
  timers (performScan prog w dir s) = timers s
  /\ pendingScans (performScan prog w dir s) = pendingScans s
  /\ scansOf dir (performScan prog w dir s) = S (scansOf dir s).
Proof.
  intros Hst.
  assert (Hone : forall evs,
            List.filter (isScanOf dir) evs = [] ->
            length (List.filter (isScanOf dir)
                      (trace s ++ EvPerformScan dir :: evs))
            = S (length (List.filter (isScanOf dir) (trace s)))).
  { intros evs He. rewrite List.filter_app, length_app. cbn [List.filter].
    cbn [isScanOf]. rewrite String.eqb_refl, He. cbn. lia. }
  assert (Hfetch : forall l,
            List.filter (isScanOf dir) (map EvFetchMetadata l) = []).
  { induction l as [|a l IH]; [reflexivity | exact IH]. }
  unfold scansOf.
  destruct (reachesProcessor w dir s) eqn:Hr.
  - unfold reachesProcessor in Hr. rewrite Hst in Hr. cbn [andb] in Hr.
    apply andb_true_iff in Hr. destruct Hr as [Hproc Hscan].
    apply negb_true_iff in Hproc.
    destruct (ScanAlbumDirectory w dir) as [[album|]|e] eqn:Hs;
      try discriminate.
    assert (Hne : Album.Discs album <> [])
      by (destruct (Album.Discs album); [discriminate | discriminate]).
    destruct (performScan_assembled prog w dir s album Hst Hproc Hs Hne)
      as [Ht _].
    split; [| split].
    + destruct prog; cbn [performScan];
        unfold Main.performScan, Sched.performScan;
        rewrite Hst; cbn [negb record ledger];
        destruct (IsAlbumProcessed (queryFails w) (ledger s) dir)
          as [processed err]; cbn [fst] in Hproc; subst processed;
        rewrite Hs; destruct (Album.Discs album); try congruence;
        unfold processAndMark;
        [ destruct (ProcessAlbum w album); reflexivity |].
      destruct (record_fetches (allTracks album)
                  (record (EvScanAlbumDirectory dir)
                     (record (EvPerformScan dir) s)))
        as (_ & _ & _ & Htm).
      destruct (ProcessAlbum w _); cbn [timers record]; rewrite Htm;
        reflexivity.
    + destruct prog; cbn [performScan];
        unfold Main.performScan, Sched.performScan;
        rewrite Hst; cbn [negb record ledger];
        destruct (IsAlbumProcessed (queryFails w) (ledger s) dir)
          as [processed err]; cbn [fst] in Hproc; subst processed;
        rewrite Hs; destruct (Album.Discs album); try congruence;
        unfold processAndMark;
        [ destruct (ProcessAlbum w album); reflexivity |].
      destruct (record_fetches (allTracks album)
                  (record (EvScanAlbumDirectory dir)
                     (record (EvPerformScan dir) s)))
        as (_ & _ & Hps & _).
      destruct (ProcessAlbum w _); cbn [pendingScans record]; rewrite Hps;
        reflexivity.
    + rewrite Ht. cbn [app]. apply Hone.
      cbn [List.filter isScanOf]. rewrite List.filter_app.
      replace (List.filter (isScanOf dir)
                 match prog with
                 | MainGo => []
                 | PkgScheduler => map EvFetchMetadata (allTracks album)
                 end) with (@nil Event)
        by (destruct prog; [reflexivity | symmetry; apply Hfetch]).
      cbn [app List.filter isScanOf].
      destruct (ProcessAlbum w _); reflexivity.
  - unfold reachesProcessor in Hr. rewrite Hst in Hr. cbn [andb] in Hr.
    destruct prog; cbn [performScan];
      unfold Main.performScan, Sched.performScan;
      rewrite Hst; cbn [negb record ledger];
      destruct (IsAlbumProcessed (queryFails w) (ledger s) dir)
        as [processed err]; cbn [fst] in Hr;
      (destruct processed;
       [ split; [reflexivity |]; split; [reflexivity |];
         cbn [trace record]; apply (Hone []); reflexivity |]);
      cbn [negb andb] in Hr;
      (destruct (ScanAlbumDirectory w dir) as [[album|]|e];
       [ destruct (Album.Discs album); [| discriminate] | |]);
      (split; [reflexivity |]; split; [reflexivity |];
       cbn [trace record]; rewrite <- app_assoc;
       apply (Hone [EvScanAlbumDirectory dir]); reflexivity).
Qed.

(** When the one timer of a directory fires and the directory is stable,
    the scan runs once and nothing is left pending for the directory. *)
Lemma fire_stable_clears prog w t s dir :
  tracked dir s ->
  timers s !! t = Some (mkTimer dir true) ->
  stabilityResult w dir = true ->
  exists s',
    fire prog w t s = Some s'
    /\ activeTimers dir s' = 0%nat
    /\ pendingScans s' !! dir = None
    /\ scansOf dir s' = S (scansOf dir s).
Proof.
  intros Htr Ht Hst. unfold fire. rewrite Ht. cbn [active timerDir].
  eexists. split; [reflexivity |].
  match goal with
  | |- context [performScan prog w dir ?s1] =>
      destruct (performScan_stable prog w dir s1 Hst) as (Htm & Hps & Hsc)
  end.
  cbn [timers pendingScans] in Htm, Hps.
  unfold activeTimers, scansOf in *. cbn [timers pendingScans trace] in *.
  rewrite Htm. split; [| split; [apply lookup_delete_eq | exact Hsc]].
  rewrite (filter_none _ (deactivate t (timers s))); [reflexivity |].
  intros i tm Hi.
  destruct (active tm) eqn:Hact; [| reflexivity].
  destruct (String.eqb (timerDir tm) dir) eqn:Hdir; [| reflexivity].
  exfalso. apply String.eqb_eq in Hdir.
  unfold deactivate in Hi. destruct (decide (t = i)) as [->|Hne].
  - rewrite list_lookup_alter_eq, Ht in Hi. cbn in Hi.
    injection Hi as <-. discriminate.
  - rewrite list_lookup_alter_ne in Hi by exact Hne.
    pose proof (Htr i tm Hi Hdir Hact) as H1.
    pose proof (Htr t (mkTimer dir true) Ht eq_refl eq_refl) as H2.
    congruence.
Qed.

Lemma run_triggers prog dir rest k : forall s,
  run prog (repeat (StepTrigger dir) k ++ rest) s
  = run prog rest (Nat.iter k (TriggerScan dir) s).
Proof.
  induction k as [|k IH]; intros s; [reflexivity |].
  cbn [repeat app run step]. rewrite IH.
  rewrite <- Nat.iter_succ_r. reflexivity.
Qed.

Lemma TriggerScan_length dir s :
  length (timers (TriggerScan dir s)) = S (length (timers s)).
Proof.
  unfold TriggerScan. cbn [timers]. rewrite length_app. cbn.
  destruct (pendingScans s !! dir); [unfold deactivate; rewrite length_alter |];
    lia.
Qed.

Lemma TriggerScan_last dir s :
  tracked dir s ->
  timers (TriggerScan dir s) !! length (timers s) = Some (mkTimer dir true)
  /\ trace (TriggerScan dir s) = trace s
  /\ tracked dir (TriggerScan dir s).
Proof.
  intros Htr. destruct (TriggerScan_arms dir s) as [Harm _].
  split; [| split; [reflexivity | apply TriggerScan_one_timer, Htr]].
  rewrite Harm, lookup_app_r;
    (destruct (pendingScans s !! dir);
     [unfold deactivate; rewrite length_alter |]);
    rewrite ?Nat.sub_diag; first [reflexivity | lia].
Qed.

Lemma iter_TriggerScan dir l k :
  let s := Nat.iter (S k) (TriggerScan dir) (newScheduler l) in
  timers s !! k = Some (mkTimer dir true)
  /\ length (timers s) = S k
  /\ trace s = [] /\ tracked dir s.
Proof.
  induction k as [|k IH]; cbn zeta.
  - change (Nat.iter 1 (TriggerScan dir) (newScheduler l))
      with (TriggerScan dir (newScheduler l)).
    destruct (TriggerScan_last dir (newScheduler l)
                (newScheduler_tracked dir l)) as (H1 & H2 & H3).
    split; [exact H1 |]. split; [apply TriggerScan_length |].
    split; [exact H2 | exact H3].
  - cbn zeta in IH. destruct IH as (_ & Hlen & Htrace & Htr).
    set (s := Nat.iter (S k) (TriggerScan dir) (newScheduler l)) in *.
    change (Nat.iter (S (S k)) (TriggerScan dir) (newScheduler l))
      with (TriggerScan dir s).
    destruct (TriggerScan_last dir s Htr) as (H1 & H2 & H3).
    rewrite Hlen in H1.
    split; [exact H1 |]. split; [rewrite TriggerScan_length; lia |].
    split; [congruence | exact H3].
Qed.

(** Any number of triggers for a directory in a row, followed by the
    firing of the last timer made while the directory is stable, scans
    the directory exactly once and leaves no timer and no entry in
    pendingScans for it. *)
Theorem burst_scans_once prog w dir l k :
  stabilityResult w dir = true ->
  exists s',
    run prog (repeat (StepTrigger dir) (S k) ++ [StepFire w k])
      (newScheduler l) = Some s'
    /\ scansOf dir s' = 1%nat
    /\ activeTimers dir s' = 0%nat
    /\ pendingScans s' !! dir = None.
Proof.
  intros Hst. rewrite run_triggers.
  destruct (iter_TriggerScan dir l k) as (Ht & _ & Htrace & Htr).
  cbn zeta in *.
  set (s := Nat.iter (S k) (TriggerScan dir) (newScheduler l)) in *.
  destruct (fire_stable_clears prog w k s dir Htr Ht Hst)
    as (s' & Hf & Ha & Hp & Hs).
  exists s'. cbn [run step]. rewrite Hf.
  split; [reflexivity |]. split; [| auto].
  rewrite Hs. unfold scansOf. rewrite Htrace. reflexivity.
Qed.

Lemma burst_scans_once_witness :
  exists s',
    run PkgScheduler
      (repeat (StepTrigger demoDir_album) 3 ++ [StepFire worldStable 2%nat])
      (newScheduler ∅) = Some s'
    /\ scansOf demoDir_album s' = 1%nat
    /\ activeTimers demoDir_album s' = 0%nat
    /\ pendingScans s' !! demoDir_album = None.
Proof.
  apply (burst_scans_once PkgScheduler worldStable demoDir_album ∅ 2).
  reflexivity.
Defined.

(** ** formatDurationToFFmpegTime *)

Lemma fmt_d_2 v : 0 <= v < 100 -> fmt_d 2 v = fmt2 v.
Proof.
  intros Hv.
  assert (H : forallb (fun n => String.eqb (fmt_d 2 (Z.of_nat n))
                                  (fmt2 (Z.of_nat n)))
                (seq 0 100) = true) by (vm_compute; reflexivity).
  rewrite forallb_forall in H. specialize (H (Z.to_nat v)).
  rewrite Z2Nat.id in H by lia. apply String.eqb_eq, H, in_seq. lia.
Qed.

Lemma fmt_d_3 v : 0 <= v < 1000 -> fmt_d 3 v = fmt3 v.
Proof.
  intros Hv.
  assert (H : forallb (fun n => String.eqb (fmt_d 3 (Z.of_nat n))
                                  (fmt3 (Z.of_nat n)))
                (seq 0 1000) = true) by (vm_compute; reflexivity).
  rewrite forallb_forall in H. specialize (H (Z.to_nat v)).
  rewrite Z2Nat.id in H by lia. apply String.eqb_eq, H, in_seq. lia.
Qed.

Ltac int64_small :=
  match goal with
  | |- context [Int64.wrap ?z] =>
      lazymatch z with
      | context [Int64.wrap] => fail
      | _ => rewrite (Int64_wrap_id z)
               by (unfold Int64.in_range, Int64.min, Int64.max; lia)
      end
  end.

Lemma Duration_Round_ms d :
  0 <= d < 2 ^ 62 ->
  Duration_Round d Millisecond = ms ((d + 500000) / 1000000).
Proof.
  intros Hd. unfold Duration_Round, ms, Millisecond.
  change (1000000 <=? 0) with false. cbv iota.
  destruct (Z.ltb_spec d 0) as [Hneg|_]; [lia |].
  rewrite Z.rem_mod_nonneg by lia.
  pose proof (Z.mod_pos_bound d 1000000 ltac:(lia)) as Hr.
  pose proof (Z.div_mod d 1000000 ltac:(lia)) as Hq.
  set (r := d mod 1000000) in *. set (q := d / 1000000) in *.
  assert (Hq0 : 0 <= q) by (subst q; apply Z.div_pos; lia).
  unfold lessThanHalf, uint64.
  rewrite (Z.mod_small r) by lia.
  rewrite (Z.mod_small (r + r)) by lia.
  rewrite (Z.mod_small 1000000) by lia.
  unfold Int64.sub, Int64.add.
  destruct (Z.ltb_spec (r + r) 1000000) as [Hlt|Hge].
  - int64_small.
    replace ((d + 500000) / 1000000) with q; [lia |].
    apply (Z.div_unique _ _ q (r + 500000)); lia.
  - rewrite (Int64_wrap_id (d + 1000000))
      by (unfold Int64.in_range, Int64.min, Int64.max; lia).
    int64_small.
    destruct (Z.ltb_spec d (d + 1000000 - r)) as [_|Hbad]; [| lia].
    replace ((d + 500000) / 1000000) with (q + 1); [lia |].
    apply (Z.div_unique _ _ (q + 1) (r - 500000)); lia.
Qed.

Lemma formatDuration_ffmpegTime d :
  0 <= d -> (d + 500000) / 1000000 < 360000000 ->
  formatDurationToFFmpegTime d = ffmpegTime ((d + 500000) / 1000000).
Proof.
  intros Hd Hk.
  assert (Hk0 : 0 <= (d + 500000) / 1000000) by (apply Z.div_pos; lia).
  assert (Hd' : d < 2 ^ 62).
  { destruct (Z.lt_ge_cases d (2 ^ 62)) as [|Hbig]; [assumption |].
    exfalso. apply (Z.lt_irrefl 360000000).
    eapply Z.le_lt_trans; [| exact Hk].
    apply Z.div_le_lower_bound; lia. }
  unfold formatDurationToFFmpegTime.
  rewrite Duration_Round_ms by lia.
  set (k := (d + 500000) / 1000000) in *. clearbody k. clear d Hd Hd'.
  unfold ms, Hour, Minute, Second, Millisecond, ffmpegTime.
  unfold Int64.div, Int64.sub, Int64.mul.
  pose proof (Z.div_mod k 3600000 ltac:(lia)) as E1.
  pose proof (Z.mod_pos_bound k 3600000 ltac:(lia)) as B1.
  assert (Hh : Z.quot (k * 1000000) (60 * (60 * (1000 * 1000000)))
               = k / 3600000).
  { rewrite Z.quot_div_nonneg by lia.
    symmetry. apply (Z.div_unique _ _ _ (k mod 3600000 * 1000000)); lia. }
  assert (Hh0 : 0 <= k / 3600000 < 100).
  { split; [apply Z.div_pos; lia | apply Z.div_lt_upper_bound; lia]. }
  rewrite Hh. int64_small. int64_small. int64_small.
  replace (k * 1000000 - k / 3600000 * (60 * (60 * (1000 * 1000000))))
    with (k mod 3600000 * 1000000) by lia.
  set (r1 := k mod 3600000) in *.
  pose proof (Z.div_mod r1 60000 ltac:(lia)) as E2.
  pose proof (Z.mod_pos_bound r1 60000 ltac:(lia)) as B2.
  assert (Hm : Z.quot (r1 * 1000000) (60 * (1000 * 1000000)) = r1 / 60000).
  { rewrite Z.quot_div_nonneg by lia.
    symmetry. apply (Z.div_unique _ _ _ (r1 mod 60000 * 1000000)); lia. }
  assert (Hm0 : 0 <= r1 / 60000 < 60).
  { split; [apply Z.div_pos; lia | apply Z.div_lt_upper_bound; lia]. }
  rewrite Hm. int64_small. int64_small. int64_small.
  replace (r1 * 1000000 - r1 / 60000 * (60 * (1000 * 1000000)))
    with (r1 mod 60000 * 1000000) by lia.
  set (r2 := r1 mod 60000) in *.
  pose proof (Z.div_mod r2 1000 ltac:(lia)) as E3.
  pose proof (Z.mod_pos_bound r2 1000 ltac:(lia)) as B3.
  assert (Hs : Z.quot (r2 * 1000000) (1000 * 1000000) = r2 / 1000).
  { rewrite Z.quot_div_nonneg by lia.
    symmetry. apply (Z.div_unique _ _ _ (r2 mod 1000 * 1000000)); lia. }
  assert (Hs0 : 0 <= r2 / 1000 < 60).
  { split; [apply Z.div_pos; lia | apply Z.div_lt_upper_bound; lia]. }
  rewrite Hs. int64_small. int64_small. int64_small.
  replace (r2 * 1000000 - r2 / 1000 * (1000 * 1000000))
    with (r2 mod 1000 * 1000000) by lia.
  rewrite Z.quot_div_nonneg by lia.
  rewrite Z.div_mul by lia. int64_small.
  rewrite !fmt_d_2 by lia. rewrite fmt_d_3 by lia.
  assert (Em : r1 / 60000 = k / 60000 mod 60)
    by (subst r1; clear; Z.to_euclidean_division_equations; lia).
  assert (Es : r2 / 1000 = k / 1000 mod 60)
    by (subst r2 r1; clear; Z.to_euclidean_division_equations; lia).
  assert (Ems : r2 mod 1000 = k mod 1000)
    by (subst r2 r1; clear; Z.to_euclidean_division_equations; lia).
  rewrite Em, Es, Ems. reflexivity.
Qed.

(** A duration that is not negative is written as HH:MM:SS.mmm, the
    hours, minutes, seconds and milliseconds of the duration rounded to
    the nearest millisecond, half a millisecond upwards; this holds below
    one hundred hours, where the hours take two digits. *)
Theorem formatDurationToFFmpegTime_rounds d :
  0 <= d -> (d + 500000) / 1000000 < 360000000 ->
  formatDurationToFFmpegTime d = ffmpegTime ((d + 500000) / 1000000).
Proof. exact (formatDuration_ffmpegTime d). Qed.

Lemma formatDurationToFFmpegTime_rounds_witness :
  formatDurationToFFmpegTime 432666499999 = "00:07:12.666".
Proof.
  exact (formatDurationToFFmpegTime_rounds 432666499999 ltac:(lia)
           ltac:(vm_compute; reflexivity)).
Defined.

(** ** The start times the parser produces *)

Lemma parseCueTime_cueTimestamp (m s f : Z) :
  0 <= m < 100 -> 0 <= s < 100 -> 0 <= f < 100 ->
  parseCueTime (cueTimestamp m s f)
  = Ok (ms (m * 60000 + s * 1000 + f * 1000 / 75)).
Proof.
  intros Hm Hs Hf. unfold parseCueTime.
  rewrite Split_cueTimestamp by assumption.
  rewrite !Atoi_fmt2 by assumption. cbn [fst].
  assert (Hd : 0 <= f * 1000 / 75 <= 1320).
  { split; [apply Z.div_pos; lia |].
    apply Z.div_le_upper_bound; lia. }
  unfold Int64.add, Int64.mul, Int64.div, ms, Millisecond.
  repeat int64_small.
  rewrite Z.quot_div_nonneg by lia.
  repeat int64_small.
  f_equal. lia.
Qed.

Lemma indexRegex_wholeMs line whole ts rest :
  FindStringSubmatch indexRegex line = whole :: ts :: rest ->
  wholeMs match parseCueTime ts with Ok d => d | Err _ => 0 end.
Proof.
  intros H.
  destruct (indexRegex_capture line whole ts rest H)
    as (m & s & f & Hm & Hs & Hf & ->).
  rewrite parseCueTime_cueTimestamp by assumption.
  assert (Hd : 0 <= f * 1000 / 75 <= 1320).
  { split; [apply Z.div_pos; lia |]. apply Z.div_le_upper_bound; lia. }
  eexists. split; [| reflexivity]. lia.
Qed.

Lemma parseLine_wholeMs st text :
  Forall (fun t => wholeMs (Track.StartTime t)) (flush st) ->
  Forall (fun t => wholeMs (Track.StartTime t)) (flush (parseLine st text)).
Proof.
  intros Hst.
  assert (H0 : wholeMs 0) by (exists 0; split; [lia | reflexivity]).
  unfold parseLine.
  destruct (FindStringSubmatch fileRegex (TrimSpace text))
    as [|w [|m1 rest]].
  3: exact Hst.
  all: destruct (FindStringSubmatch trackRegex (TrimSpace text))
         as [|w' [|m1' rest']].
  3,6: unfold flush at 1; cbn [currentTrack cue Tracks];
       apply Forall_app; split; [exact Hst | repeat constructor; exact H0].
  all: destruct (currentTrack st) as [t|] eqn:Hcur; [| exact Hst].
  all: assert (Hsplit : Forall (fun t => wholeMs (Track.StartTime t))
                          (Tracks (cue st))
                        /\ wholeMs (Track.StartTime t))
         by (unfold flush in Hst; rewrite Hcur in Hst;
             apply Forall_app in Hst; destruct Hst as [Ha Hb];
             split; [exact Ha | inversion Hb; assumption]).
  all: destruct Hsplit as [Ha Hb].
  all: destruct (FindStringSubmatch titleRegex (TrimSpace text))
         as [|? [|? ?]].
  all: try (destruct (FindStringSubmatch indexRegex (TrimSpace text))
              as [|? [|ts ?]] eqn:Hidx).
  all: try exact Hst.
  all: unfold flush; cbn [currentTrack cue Tracks];
       apply Forall_app; split; [exact Ha |]; repeat constructor;
       cbn [Track.StartTime Track.set_Title Track.set_StartTime];
       first [exact Hb | exact (indexRegex_wholeMs _ _ _ _ Hidx)].
Qed.

Lemma fold_parseLine_wholeMs tokens : forall st,
  Forall (fun t => wholeMs (Track.StartTime t)) (flush st) ->
  Forall (fun t => wholeMs (Track.StartTime t))
    (flush (fold_left parseLine tokens st)).
Proof.
  induction tokens as [|text tokens IH]; intros st H; cbn [fold_left];
    [exact H |].
  apply IH, parseLine_wholeMs, H.
Qed.

Lemma addMetadata_app args key value :
  addMetadata args key value = (args ++ addMetadata [] key value)%list.
Proof.
  unfold addMetadata. destruct (String.eqb value EmptyString);
    [rewrite app_nil_r |]; reflexivity.
Qed.

Lemma buildFFmpegCommand_cut inputFile outputFile track coverArtPath :
  exists rest,
    buildFFmpegCommand inputFile outputFile track coverArtPath
    = (["-y"; "-ss"; formatDurationToFFmpegTime (Track.StartTime track)]
       ++ (if 0 <? Track.EndTime track
           then ["-to"; formatDurationToFFmpegTime (Track.EndTime track)]
           else [])
       ++ "-i" :: inputFile :: rest)%list.
Proof.
  unfold buildFFmpegCommand.
  rewrite (addMetadata_app _ "title"), (addMetadata_app _ "artist"),
    (addMetadata_app _ "album_artist"), (addMetadata_app _ "album"),
    (addMetadata_app _ "date"), (addMetadata_app _ "track").
  destruct (negb (String.eqb (Track.Lyrics track) EmptyString));
    [rewrite (addMetadata_app _ "lyrics") |];
    destruct (0 <? Track.EndTime track);
    destruct (negb (String.eqb coverArtPath EmptyString));
    cbn [app]; rewrite <- ?app_assoc; cbn [app];
    eexists; reflexivity.
Qed.

Section CutPoints.

Variable readTextFileContent : string -> result string string.
Variable TradToSim : string -> string.
Variable statIsNotExist : string -> bool.
Variable filepath_Dir : string -> string.
Variable filepath_Join : string -> string -> string.

Lemma parseCueFile_wholeMs cuePath cueSheet (i : nat) t :
  parseCueFile readTextFileContent cuePath = Ok cueSheet ->
  Tracks cueSheet !! i = Some t ->
  wholeMs (Track.StartTime t).
Proof using Type.
  unfold parseCueFile.
  destruct (readTextFileContent cuePath) as [content|e]; [| discriminate].
  destruct (bufio.Scanner content) as [tokens [e|]]; [discriminate |].
  pose proof (fold_parseLine_wholeMs tokens parseInit (List.Forall_nil _)) as H.
  destruct (flush (fold_left parseLine tokens parseInit)) as [|t0 l];
    [discriminate |].
  intros [= <-] Hi. cbn [Tracks] in Hi.
  rewrite List.Forall_forall in H. apply H.
  apply list_elem_of_In. eapply list_elem_of_lookup_2. exact Hi.
Qed.

(** Every start time in a parsed cue sheet is a whole number of
    milliseconds, not negative and not above the duration of the
    timestamp 99:99:99; a track without an INDEX 01 line starts at
    zero. *)
Theorem parseCueFile_start_times cuePath cueSheet (i : nat) t :
  parseCueFile readTextFileContent cuePath = Ok cueSheet ->
  Tracks cueSheet !! i = Some t ->
  wholeMs (Track.StartTime t).
Proof using Type. exact (parseCueFile_wholeMs cuePath cueSheet i t). Qed.

(** The ffmpeg command of a track of a disc cuts from the track's own
    start, written to the millisecond, to the start of the next track of
    the disc; the last track, and a track whose successor starts at zero,
    get no end and are cut to the end of the audio file. *)
Theorem ffmpeg_cut_points cuePath album discNumber disc (i : nat) t
    outputFile coverArtPath :
  processCueFile readTextFileContent TradToSim statIsNotExist filepath_Dir
    filepath_Join cuePath album discNumber = Ok disc ->
  Disc.Tracks disc !! i = Some t ->
  exists k rest,
    0 <= k <= 6040320
    /\ Track.StartTime t = ms k
    /\ buildFFmpegCommand (Disc.WavPath disc) outputFile t coverArtPath
       = (["-y"; "-ss"; ffmpegTime k]
          ++ match Disc.Tracks disc !! S i with
             | Some next =>
                 if 0 <? Track.StartTime next
                 then ["-to";
                       formatDurationToFFmpegTime (Track.StartTime next)]
                 else []
             | None => []
             end
          ++ "-i" :: Disc.WavPath disc :: rest)%list.
Proof using Type.
  intros Hproc Hi.
  destruct (processCueFile_inv _ _ _ _ _ _ _ _ _ Hproc)
    as (cueSheet & Hparse & Htracks & _).
  rewrite Htracks in Hi |- *. rewrite list_lookup_imap in Hi |- *.
  destruct (Tracks cueSheet !! i) as [c|] eqn:Hc; [| discriminate].
  cbn in Hi. injection Hi as <-.
  destruct (parseCueFile_wholeMs cuePath cueSheet i c Hparse Hc)
    as (k & Hk & Hms).
  destruct (buildFFmpegCommand_cut (Disc.WavPath disc) outputFile
              (buildTrack TradToSim album (Tracks cueSheet) i c)
              coverArtPath) as (rest & Hcmd).
  exists k, rest. split; [exact Hk |].
  rewrite buildTrack_StartTime. split; [exact Hms |].
  rewrite Hcmd.
  rewrite buildTrack_StartTime, buildTrack_EndTime, Hms.
  replace (ms k) with (ms k + 0) at 1 by lia.
  rewrite (formatDuration_ffmpegTime (ms k + 0)).
  2: unfold ms, Millisecond; lia.
  2: { unfold ms, Millisecond.
       replace (k * 1000000 + 0 + 500000) with (500000 + k * 1000000) by lia.
       rewrite Z_div_plus by lia. change (500000 / 1000000) with 0. lia. }
  replace ((ms k + 0 + 500000) / 1000000) with k.
  2: { unfold ms, Millisecond.
       replace (k * 1000000 + 0 + 500000) with (500000 + k * 1000000) by lia.
       rewrite Z_div_plus by lia. change (500000 / 1000000) with 0. lia. }
  replace (i + 1)%nat with (S i) by lia.
  destruct (Tracks cueSheet !! S i) as [next|]; cbn [fmap option_fmap option_map];
    [| reflexivity].
  unfold compose. rewrite buildTrack_StartTime. reflexivity.
Qed.

End CutPoints.

(** ** sanitizeFileName *)

Lemma every_append P a b : every P (a +:+ b) = every P a && every P b.
Proof.
  induction a as [|c a IH]; [reflexivity |].
  rewrite append_cons. cbn [every]. rewrite IH, andb_assoc. reflexivity.
Qed.

Lemma every_impl (P Q : ascii -> bool) s :
  (forall c, P c = true -> Q c = true) ->
  every P s = true -> every Q s = true.
Proof.
  intros HPQ. induction s as [|c s IH]; [reflexivity |].
  cbn [every]. rewrite !andb_true_iff. intros [Hc Hs]. auto.
Qed.

Lemma every_ReplaceAll l s old new :
  every (avoids l) s = true ->
  every (avoids (old :: l)) new = true ->
  every (avoids (old :: l)) (ReplaceAll s old new) = true.
Proof.
  intros Hs Hnew. induction s as [|c s IH]; [reflexivity |].
  cbn [every] in Hs. apply andb_true_iff in Hs. destruct Hs as [Hc Hs].
  cbn [ReplaceAll]. destruct (byte_eqb c old) eqn:E.
  - rewrite every_append, Hnew, IH by exact Hs. reflexivity.
  - cbn [every]. rewrite IH by exact Hs.
    unfold avoids in *. cbn [existsb]. rewrite E. cbn. rewrite Hc.
    reflexivity.
Qed.

Lemma every_drop P n : forall s,
  every P s = true -> every P (drop n s) = true.
Proof.
  induction n as [|n IH]; intros s H; [exact H |].
  destruct s as [|c s]; [reflexivity |].
  cbn [every] in H. apply andb_true_iff in H. apply IH, H.
Qed.

Lemma every_rev_string P s : forall acc,
  every P (rev_string s acc) = every P s && every P acc.
Proof.
  induction s as [|c s IH]; intros acc; cbn [rev_string every];
    [reflexivity |].
  rewrite IH. cbn [every]. destruct (P c), (every P s); reflexivity.
Qed.

Lemma every_trim_left P encs fuel : forall s,
  every P s = true -> every P (trim_left fuel encs s) = true.
Proof.
  induction fuel as [|fuel IH]; intros s H; cbn [trim_left]; [exact H |].
  destruct (first_prefix encs s); [| exact H].
  apply IH, every_drop, H.
Qed.

Lemma every_TrimSpace P s :
  every P s = true -> every P (TrimSpace s) = true.
Proof.
  intros H. unfold TrimSpace.
  rewrite every_rev_string, andb_true_r.
  apply every_trim_left. rewrite every_rev_string, andb_true_r.
  apply every_trim_left, H.
Qed.

Lemma rev_string_nonempty c s acc : rev_string (String c s) acc <> EmptyString.
Proof.
  revert c acc. induction s as [|d s IH]; intros c acc; cbn; [discriminate |].
  apply (IH d).
Qed.

Lemma HasPrefix_nil s : HasPrefix s EmptyString = true.
Proof. destruct s; reflexivity. Qed.

(** A byte at which no white space begins is not the space. *)
Lemma first_prefix_not_space c s :
  first_prefix space_encodings (String c s) = None -> not_space c = true.
Proof.
  unfold first_prefix. intros H.
  pose proof (find_none _ _ H " ") as Hsp.
  assert (Hin : In (" " : string) space_encodings)
    by (vm_compute; tauto).
  specialize (Hsp Hin).
  change (byte_eqb " " c && HasPrefix s EmptyString = false) in Hsp.
  replace (HasPrefix s EmptyString) with true in Hsp
    by (destruct s; reflexivity).
  rewrite andb_true_r in Hsp. unfold not_space, byte_eqb in *.
  rewrite Ascii.eqb_sym. rewrite Hsp. reflexivity.
Qed.

(** The pieces [strings.Fields] returns are not empty, hold no space, and
    are made of bytes of the text. *)
Lemma Fields_loop_pieces P fuel : forall s cur,
  every P s = true -> every P cur = true -> every not_space cur = true ->
  Forall (fun f => f <> EmptyString /\ every P f = true
                   /\ every not_space f = true)
         (Fields_loop fuel s cur).
Proof.
  assert (Hemit : forall cur,
            every P cur = true -> every not_space cur = true ->
            Forall (fun f => f <> EmptyString /\ every P f = true
                             /\ every not_space f = true) (emit cur)).
  { intros [|c cur] H1 H2; [constructor |].
    unfold emit. constructor; [| constructor].
    split; [apply rev_string_nonempty |].
    rewrite !every_rev_string, !andb_true_r. auto. }
  induction fuel as [|fuel IH]; intros s cur Hs Hc Hn; cbn [Fields_loop];
    [apply Hemit; assumption |].
  destruct s as [|c s]; [apply Hemit; assumption |].
  destruct (first_prefix space_encodings (String c s)) as [e|] eqn:E.
  - apply Forall_app. split; [apply Hemit; assumption |].
    apply IH; [apply every_drop, Hs | reflexivity | reflexivity].
  - cbn [every] in Hs. apply andb_true_iff in Hs. destruct Hs as [Hc0 Hs].
    apply IH; [exact Hs | |]; cbn [every].
    + rewrite Hc0, Hc. reflexivity.
    + rewrite (first_prefix_not_space c s E), Hn. reflexivity.
Qed.

Lemma HasSuffix_aux_space c s :
  HasSuffix_aux (String c s) " "
  = match s with
    | EmptyString => byte_eqb c " "
    | _ => HasSuffix_aux s " "
    end.
Proof.
  cbn [HasSuffix_aux]. destruct s as [|d s].
  - cbn. unfold byte_eqb. destruct (Ascii.eqb c " "); reflexivity.
  - replace (String.eqb (String c (String d s)) " ") with false;
      [reflexivity |].
    cbn. destruct (Ascii.eqb c " "); reflexivity.
Qed.

Lemma HasSuffix_aux_append a b :
  b <> EmptyString ->
  HasSuffix_aux (a +:+ b) " " = HasSuffix_aux b " ".
Proof.
  intros Hb. induction a as [|c a IH]; [reflexivity |].
  rewrite append_cons, HasSuffix_aux_space.
  destruct (a +:+ b) eqn:E; [| exact IH].
  destruct a; [cbn in E; contradiction | discriminate].
Qed.

Lemma no_space_tidy f :
  every not_space f = true ->
  HasPrefix f " " = false /\ HasSuffix_aux f " " = false
  /\ Contains f "  " = false.
Proof.
  induction f as [|c f IH]; [intros _; repeat split |].
  cbn [every]. rewrite andb_true_iff. intros [Hc Hf].
  destruct (IH Hf) as (_ & H2 & H3).
  unfold not_space in Hc. apply negb_true_iff in Hc.
  assert (Hc' : byte_eqb " " c = false)
    by (unfold byte_eqb in *; rewrite Ascii.eqb_sym; exact Hc).
  split; [cbn [HasPrefix]; rewrite Hc'; reflexivity |]. split.
  - rewrite HasSuffix_aux_space. destruct f; assumption.
  - cbn [Contains HasPrefix]. rewrite Hc'. exact H3.
Qed.

Lemma Contains_spaced a rest :
  every not_space a = true ->
  HasPrefix rest " " = false -> Contains rest "  " = false ->
  Contains (a +:+ " " +:+ rest) "  " = false.
Proof.
  intros Ha Hp Hc. induction a as [|c a IH].
  - change (EmptyString +:+ " " +:+ rest) with (String " " rest).
    cbn [Contains]. rewrite Hc, orb_false_r.
    cbn [HasPrefix]. change (byte_eqb " " " ") with true. cbn [andb].
    destruct rest as [|d rest]; [reflexivity |].
    cbn [HasPrefix] in Hp |- *. exact Hp.
  - cbn [every] in Ha. apply andb_true_iff in Ha. destruct Ha as [Hc0 Ha].
    rewrite append_cons. cbn [Contains]. rewrite (IH Ha), orb_false_r.
    unfold not_space in Hc0. apply negb_true_iff in Hc0.
    cbn [HasPrefix]. unfold byte_eqb in *. rewrite Ascii.eqb_sym, Hc0.
    reflexivity.
Qed.

Lemma Join_tidy P l :
  P " "%char = true ->
  Forall (fun f => f <> EmptyString /\ every P f = true
                   /\ every not_space f = true) l ->
  every P (Join l " ") = true
  /\ HasPrefix (Join l " ") " " = false
  /\ HasSuffix_aux (Join l " ") " " = false
  /\ Contains (Join l " ") "  " = false
  /\ (l <> [] -> Join l " " <> EmptyString).
Proof.
  intros Hsp. induction l as [|a l IH]; intros Hall.
  - cbn. repeat split; auto.
  - apply Forall_cons in Hall. destruct Hall as [(Hne & HP & Hns) Hall].
    destruct (no_space_tidy a Hns) as (Ha1 & Ha2 & Ha3).
    destruct l as [|b l].
    + cbn [Join]. repeat split; auto.
    + destruct (IH Hall) as (J1 & J2 & J3 & J4 & J5).
      specialize (J5 ltac:(discriminate)).
      change (Join (a :: b :: l) " ") with (a +:+ " " +:+ Join (b :: l) " ").
      set (J := Join (b :: l) " ") in *.
      split; [rewrite !every_append; cbn [every]; rewrite HP, Hsp, J1;
              reflexivity |].
      split.
      { destruct a as [|c a]; [contradiction |].
        rewrite append_cons. cbn [HasPrefix] in Ha1 |- *.
        rewrite HasPrefix_nil in *. exact Ha1. }
      split.
      { rewrite HasSuffix_aux_append.
        - change (" " +:+ J) with (String " " J).
          rewrite HasSuffix_aux_space. destruct J; [contradiction | exact J3].
        - discriminate. }
      split; [apply Contains_spaced; assumption |].
      intros _. destruct a; [contradiction | discriminate].
Qed.

(** The name [sanitizeFileName] returns holds none of the nine bytes that
    are unsafe in a file name, does not begin or end with a space and has
    no two spaces in a row, whatever the name it was given. *)
Theorem sanitizeFileName_clean name :
  every (fun c => negb (is_unsafe c)) (sanitizeFileName name) = true
  /\ HasPrefix (sanitizeFileName name) " " = false
  /\ HasSuffix (sanitizeFileName name) " " = false
  /\ Contains (sanitizeFileName name) "  " = false.
Proof.
  unfold sanitizeFileName, HasSuffix. cbn [fold_left].
  set (P := avoids ["|"%char; ">"%char; "<"%char; dquote; "?"%char;
                    "*"%char; ":"%char; backslash; "/"%char]).
  match goal with
  | |- context [Fields (TrimSpace ?s)] =>
      assert (Hs : every P s = true)
  end.
  { subst P.
    repeat (apply every_ReplaceAll; [| reflexivity]).
    clear. induction name as [|c name IH]; [reflexivity | exact IH]. }
  match type of Hs with
  | every P ?s = true => set (cleaned := s) in *
  end.
  pose proof (Fields_loop_pieces P (String.length (TrimSpace cleaned))
                (TrimSpace cleaned) EmptyString
                (every_TrimSpace P cleaned Hs) eq_refl eq_refl) as Hf.
  destruct (Join_tidy P (Fields (TrimSpace cleaned)) eq_refl Hf)
    as (H1 & H2 & H3 & H4 & _).
  split; [| auto].
  revert H1. apply every_impl. intros c. subst P.
  unfold avoids, is_unsafe, unsafe_bytes. cbn [existsb].
  destruct (byte_eqb c "|"), (byte_eqb c ">"), (byte_eqb c "<"),
    (byte_eqb c dquote), (byte_eqb c "?"), (byte_eqb c "*"),
    (byte_eqb c ":"), (byte_eqb c backslash), (byte_eqb c "/");
    cbn; intros H; first [reflexivity | discriminate].
Qed.

(** ** ProcessAlbum *)

Section ProcessorFacts.

Variable filepath_Join : string -> string -> string.
Variable MkdirAll_fails : string -> bool.
Variable Run : list string -> bool.
Variable fetch : Track.t -> Track.t.

Lemma processDiscs_outcome prog albumOutputDir several coverArt discs :
  forall ran,
    let r := processor.processDiscs filepath_Join MkdirAll_fails Run fetch
               prog albumOutputDir several coverArt discs ran in
    (forall e, snd r = Some e ->
               exists p, MkdirAll_fails p = true /\ e = ErrDiscOutputDir p)
    /\ ((forall p, MkdirAll_fails p = false) ->
        snd r = None
        /\ length (fst r)
           = (length ran + length (concat (map Disc.Tracks discs)))%nat).
Proof using Type.
  induction discs as [|disc discs IH]; intros ran; cbn zeta.
  - cbn. split; [discriminate |]. intros _. split; [reflexivity | lia].
  - cbn [processor.processDiscs map concat].
    destruct (several && MkdirAll_fails _) eqn:E.
    + cbn [fst snd]. split.
      * intros e [= <-]. apply andb_true_iff in E. destruct E as [_ E].
        eexists. split; [exact E | reflexivity].
      * intros Hok. apply andb_true_iff in E. destruct E as [_ E].
        rewrite Hok in E. discriminate.
    + match goal with
      | |- context [processor.processDiscs _ _ _ _ _ _ _ _ _ ?ran'] =>
          destruct (IH ran') as [H1 H2]
      end.
      cbn zeta in H1, H2. split; [exact H1 |].
      intros Hok. destruct (H2 Hok) as [H3 H4]. split; [exact H3 |].
      rewrite H4, !length_app, length_map. lia.
Qed.

(** [ProcessAlbum] fails only when an output directory cannot be made.
    When every directory can be made it returns no error and has run
    ffmpeg once for each track of the album, whether those runs
    succeeded or not. *)
Theorem ProcessAlbum_fails_only_on_mkdir prog album targetDir :
  let r := processor.ProcessAlbum filepath_Join MkdirAll_fails Run fetch
             prog album targetDir in
  (forall e, snd r = Some e ->
             exists p, MkdirAll_fails p = true
                       /\ (e = ErrAlbumOutputDir p \/ e = ErrDiscOutputDir p))
  /\ ((forall p, MkdirAll_fails p = false) ->
      snd r = None /\ length (fst r) = length (allTracks album)).
Proof using Type.
  cbn zeta. unfold processor.ProcessAlbum.
  destruct (MkdirAll_fails _) eqn:E.
  - cbn [fst snd]. split.
    + intros e [= <-]. eexists. split; [exact E |]. left. reflexivity.
    + intros Hok. rewrite Hok in E. discriminate.
  - match goal with
    | |- context [processor.processDiscs _ _ _ _ ?p ?d ?s ?c ?ds ?ran] =>
        destruct (processDiscs_outcome p d s c ds ran) as [H1 H2]
    end.
    cbn zeta in H1, H2. split.
    + intros e He. destruct (H1 e He) as (p & Hp & ->). eauto.
    + intros Hok. destruct (H2 Hok) as [H3 H4]. split; [exact H3 |].
      rewrite H4. reflexivity.
Qed.

End ProcessorFacts.

(** ** FetchMetadataAndUpdateTrack *)

(** The online lookup changes nothing of a track but its online id and
    its lyrics: title, artists, album, year, number and the two cut
    points stay.  Lyrics are only stored for a song whose id is not zero,
    and a failed or empty search leaves the track as it is. *)
Theorem FetchMetadata_keeps_cut_points api track :
  let track' := metadata.FetchMetadataAndUpdateTrack api track in
  Track.Number track' = Track.Number track
  /\ Track.Title track' = Track.Title track
  /\ Track.Artist track' = Track.Artist track
  /\ Track.StartTime track' = Track.StartTime track
  /\ Track.EndTime track' = Track.EndTime track
  /\ Track.Album track' = Track.Album track
  /\ Track.AlbumArtist track' = Track.AlbumArtist track
  /\ Track.Year track' = Track.Year track
  /\ (Track.Lyrics track' <> Track.Lyrics track ->
      Track.OnlineID track' <> 0)
  /\ (match api_search api (Track.Title track +:+ " " +:+ Track.Artist track)
      with
      | None | Some [] => track' = track
      | Some (id :: _) => Track.OnlineID track' = id
      end).
Proof.
  cbn zeta. unfold metadata.FetchMetadataAndUpdateTrack.
  destruct (api_search api _) as [[|id ids]|];
    try (repeat split; congruence).
  unfold metadata.fetchLyrics. cbn [Track.OnlineID set_OnlineID].
  destruct (Z.eqb_spec id 0) as [->|Hne].
  - repeat split; cbn; congruence.
  - destruct (api_lyric api id); repeat split; cbn; congruence.
Qed.

Lemma parseCueFile_start_times_witness : wholeMs (ms 432666).
Proof.
  eapply (parseCueFile_start_times (demoRead sheet3)
            "/download/album/album.cue" _ 2%nat
            (Track.mk 3 "" "" (ms 432666) 0 "" "" "" 0 ""));
    vm_compute; reflexivity.
Defined.

Lemma ffmpeg_cut_points_witness :
  exists disc t,
    demoProcess sheet3 = Ok disc
    /\ Disc.Tracks disc !! 1%nat = Some t
    /\ exists k rest,
         0 <= k <= 6040320
         /\ Track.StartTime t = ms k
         /\ buildFFmpegCommand (Disc.WavPath disc) "02 - .flac" t EmptyString
            = (["-y"; "-ss"; ffmpegTime k]
               ++ match Disc.Tracks disc !! 2%nat with
                  | Some next =>
                      if 0 <? Track.StartTime next
                      then ["-to";
                            formatDurationToFFmpegTime (Track.StartTime next)]
                      else []
                  | None => []
                  end
               ++ "-i" :: Disc.WavPath disc :: rest)%list.
Proof.
  eexists. eexists. split; [vm_compute; reflexivity |].
  split; [vm_compute; reflexivity |].
  apply (ffmpeg_cut_points (demoRead sheet3) demoConvert demoExists demoDir
           demoJoin "/download/album/album.cue" demoAlbum 1 _ 1%nat);
    vm_compute; reflexivity.
Defined.

(** ** ScanAlbumDirectory *)

Lemma album_set_Discs_same album :
  album_set_Discs (Album.Discs album) album = album.
Proof. destruct album. reflexivity. Qed.

Section ScannerFacts.

Variable readTextFileContent : string -> result string string.
Variable TradToSim : string -> string.
Variable statIsNotExist : string -> bool.
Variable filepath_Dir : string -> string.
Variable filepath_Join : string -> string -> string.
Variable statOk : string -> bool.
Variable parseArtistTitleYearFromDir : string -> string * string * string.
Variable WalkDir : string -> list Visit.

Local Abbreviation process :=
  (processCueFile readTextFileContent TradToSim statIsNotExist filepath_Dir
     filepath_Join).
Local Abbreviation usable :=
  (scanner.cueUsable readTextFileContent statIsNotExist filepath_Dir
     filepath_Join).
Local Abbreviation isCue := scanner.isCueVisit.
Local Abbreviation walk :=
  (scanner.walkCues readTextFileContent TradToSim statIsNotExist
     filepath_Dir filepath_Join).
Local Abbreviation Scan :=
  (scanner.ScanAlbumDirectory readTextFileContent TradToSim statIsNotExist
     filepath_Dir filepath_Join statOk parseArtistTitleYearFromDir WalkDir).

Lemma processCueFile_usable cuePath album discNumber :
  match process cuePath album discNumber with
  | Ok disc =>
      usable cuePath = true
      /\ Disc.CuePath disc = cuePath
      /\ Disc.DiscNumber disc = discNumber
      /\ forall (i : nat) t,
           Disc.Tracks disc !! i = Some t ->
           Track.Album t = Album.Title album
           /\ Track.AlbumArtist t = Album.Artist album
           /\ Track.Year t = Album.Year album
  | Err _ => usable cuePath = false
  end.
Proof using Type.
  unfold processCueFile, scanner.cueUsable.
  destruct (parseCueFile readTextFileContent cuePath) as [cueSheet|e];
    [| reflexivity].
  destruct (statIsNotExist _); [reflexivity |].
  cbn [Disc.Tracks Disc.CuePath Disc.DiscNumber].
  split; [reflexivity |]. split; [reflexivity |]. split; [reflexivity |].
  intros i t. rewrite list_lookup_imap.
  destruct (Tracks cueSheet !! i) as [c|]; [| discriminate].
  cbn. intros [= <-].
  destruct (buildTrack_carries_album TradToSim album (Tracks cueSheet) i c)
    as (H1 & H2 & H3 & _).
  auto.
Qed.

(** The walk adds one disc for each usable cue file it visits before the
    first error, in the order of the visits, numbers them from
    [discNumber] on, and leaves the rest of the album as it is. *)
Lemma walkCues_discs visits : forall album discNumber,
  exists new,
    fst (walk visits album discNumber)
    = album_set_Discs (Album.Discs album ++ new) album
    /\ map Disc.CuePath new
       = map visitPath
           (List.filter (fun v => isCue v && usable (visitPath v))
                        (walked visits))
    /\ (0 <= discNumber ->
        discNumber + Z.of_nat (length visits) <= Int64.max ->
        map Disc.DiscNumber new
        = map (fun i => discNumber + Z.of_nat i) (seq 0 (length new)))
    /\ forall disc, In disc new ->
         forall (i : nat) t,
           Disc.Tracks disc !! i = Some t ->
           Track.Album t = Album.Title album
           /\ Track.AlbumArtist t = Album.Artist album
           /\ Track.Year t = Album.Year album.
Proof using Type.
  induction visits as [|v visits IH]; intros album n;
    cbn [scanner.walkCues walked].
  - exists []. rewrite app_nil_r, album_set_Discs_same. cbn.
    split; [reflexivity |]. split; [reflexivity |].
    split; [reflexivity |]. intros d0 [].
  - destruct (visitErr v) as [e|].
    + exists []. rewrite app_nil_r, album_set_Discs_same. cbn.
      split; [reflexivity |]. split; [reflexivity |].
      split; [reflexivity |]. intros d0 [].
    + cbn [List.filter].
      assert (Hskip :
                exists new,
                  fst (walk visits album n)
                  = album_set_Discs (Album.Discs album ++ new) album
                  /\ map Disc.CuePath new
                     = map visitPath
                         (List.filter (fun v => isCue v
                                                && usable (visitPath v))
                            (walked visits))
                  /\ (0 <= n ->
                      n + Z.of_nat (length (v :: visits)) <= Int64.max ->
                      map Disc.DiscNumber new
                      = map (fun i => n + Z.of_nat i) (seq 0 (length new)))
                  /\ forall disc, In disc new ->
                       forall (i : nat) t,
                         Disc.Tracks disc !! i = Some t ->
                         Track.Album t = Album.Title album
                         /\ Track.AlbumArtist t = Album.Artist album
                         /\ Track.Year t = Album.Year album).
      { destruct (IH album n) as (new & H1 & H2 & H3 & H4).
        exists new. split; [exact H1 |]. split; [exact H2 |].
        split; [| exact H4].
        intros Hn Hmax. apply H3; [exact Hn |]. cbn [length] in Hmax. lia. }
      destruct (isCue v) eqn:Hcue; cbn [andb]; [| exact Hskip].
      pose proof (processCueFile_usable (visitPath v) album n) as Hp.
      destruct (process (visitPath v) album n) as [disc|e];
        [| rewrite Hp; exact Hskip].
      destruct Hp as (Hu & Hpath & Hnum & Htr). rewrite Hu.
      destruct (IH (album_set_Discs (Album.Discs album ++ [disc]) album)
                  (Int64.add n 1)) as (new & H1 & H2 & H3 & H4).
      exists (disc :: new). split.
      { rewrite H1. cbn [Album.Discs album_set_Discs].
        rewrite <- app_assoc. reflexivity. }
      split; [cbn [map]; rewrite Hpath, H2; reflexivity |].
      split; [| intros d [<-|Hd]; [exact Htr | exact (H4 d Hd)]].
      intros Hn Hmax. cbn [length] in Hmax.
      assert (Hadd : Int64.add n 1 = n + 1).
      { unfold Int64.add. apply Int64_wrap_id.
        unfold Int64.in_range, Int64.min, Int64.max in *. lia. }
      rewrite Hadd in H3.
      cbn [map length seq]. rewrite Hnum, Z.add_0_r. f_equal.
      rewrite H3 by lia. rewrite <- seq_shift, map_map.
      apply map_ext. intros i. lia.
Qed.

Lemma albumHeader_Discs rootPath :
  Album.Discs (scanner.albumHeader readTextFileContent TradToSim
                 filepath_Join statOk parseArtistTitleYearFromDir rootPath)
  = [].
Proof using Type.
  unfold scanner.albumHeader.
  destruct (readTextFileContent _) as [content|e].
  - unfold parseInfoContent.
    destruct (FindStringSubmatch reAlbumName _) as [|? [|? ?]];
      destruct (FindStringSubmatch reDate _) as [|? [|? ?]];
      destruct (FindStringSubmatch_anchored reArtist _) as [|? [|? ?]];
      destruct (statOk _); reflexivity.
  - destruct (parseArtistTitleYearFromDir _) as [[artist title] year].
    destruct (statOk _); reflexivity.
Qed.

Lemma ScanAlbumDirectory_walk rootPath :
  let header := scanner.albumHeader readTextFileContent TradToSim
                  filepath_Join statOk parseArtistTitleYearFromDir rootPath in
  exists new,
    fst (Scan rootPath) = album_set_Discs new header
    /\ map Disc.CuePath new
       = map visitPath
           (List.filter (fun v => isCue v && usable (visitPath v))
                        (walked (WalkDir rootPath)))
    /\ (Z.of_nat (length (WalkDir rootPath)) < Int64.max ->
        map Disc.DiscNumber new
        = map (fun i => 1 + Z.of_nat i) (seq 0 (length new)))
    /\ forall disc, In disc new ->
         forall (i : nat) t,
           Disc.Tracks disc !! i = Some t ->
           Track.Album t = Album.Title header
           /\ Track.AlbumArtist t = Album.Artist header
           /\ Track.Year t = Album.Year header.
Proof using Type.
  intros header.
  destruct (walkCues_discs (WalkDir rootPath) header 1)
    as (new & H1 & H2 & H3 & H4).
  unfold header in H1. rewrite albumHeader_Discs in H1.
  cbn [app] in H1. fold header in H1.
  exists new. split; [exact H1 |]. split; [exact H2 |].
  split; [| exact H4].
  intros Hlen. apply H3; lia.
Qed.

(** The discs of a scanned album are the usable cue files met before the
    walk's first error, in the order of the walk, and they are numbered
    1, 2, 3 and so on without a gap: a cue file that cannot be processed
    uses up no number.  Cue files in nested directories count like the
    others. *)
Theorem ScanAlbumDirectory_discs rootPath :
  Z.of_nat (length (WalkDir rootPath)) < Int64.max ->
  let album := fst (Scan rootPath) in
  map Disc.CuePath (Album.Discs album)
  = map visitPath
      (List.filter (fun v => isCue v && usable (visitPath v))
                   (walked (WalkDir rootPath)))
  /\ map Disc.DiscNumber (Album.Discs album)
     = map Z.of_nat (seq 1 (length (Album.Discs album))).
Proof using Type.
  intros Hlen album.
  destruct (ScanAlbumDirectory_walk rootPath) as (new & H1 & H2 & H3 & _).
  subst album. rewrite H1. cbn [Album.Discs album_set_Discs].
  split; [exact H2 |].
  rewrite (H3 Hlen), <- seq_shift, map_map. apply map_ext. intros i. lia.
Qed.

(** Every track of every disc of a scanned album carries the album's
    title, artist and year as the album itself has them. *)
Theorem ScanAlbumDirectory_tracks_agree rootPath disc (i : nat) t :
  In disc (Album.Discs (fst (Scan rootPath))) ->
  Disc.Tracks disc !! i = Some t ->
  Track.Album t = Album.Title (fst (Scan rootPath))
  /\ Track.AlbumArtist t = Album.Artist (fst (Scan rootPath))
  /\ Track.Year t = Album.Year (fst (Scan rootPath)).
Proof using Type.
  destruct (ScanAlbumDirectory_walk rootPath) as (new & H1 & _ & _ & H4).
  rewrite H1. cbn [Album.Discs album_set_Discs Album.Title Album.Artist
                   Album.Year].
  intros Hd. exact (H4 disc Hd i t).
Qed.

End ScannerFacts.

(** ** The year read from Info.txt *)

Lemma first_prefix_digit c rest :
  is_digit c = true ->
  first_prefix space_encodings (String c rest) = None.
Proof.
  destruct c as [b0 b1 b2 b3 b4 b5 b6 b7].
  destruct b0, b1, b2, b3, b4, b5, b6, b7; intros H;
    first [discriminate H | reflexivity].
Qed.

Lemma first_prefix_rev_digit c rest :
  is_digit c = true ->
  first_prefix (map (fun e => rev_string e EmptyString) space_encodings)
    (String c rest) = None.
Proof.
  destruct c as [b0 b1 b2 b3 b4 b5 b6 b7].
  destruct b0, b1, b2, b3, b4, b5, b6, b7; intros H;
    first [discriminate H | reflexivity].
Qed.

Lemma TrimSpace_four_digits s : four_digits s -> TrimSpace s = s.
Proof.
  intros (a & b & c & d & -> & Ha & Hb & Hc & Hd).
  unfold TrimSpace. cbn [String.length trim_left].
  rewrite (first_prefix_digit a) by exact Ha.
  cbn [rev_string String.length trim_left].
  rewrite (first_prefix_rev_digit d) by exact Hd.
  reflexivity.
Qed.

Lemma reDate_capture content whole m1 rest :
  FindStringSubmatch reDate content = whole :: m1 :: rest ->
  four_digits m1.
Proof.
  intros Hfind.
  assert (Hne : FindStringSubmatch reDate content <> [])
    by (rewrite Hfind; discriminate).
  destruct (FindStringSubmatch_sound _ _ Hne)
    as (cs & before & x & after & _ & Hx & Hmap).
  rewrite Hfind in Hmap. cbn [numSubexp reDate seq map] in Hmap.
  injection Hmap as _ Hm _. subst m1. clear Hfind Hne.
  cbv [reDate prog seqs star] in Hx.
  inv_matches; cbn [cap Nat.eqb];
    repeat match goal with
           | H : regexp.digit ?c = true |- _ =>
               change (is_digit c = true) in H
           end;
    do 4 eexists; (split; [reflexivity | auto]).
Qed.

Lemma walkCues_frame readTextFileContent TradToSim statIsNotExist
    filepath_Dir filepath_Join visits : forall album n,
  exists discs,
    fst (scanner.walkCues readTextFileContent TradToSim statIsNotExist
           filepath_Dir filepath_Join visits album n)
    = album_set_Discs discs album.
Proof.
  induction visits as [|v visits IH]; intros album n; cbn [scanner.walkCues].
  - exists (Album.Discs album). rewrite album_set_Discs_same. reflexivity.
  - destruct (visitErr v).
    + exists (Album.Discs album). rewrite album_set_Discs_same. reflexivity.
    + destruct (scanner.isCueVisit _); [| apply IH].
      destruct (processCueFile _ _ _ _ _ _ _ _) as [disc|e]; [| apply IH].
      destruct (IH (album_set_Discs (Album.Discs album ++ [disc]) album)
                  (Int64.add n 1)) as (discs & H).
      exists discs. rewrite H. reflexivity.
Qed.

(** When Info.txt can be read, the directory name plays no part in the
    album, whatever the fallback would make of it, and the album's year is
    the four digits the date pattern captured, or empty when the pattern
    does not match. *)
Theorem ScanAlbumDirectory_info_wins readTextFileContent TradToSim
    statIsNotExist filepath_Dir filepath_Join statOk fromDir fromDir'
    WalkDir rootPath content :
  readTextFileContent (filepath_Join rootPath "Info.txt") = Ok content ->
  scanner.ScanAlbumDirectory readTextFileContent TradToSim statIsNotExist
    filepath_Dir filepath_Join statOk fromDir WalkDir rootPath
  = scanner.ScanAlbumDirectory readTextFileContent TradToSim statIsNotExist
      filepath_Dir filepath_Join statOk fromDir' WalkDir rootPath
  /\ match FindStringSubmatch reDate content with
     | [] =>
         Album.Year
           (fst (scanner.ScanAlbumDirectory readTextFileContent TradToSim
                   statIsNotExist filepath_Dir filepath_Join statOk fromDir
                   WalkDir rootPath)) = EmptyString
     | _ =>
         four_digits
           (Album.Year
              (fst (scanner.ScanAlbumDirectory readTextFileContent TradToSim
                      statIsNotExist filepath_Dir filepath_Join statOk
                      fromDir WalkDir rootPath)))
     end.
Proof.
  intros Hread.
  assert (Hhead : forall f,
            scanner.albumHeader readTextFileContent TradToSim filepath_Join
              statOk f rootPath
            = scanner.albumHeader readTextFileContent TradToSim
                filepath_Join statOk fromDir' rootPath)
    by (intros f; unfold scanner.albumHeader; rewrite Hread; reflexivity).
  split.
  { unfold scanner.ScanAlbumDirectory. rewrite (Hhead fromDir).
    reflexivity. }
  unfold scanner.ScanAlbumDirectory.
  set (header := scanner.albumHeader readTextFileContent TradToSim
                   filepath_Join statOk fromDir rootPath).
  destruct (walkCues_frame readTextFileContent TradToSim statIsNotExist
              filepath_Dir filepath_Join (WalkDir rootPath)
              header 1) as (discs & Hw).
  rewrite Hw.
  assert (Hyear : Album.Year header
                  = match FindStringSubmatch reDate content with
                    | _ :: m1 :: _ => TrimSpace m1
                    | _ => EmptyString
                    end).
  { subst header. unfold scanner.albumHeader. rewrite Hread.
    unfold parseInfoContent.
    cbn [Album.InfoContent album_set_InfoContent].
    destruct (FindStringSubmatch reAlbumName content) as [|? [|? ?]];
      destruct (FindStringSubmatch reDate content) as [|? [|? ?]];
      destruct (FindStringSubmatch_anchored reArtist content) as [|? [|? ?]];
      destruct (statOk _); reflexivity. }
  cbn [Album.Year album_set_Discs]. rewrite Hyear.
  destruct (FindStringSubmatch reDate content) as [|w [|m1 rest]] eqn:Hd;
    [reflexivity | |].
  - exfalso.
    assert (Hne : FindStringSubmatch reDate content <> [])
      by (rewrite Hd; discriminate).
    destruct (FindStringSubmatch_sound _ _ Hne) as (cs & _ & _ & _ & _ & _ & Hmap).
    rewrite Hd in Hmap. discriminate Hmap.
  - rewrite (TrimSpace_four_digits m1 (reDate_capture _ _ _ _ Hd)).
    exact (reDate_capture _ _ _ _ Hd).
Qed.

Lemma ScanAlbumDirectory_discs_witness :
  map Disc.CuePath (Album.Discs (fst demoScan))
  = ["/download/album/CD1.cue"; "/download/album/sub/CD2.cue"]
  /\ map Disc.DiscNumber (Album.Discs (fst demoScan)) = [1; 2].
Proof.
  pose proof (ScanAlbumDirectory_discs demoFiles demoConvert demoExists
                demoDir demoJoin (fun _ => true)
                (fun name => ("Unknown Artist", name, EmptyString))
                (fun _ => demoWalk) "/download/album"
                ltac:(vm_compute; reflexivity)) as H.
  cbv zeta in H. destruct H as [H1 H2]. split.
  - etransitivity; [exact H1 |]. vm_compute. reflexivity.
  - etransitivity; [exact H2 |]. vm_compute. reflexivity.
Defined.

Lemma ScanAlbumDirectory_tracks_agree_witness :
  Track.Album
    (hd (Track.new 0)
        (Disc.Tracks
           (hd (Disc.mk 0 "" "" [])
               (Album.Discs (fst demoScan)))))
  = "Title"
  /\ Album.Title (fst demoScan) = "Title".
Proof.
  destruct (ScanAlbumDirectory_tracks_agree demoFiles demoConvert demoExists
              demoDir demoJoin (fun _ => true)
              (fun name => ("Unknown Artist", name, EmptyString))
              (fun _ => demoWalk) "/download/album"
              (hd (Disc.mk 0 "" "" [])
                  (Album.Discs (fst demoScan)))
              0%nat
              (hd (Track.new 0)
                  (Disc.Tracks
                     (hd (Disc.mk 0 "" "" [])
                         (Album.Discs (fst demoScan)))))
              ltac:(vm_compute; left; reflexivity)
              ltac:(vm_compute; reflexivity)) as (H & _).
  split; [| vm_compute; reflexivity].
  etransitivity; [exact H |]. vm_compute. reflexivity.
Defined.

Lemma ScanAlbumDirectory_info_wins_witness :
  four_digits (Album.Year (fst demoScan)).
Proof.
  destruct (ScanAlbumDirectory_info_wins demoFiles demoConvert demoExists
              demoDir demoJoin (fun _ => true)
              (fun name => ("Unknown Artist", name, EmptyString))
              (fun _ => (EmptyString, EmptyString, EmptyString))
              (fun _ => demoWalk) "/download/album"
              ("Main《Title》" +:+ LF +:+ "专辑名称： Title" +:+ LF
               +:+ "出版日期：1999年" +:+ LF)
              ltac:(vm_compute; reflexivity)) as [_ H].
  assert (E : FindStringSubmatch reDate
                ("Main《Title》" +:+ LF +:+ "专辑名称： Title" +:+ LF
                 +:+ "出版日期：1999年" +:+ LF)
              = ["出版日期：1999年"; "1999"]) by (vm_compute; reflexivity).
  rewrite E in H. exact H.
Defined.
